(** * BabyTask: a shallow embedding of the task-graph library

  The embedding follows the headers of the library:
  - [Queue.h]        : the locked FIFO, used sequentially (module [Queue]);
  - [BaseTaskNode.h],
    [TaskNode.h]     : a node with its callable, result slot, counters and
                       dependent lists ([TaskNode], [execute_task],
                       [getValue], [reset_node], [setParent]);
  - [TaskGraph.h]    : node factory, [hasCycle], [reset] and the driver
                       [execute], the latter as an interleaving semantics
                       of the calling thread and the pool's workers
                       ([step], [run]).

  Node pointers ([BaseTaskNode*], [TaskNode*]) are positions in the graph's
  node list [mNodes]: nodes are only ever appended and never removed, so a
  position identifies a node for the life of the graph; all nodes belong
  to the one graph.  [size_t] counters are integers taken modulo [2^64].
  Callables are total functions on the state they capture: a task that
  throws is outside the model, the fan-out check of [execute] is the one
  exception that is in it.  Stopping and resizing the pool play no part in
  a run of the graph; resizing is modelled on its own (module [Control]),
  stopping is left out. *)

From Stdlib Require Import ZArith List Lia.
From stdpp Require Import base tactics option list relations numbers strings gmap.

(** ** [size_t] arithmetic *)

Definition size_wrap (x : Z) : Z := (x mod 2 ^ 64)%Z.

(** [++x] and [--x] on a [size_t] (the value after the operation). *)
Definition pre_incr (x : Z) : Z := size_wrap (x + 1).
Definition pre_decr (x : Z) : Z := size_wrap (x - 1).

(** ** Queue.h *)

Module Queue.
Section Defs.
Context {T : Type}.

(** [std::queue<T> mQueue]: the front of the queue is the head of the list.
    The mutex serialises the operations; each one is a single atomic
    transformation of the contents. *)
Definition queue := list T.

Definition empty_queue : queue := [].

(** [bool push(const Q&)] / [bool push(Q&&)] *)
Definition push (xi_element : T) (q : queue) : queue * bool :=
  (q ++ [xi_element], true).

(** [bool pop(Q& xo_element)]: the out-parameter is threaded through; it is
    left untouched when the queue is empty. *)
Definition pop (q : queue) (xo_element : T) : queue * T * bool :=
  match q with
  | [] => (q, xo_element, false)
  | front :: q' => (q', front, true)
  end.

Definition empty (q : queue) : bool :=
  match q with [] => true | _ => false end.

(** Sequential clients: push a batch, pop until the queue reports empty. *)
Definition push_all (xs : list T) (q : queue) : queue :=
  foldl (fun acc x => fst (push x acc)) q xs.

Fixpoint drain (fuel : nat) (q : queue) (xo : T) : list T * queue :=
  match fuel with
  | O => ([], q)
  | S fuel' =>
      match pop q xo with
      | (q', x, true) => let '(out, q'') := drain fuel' q' x in (x :: out, q'')
      | (q', _, false) => ([], q')
      end
  end.
End Defs.
Arguments queue : clear implicits.
End Queue.

(** ** TaskNode.h *)

(** Node pointers, as positions in [mNodes]. *)
Abbreviation handle := nat (only parsing).

Inductive Outcome (A : Type) :=
| Done (a : A)
| Throw (what : string).
Arguments Done {A} a.
Arguments Throw {A} what.

Section Model.
(** [W] is the state shared with the callables through their captures (the
    library itself never reads it); [V] is the type of task results. *)
Context {W V : Type}.

(** The callable together with the compile-time case split of
    [TaskNode::execute] on [ReturnType]. *)
Inductive Callable :=
| VoidTask (f : W -> W)            (* std::is_void_v<ReturnType> *)
| CopyTask (f : W -> W * V)        (* copy-constructible ReturnType *)
| MoveTask (f : W -> W * V).       (* ReturnType that can only be moved *)

Record TaskNode := mkTaskNode {
  mName : string;
  mTask : Callable;
  nArgs : nat;                          (* tuple_size<tuple<Args...>> *)
  mResult : option V;                   (* std::optional<ResultStorage> *)
  mPendingCount : Z;                    (* std::atomic<size_t> *)
  mParentCount : Z;                     (* size_t *)
  mDescendantTasks : list (V -> W -> W);  (* vector<SubscribeCallback> *)
  mDescendantArguments : list handle;   (* bound onArgumentReady of a node *)
  mDescendants : list handle            (* BaseTaskNode::mDescendants *)
}.

Definition set_mResult (r : option V) (nd : TaskNode) : TaskNode :=
  mkTaskNode (mName nd) (mTask nd) (nArgs nd) r (mPendingCount nd)
    (mParentCount nd) (mDescendantTasks nd) (mDescendantArguments nd)
    (mDescendants nd).

Definition set_mPendingCount (c : Z) (nd : TaskNode) : TaskNode :=
  mkTaskNode (mName nd) (mTask nd) (nArgs nd) (mResult nd) c
    (mParentCount nd) (mDescendantTasks nd) (mDescendantArguments nd)
    (mDescendants nd).

(** The constructor with the default member initialisers. *)
Definition new_node (xi_task : Callable) (arity : nat) (xi_name : string)
  : TaskNode :=
  mkTaskNode xi_name xi_task arity None
    (size_wrap (Z.of_nat arity)) (size_wrap (Z.of_nat arity)) [] [] [].

Definition getPendingCount (nd : TaskNode) : Z := mPendingCount nd.

(** [reset()] *)
Definition reset_node (nd : TaskNode) : TaskNode :=
  set_mPendingCount (mParentCount nd) (set_mResult None nd).

(** [updateParentCount()] *)
Definition updateParentCount (nd : TaskNode) : TaskNode :=
  mkTaskNode (mName nd) (mTask nd) (nArgs nd) (mResult nd)
    (pre_incr (mPendingCount nd)) (pre_incr (mParentCount nd))
    (mDescendantTasks nd) (mDescendantArguments nd) (mDescendants nd).

(** [addChild(descendant)] *)
Definition addChild (descendant : handle) (nd : TaskNode) : TaskNode :=
  mkTaskNode (mName nd) (mTask nd) (nArgs nd) (mResult nd)
    (mPendingCount nd) (mParentCount nd) (mDescendantTasks nd)
    (mDescendantArguments nd ++ [descendant]) (mDescendants nd).

(** [mDescendants.emplace_back(node)] *)
Definition emplace_descendant (d : handle) (nd : TaskNode) : TaskNode :=
  mkTaskNode (mName nd) (mTask nd) (nArgs nd) (mResult nd)
    (mPendingCount nd) (mParentCount nd) (mDescendantTasks nd)
    (mDescendantArguments nd) (mDescendants nd ++ [d]).

Definition logic_error_fanout : string :=
  "cant have more than 1 descendant process for  anon-copyable object".
Definition logic_error_no_result : string := "node has no result.".

(** [execute()] up to, and excluding, the loop over
    [mDescendantArguments]: the call of the task and the hand-over of its
    result to the result consumers. *)
Definition execute_task (nd : TaskNode) (w : W) : Outcome (TaskNode * W) :=
  match mTask nd with
  | VoidTask f => Done (nd, f w)
  | MoveTask f =>
      if decide (1 < length (mDescendantTasks nd)) then
        Throw logic_error_fanout
      else
        let '(w1, v) := f w in
        match mDescendantTasks nd with
        | consumer :: _ => Done (set_mResult None nd, consumer v w1)
        | [] => Done (set_mResult (Some v) nd, w1)
        end
  | CopyTask f =>
      let '(w1, v) := f w in
      Done (set_mResult (Some v) nd,
            foldl (fun acc consumer => consumer v acc) w1 (mDescendantTasks nd))
  end.

(** [getValue()].  [moved] is what the move constructor of [ReturnType]
    leaves behind in its source: [std::move(mResult.value())] empties the
    stored object, not the optional around it. *)
Definition getValue (moved : V -> V) (nd : TaskNode) : Outcome V * TaskNode :=
  match mResult nd with
  | None => (Throw logic_error_no_result, nd)
  | Some v =>
      match mTask nd with
      | MoveTask _ => (Done v, set_mResult (Some (moved v)) nd)
      | _ => (Done v, nd)
      end
  end.

(** The life of a node: what [reset], [execute] and [getValue] make of it. *)
Inductive node_life (nd0 : TaskNode) : TaskNode -> Prop :=
| life_start : node_life nd0 nd0
| life_reset nd : node_life nd0 nd -> node_life nd0 (reset_node nd)
| life_execute nd w nd' w' :
    node_life nd0 nd -> execute_task nd w = Done (nd', w') -> node_life nd0 nd'
| life_getValue moved nd :
    node_life nd0 nd -> node_life nd0 (snd (getValue moved nd)).

(** ** ThreadPool.h, as far as the graph uses it

    A queued thunk is [std::bind(&BaseTaskNode::execute, node)], recorded
    as the node.  A worker thread is either waiting for a thunk or inside
    [TaskNode::execute] of a node; the phases are the points of that
    function at which another thread can interleave. *)
Inductive Phase :=
| PTask                                     (* before the task is called *)
| PNotify (rest : list handle)              (* in the loop over mDescendantArguments *)
| PSubmit (child : handle) (rest : list handle).
    (* inside a child's onArgumentReady, after the decrement gave zero and
       before executeSingleNode *)

Inductive Worker :=
| Idle
| Busy (n : handle) (ph : Phase).

Record ThreadPool := mkThreadPool {
  mQueue : Queue.queue handle;
  mThreads : list Worker
}.

(** [ThreadPool::push]: enqueue the thunk. *)
Definition pool_push (n : handle) (p : ThreadPool) : ThreadPool :=
  mkThreadPool (fst (Queue.push n (mQueue p))) (mThreads p).

(** [ThreadPool(xi_count)] *)
Definition new_pool (xi_count : nat) : ThreadPool :=
  mkThreadPool Queue.empty_queue (replicate xi_count Idle).

(** ** TaskGraph.h *)

Record TaskGraph := mkTaskGraph {
  mPool : ThreadPool;
  mNodes : list TaskNode;
  mCompletedTasks : Z
}.

Definition new_graph (xi_count : nat) : TaskGraph :=
  mkTaskGraph (new_pool xi_count) [] 0.

Definition set_mNodes (ns : list TaskNode) (g : TaskGraph) : TaskGraph :=
  mkTaskGraph (mPool g) ns (mCompletedTasks g).
Definition set_mPool (p : ThreadPool) (g : TaskGraph) : TaskGraph :=
  mkTaskGraph p (mNodes g) (mCompletedTasks g).
Definition set_mThreads (ws : list Worker) (g : TaskGraph) : TaskGraph :=
  set_mPool (mkThreadPool (mQueue (mPool g)) ws) g.
Definition set_mCompletedTasks (c : Z) (g : TaskGraph) : TaskGraph :=
  mkTaskGraph (mPool g) (mNodes g) c.

(** [makeTaskNode]: the three overloads differ in the callable's type
    only.  Returns the graph and the handle of the new node. *)
Definition makeTaskNode (xi_task : Callable) (arity : nat) (xi_name : string)
    (g : TaskGraph) : TaskGraph * handle :=
  (set_mNodes (mNodes g ++ [new_node xi_task arity xi_name]) g,
   length (mNodes g)).

(** [this_->setParent(parent)].  Both handles must denote nodes of the
    graph, as handles returned by [makeTaskNode] do; [None] stands for a
    call through a dangling pointer. *)
Definition setParent (this_ xi_parent : handle) (g : TaskGraph)
  : option TaskGraph :=
  if decide (this_ < length (mNodes g) /\ xi_parent < length (mNodes g)) then
    let ns1 := alter updateParentCount this_ (mNodes g) in
    let ns2 := alter (addChild this_) xi_parent ns1 in
    let ns3 := alter (emplace_descendant this_) xi_parent ns2 in
    Some (set_mNodes ns3 g)
  else None.

(** *** hasCycle *)

(** [currentNode->mDescendants] *)
Definition descendants (g : TaskGraph) (n : handle) : list handle :=
  match mNodes g !! n with
  | Some nd => mDescendants nd
  | None => []
  end.

(** The body of the loop of the lambda [DFS], for the descendants still to
    be looked at; [dfs] is the recursive call.  [col] is the map captured by
    reference, so it is passed in and returned. *)
Fixpoint visit (dfs : handle -> gmap handle bool -> option (bool * gmap handle bool))
    (currentNode : handle) (todo : list handle) (col : gmap handle bool)
  : option (bool * gmap handle bool) :=
  match todo with
  | [] => Some (false, <[currentNode := false]> col)
  | nextNode :: todo' =>
      match col !! nextNode with
      | None =>
          match dfs nextNode col with
          | None => None
          | Some (true, col') => Some (true, col')
          | Some (false, col') => visit dfs currentNode todo' col'
          end
      | Some true => Some (true, col)
      | Some false => visit dfs currentNode todo' col
      end
  end.

(** The recursion of [DFS] is not structural; [fuel] bounds its depth and
    [None] means that the bound was hit. *)
Fixpoint DFS (fuel : nat) (g : TaskGraph) (currentNode : handle)
    (col : gmap handle bool) : option (bool * gmap handle bool) :=
  match fuel with
  | O => None
  | S fuel' =>
      visit (DFS fuel' g) currentNode (descendants g currentNode)
        (<[currentNode := true]> col)
  end.

(** The loop over [mNodes], with [col.clear()] before each root. *)
Fixpoint hasCycle_roots (fuel : nat) (g : TaskGraph) (roots : list handle)
  : option bool :=
  match roots with
  | [] => Some false
  | node :: roots' =>
      match DFS fuel g node ∅ with
      | None => None
      | Some (true, _) => Some true
      | Some (false, _) => hasCycle_roots fuel g roots'
      end
  end.

(** Every node the search can meet: the nodes of the graph and everything
    some descendant list mentions. *)
Definition universe (g : TaskGraph) : gset handle :=
  list_to_set (seq 0 (length (mNodes g)) ++ concat (map mDescendants (mNodes g))).

Definition hasCycle (g : TaskGraph) : option bool :=
  hasCycle_roots (S (size (universe g))) g (seq 0 (length (mNodes g))).

(** The graph that [hasCycle] is about: an edge from a node to each of its
    descendants; a cycle that can be reached from a node of the graph. *)
Definition edge (g : TaskGraph) (a b : handle) : Prop := b ∈ descendants g a.

Definition reachable_cycle (g : TaskGraph) : Prop :=
  exists r c, r < length (mNodes g) /\ rtc (edge g) r c /\ tc (edge g) c c.

(** What [setParent] does to the node at position [c]. *)
Definition wire (this_ xi_parent c : nat) (nd : TaskNode) : TaskNode :=
  let nd1 := if decide (this_ = c) then updateParentCount nd else nd in
  if decide (xi_parent = c) then emplace_descendant this_ (addChild this_ nd1)
  else nd1.

(** *** The marking of [hasCycle], read as colours *)

(** Nodes marked [false] are finished: their descendants are finished and
    they lie on no cycle. *)
Definition finished_ok (g : TaskGraph) (col : gmap handle bool) : Prop :=
  forall x, col !! x = Some false ->
    (forall y, edge g x y -> col !! y = Some false) /\ ~ tc (edge g) x x.

(** Nodes marked [true] are on the stack: they reach the current node. *)
Definition stack_reaches (g : TaskGraph) (col : gmap handle bool) (cur : handle) : Prop :=
  forall x, col !! x = Some true -> rtc (edge g) x cur.

Definition found_cycle (g : TaskGraph) (cur : handle) : Prop :=
  exists c, rtc (edge g) cur c /\ tc (edge g) c c.

Definition dfs_ok (g : TaskGraph)
    (dfs : handle -> gmap handle bool -> option (bool * gmap handle bool)) : Prop :=
  forall cur col b col',
    dfs cur col = Some (b, col') ->
    col !! cur = None -> stack_reaches g col cur -> finished_ok g col ->
    if b then found_cycle g cur
    else col' !! cur = Some false /\
         (forall x v, col !! x = Some v -> col' !! x = Some v) /\
         (forall x, col' !! x = Some true -> col !! x = Some true) /\
         finished_ok g col'.

Definition grows (dfs : handle -> gmap handle bool -> option (bool * gmap handle bool)) : Prop :=
  forall cur col b col', dfs cur col = Some (b, col') -> dom col ⊆ dom col'.

(** *** reset *)
Definition reset (g : TaskGraph) : TaskGraph :=
  set_mCompletedTasks 0 (set_mNodes (map reset_node (mNodes g)) g).

(** *** execute *)

(** The first loop of [execute]: the nodes whose pending count is zero, in
    the order of [mNodes]; [i] is the position of the head of [nodes]. *)
Fixpoint scan_ready (i : handle) (nodes : list TaskNode) : list handle :=
  match nodes with
  | [] => []
  | nd :: nodes' =>
      if decide (getPendingCount nd = 0%Z) then i :: scan_ready (S i) nodes'
      else scan_ready (S i) nodes'
  end.

Definition initialNodes (g : TaskGraph) : list handle :=
  scan_ready 0 (mNodes g).

(** The thread that called [execute]: pushing the initial nodes, then
    waiting on the condition variable ([CPush []]), then back in the
    caller. *)
Inductive Caller :=
| CPush (initial : list handle)
| CReturned.

Record Sys := mkSys {
  graph : TaskGraph;
  caller : Caller;
  world : W
}.

(** What a step does, as seen from outside. *)
Inductive Event :=
| ESubmit (n : handle)              (* a thunk for n is pushed to the pool *)
| EStart (n : handle)               (* a worker popped the thunk of n *)
| ETask (n : handle)                (* the task of n ran *)
| EThrow (n : handle)               (* execute of n threw *)
| ENotify (p c : handle) (v : Z)    (* p called onArgumentReady of c, the
                                       decrement gave v *)
| EComplete (n : handle)            (* onSingleNodeCompleted from n *)
| EReturn.                          (* execute returned to its caller *)

(** Who moves: the caller of [execute] or worker number [w]. *)
Inductive Label :=
| LCallerPush
| LCallerReturn
| LPop (w : nat)
| LRun (w : nat)
| LNotify (w : nat)
| LSubmit (w : nat)
| LComplete (w : nat).

Definition set_worker (w : nat) (x : Worker) (g : TaskGraph) : TaskGraph :=
  set_mThreads (<[w := x]> (mThreads (mPool g))) g.

Definition step (l : Label) (s : Sys) : option (Event * Sys) :=
  let g := graph s in
  match l with
  | LCallerPush =>
      (* mPool.push(std::bind(&BaseTaskNode::execute, initialNode)) *)
      match caller s with
      | CPush (n :: rest) =>
          Some (ESubmit n,
                mkSys (set_mPool (pool_push n (mPool g)) g) (CPush rest) (world s))
      | _ => None
      end
  | LCallerReturn =>
      (* the wait predicate mCompletedTasks == mNodes.size() holds *)
      match caller s with
      | CPush [] =>
          if decide (mCompletedTasks g = Z.of_nat (length (mNodes g))) then
            Some (EReturn, mkSys g CReturned (world s))
          else None
      | _ => None
      end
  | LPop w =>
      (* isPop = mQueue.pop(task) in the worker loop; task is not initialised
         there, 0 stands for whatever it holds *)
      match mThreads (mPool g) !! w with
      | Some Idle =>
          match Queue.pop (mQueue (mPool g)) 0 with
          | (q', n, true) =>
              Some (EStart n,
                    mkSys (set_mPool (mkThreadPool q' (<[w := Busy n PTask]> (mThreads (mPool g)))) g)
                      (caller s) (world s))
          | (_, _, false) => None
          end
      | _ => None
      end
  | LRun w =>
      match mThreads (mPool g) !! w with
      | Some (Busy n PTask) =>
          match mNodes g !! n with
          | Some nd =>
              match execute_task nd (world s) with
              | Done (nd', w') =>
                  Some (ETask n,
                        mkSys (set_worker w (Busy n (PNotify (mDescendantArguments nd')))
                                 (set_mNodes (<[n := nd']> (mNodes g)) g))
                          (caller s) w')
              | Throw _ =>
                  (* the exception ends up in the packaged task's future;
                     the worker goes on with its loop *)
                  Some (EThrow n, mkSys (set_worker w Idle g) (caller s) (world s))
              end
          | None => None
          end
      | _ => None
      end
  | LNotify w =>
      (* childTask(): if (--mPendingCount == 0) in the child *)
      match mThreads (mPool g) !! w with
      | Some (Busy n (PNotify (c :: rest))) =>
          match mNodes g !! c with
          | Some cd =>
              let v := pre_decr (mPendingCount cd) in
              Some (ENotify n c v,
                    mkSys (set_worker w
                             (Busy n (if decide (v = 0%Z) then PSubmit c rest
                                      else PNotify rest))
                             (set_mNodes (<[c := set_mPendingCount v cd]> (mNodes g)) g))
                      (caller s) (world s))
          | None => None
          end
      | _ => None
      end
  | LSubmit w =>
      (* mGraph->executeSingleNode(this) in the child *)
      match mThreads (mPool g) !! w with
      | Some (Busy n (PSubmit c rest)) =>
          Some (ESubmit c,
                mkSys (set_worker w (Busy n (PNotify rest))
                         (set_mPool (pool_push c (mPool g)) g))
                  (caller s) (world s))
      | _ => None
      end
  | LComplete w =>
      (* mGraph->onSingleNodeCompleted() *)
      match mThreads (mPool g) !! w with
      | Some (Busy n (PNotify [])) =>
          Some (EComplete n,
                mkSys (set_worker w Idle
                         (set_mCompletedTasks (pre_incr (mCompletedTasks g)) g))
                  (caller s) (world s))
      | _ => None
      end
  end.

(** [execute()] on entry: the initial nodes have been collected (no worker
    is active yet, the queue being empty), nothing is pushed so far. *)
Definition execute_begin (g : TaskGraph) (w : W) : Sys :=
  mkSys g (CPush (initialNodes g)) w.

(** The executions from [s0], with the events in the order they happened. *)
Inductive run (s0 : Sys) : list Event -> Sys -> Prop :=
| run_nil : run s0 [] s0
| run_snoc tr s l ev s' :
    run s0 tr s -> step l s = Some (ev, s') -> run s0 (tr ++ [ev]) s'.

(** *** Reading an execution

    What a trace says about each node, and the bookkeeping the properties of
    [execute] are stated with. *)

Definition submitted (tr : list Event) : list handle :=
  omap (fun e => match e with ESubmit n => Some n | _ => None end) tr.
Definition started (tr : list Event) : list handle :=
  omap (fun e => match e with EStart n => Some n | _ => None end) tr.
Definition ran (tr : list Event) : list handle :=
  omap (fun e => match e with ETask n => Some n | _ => None end) tr.
Definition completed (tr : list Event) : list handle :=
  omap (fun e => match e with EComplete n => Some n | _ => None end) tr.
(** Nodes whose [execute] is over, normally or by an exception. *)
Definition finished (tr : list Event) : list handle :=
  omap (fun e => match e with EComplete n | EThrow n => Some n | _ => None end) tr.
(** The children [p] has notified so far, in order. *)
Definition fired (p : handle) (tr : list Event) : list handle :=
  omap (fun e => match e with
                 | ENotify p' c _ => if decide (p' = p) then Some c else None
                 | _ => None
                 end) tr.
(** The targets of all notifications, and those whose decrement gave zero. *)
Definition targets (tr : list Event) : list handle :=
  omap (fun e => match e with ENotify _ c _ => Some c | _ => None end) tr.
Definition zero_seen (tr : list Event) : list handle :=
  omap (fun e => match e with
                 | ENotify _ c v => if decide (v = 0%Z) then Some c else None
                 | _ => None
                 end) tr.

(** Nodes whose task was called, or would have been but for the fan-out
    check, in that order. *)
Definition attempted (tr : list Event) : list handle :=
  omap (fun e => match e with ETask n | EThrow n => Some n | _ => None end) tr.

Definition count (c : handle) (l : list handle) : nat := count_occ Nat.eq_dec l c.

Definition notified (c : handle) (tr : list Event) : nat := count c (targets tr).

Fixpoint sum_upto (f : nat -> nat) (n : nat) : nat :=
  match n with
  | O => O
  | S k => sum_upto f k + f k
  end.

(** The completion callbacks registered on [p], as the nodes they belong to. *)
Definition children (g : TaskGraph) (p : handle) : list handle :=
  match mNodes g !! p with
  | Some nd => mDescendantArguments nd
  | None => []
  end.

(** How often [setParent] was called on [c], over all parents. *)
Definition indegree (g : TaskGraph) (c : handle) : nat :=
  sum_upto (fun p => count c (children g p)) (length (mNodes g)).

(** The notifications of [c] that are still to come if every parent runs
    once: per parent, the callbacks behind those it has fired. *)
Definition remaining (g : TaskGraph) (tr : list Event) (c : handle) : nat :=
  sum_upto (fun p => count c (drop (length (fired p tr)) (children g p)))
    (length (mNodes g)).

(** A graph as [makeTaskNode] and [setParent] build it: the parent count of a
    node is its arity plus its registrations, callbacks belong to nodes of
    the graph, and the [size_t] values are what they count. *)
Record wired (g : TaskGraph) : Prop := mkWired {
  wired_count : forall c nd, mNodes g !! c = Some nd ->
    mParentCount nd = Z.of_nat (nArgs nd + indegree g c) /\
    (mParentCount nd < 2 ^ 64)%Z;
  wired_children : forall p c, c ∈ children g p -> c < length (mNodes g);
  wired_size : (Z.of_nat (length (mNodes g)) < 2 ^ 64)%Z
}.

(** A graph on which [execute] may be called: wired, never executed or
    reset since, and with a pool at rest. *)
Record armed (g : TaskGraph) : Prop := mkArmed {
  armed_wired : wired g;
  armed_pending : forall c nd, mNodes g !! c = Some nd ->
    mPendingCount nd = mParentCount nd;
  armed_completed : mCompletedTasks g = 0%Z;
  armed_queue : mQueue (mPool g) = [];
  armed_idle : forall w x, mThreads (mPool g) !! w = Some x -> x = Idle
}.

(** A node without the two fields that [execute] writes. *)
Definition static_part (nd : TaskNode) : TaskNode :=
  set_mPendingCount 0 (set_mResult None nd).

Definition pending (s : Sys) (c : handle) : option Z :=
  mPendingCount <$> mNodes (graph s) !! c.

Definition threads (s : Sys) : list Worker := mThreads (mPool (graph s)).

Definition phase_ok (g0 : TaskGraph) (tr : list Event) (p : handle) (ph : Phase)
  : Prop :=
  match ph with
  | PTask => fired p tr = [] /\ p ∉ ran tr
  | PNotify rest =>
      rest = drop (length (fired p tr)) (children g0 p) /\ p ∈ ran tr
  | PSubmit c rest =>
      rest = drop (length (fired p tr)) (children g0 p) /\ p ∈ ran tr /\
      c ∈ zero_seen tr
  end.

(** What holds of every state of an execution of [g0] and of the trace that
    led to it. *)
Record Inv (g0 : TaskGraph) (tr : list Event) (s : Sys) : Prop := mkInv {
  inv_static : static_part <$> mNodes (graph s) = static_part <$> mNodes g0;
  inv_pending : forall c nd, mNodes (graph s) !! c = Some nd ->
    mPendingCount nd = Z.of_nat (nArgs nd + remaining g0 tr c);
  inv_notified : forall c, remaining g0 tr c + notified c tr = indegree g0 c;
  inv_queue : submitted tr = started tr ++ mQueue (mPool (graph s));
  inv_submitted : NoDup (submitted tr);
  inv_submitted_zero : forall c, c ∈ submitted tr ->
    pending s c = Some 0%Z /\ (c ∈ initialNodes g0 \/ c ∈ zero_seen tr);
  inv_zero : NoDup (zero_seen tr);
  inv_zero_pending : forall c, c ∈ zero_seen tr -> pending s c = Some 0%Z;
  inv_caller : forall l, caller s = CPush l ->
    NoDup l /\
    forall c, c ∈ l ->
      (c ∉ submitted tr) /\ pending s c = Some 0%Z /\ c ∈ initialNodes g0;
  inv_psubmit : forall w p c rest,
    threads s !! w = Some (Busy p (PSubmit c rest)) ->
    (c ∉ submitted tr) /\ forall l, caller s = CPush l -> c ∉ l;
  inv_psubmit_uniq : forall w1 w2 p1 p2 c r1 r2,
    threads s !! w1 = Some (Busy p1 (PSubmit c r1)) ->
    threads s !! w2 = Some (Busy p2 (PSubmit c r2)) -> w1 = w2;
  inv_busy : forall w p ph, threads s !! w = Some (Busy p ph) ->
    p ∈ started tr /\ (p ∉ finished tr) /\ phase_ok g0 tr p ph;
  inv_busy_uniq : forall w1 w2 p ph1 ph2,
    threads s !! w1 = Some (Busy p ph1) ->
    threads s !! w2 = Some (Busy p ph2) -> w1 = w2;
  inv_finished : NoDup (finished tr);
  inv_finished_started : forall p, p ∈ finished tr -> p ∈ started tr;
  inv_ran_started : forall p, p ∈ ran tr -> p ∈ started tr;
  inv_unstarted : forall p, p ∉ started tr -> fired p tr = [];
  inv_fired : forall p,
    fired p tr = take (length (fired p tr)) (children g0 p);
  inv_fired_ran : forall p, fired p tr <> [] -> p ∈ ran tr;
  inv_completed : mCompletedTasks (graph s) = Z.of_nat (length (completed tr));
  inv_completed_finished : forall p, p ∈ completed tr -> p ∈ finished tr;
  inv_completed_nodup : NoDup (completed tr);
  inv_returned : caller s = CReturned ->
    length (completed tr) = length (mNodes g0);
  inv_zero_submit : forall c, c ∈ zero_seen tr ->
    c ∈ submitted tr \/
    exists w p rest, threads s !! w = Some (Busy p (PSubmit c rest))
}.

(** The nodes popped by a worker whose task is still to be called. *)
Definition in_task (ws : list Worker) : list handle :=
  omap (fun x => match x with Busy n PTask => Some n | _ => None end) ws.

(** Order of dispatch on a pool with a single worker. *)
Record Order (tr : list Event) (s : Sys) : Prop := mkOrder {
  order_single : length (threads s) = 1;
  order_fifo : submitted tr = started tr ++ mQueue (mPool (graph s));
  order_task : started tr = attempted tr ++ in_task (threads s)
}.

(** *** Replaying a schedule

    [exec] runs the steps named by a list of labels; a schedule is [forced]
    when at each of its points no other step is possible, and none at all at
    its end. *)
Fixpoint exec (ls : list Label) (s : Sys) : option (list Event * Sys) :=
  match ls with
  | [] => Some ([], s)
  | l :: ls' =>
      match step l s with
      | Some (ev, s') =>
          match exec ls' s' with
          | Some (tr, s'') => Some (ev :: tr, s'')
          | None => None
          end
      | None => None
      end
  end.

Definition only (l : Label) (s : Sys) : Prop :=
  forall l' ev s', step l' s = Some (ev, s') -> step l s = Some (ev, s').

Definition stuck (s : Sys) : Prop :=
  forall l' ev s', step l' s <> Some (ev, s').

Fixpoint forced (ls : list Label) (s : Sys) : Prop :=
  match ls with
  | [] => stuck s
  | l :: ls' =>
      only l s /\
      match step l s with
      | Some (_, s') => forced ls' s'
      | None => False
      end
  end.

End Model.

Arguments Callable : clear implicits.
Arguments TaskNode : clear implicits.
Arguments TaskGraph : clear implicits.
Arguments Sys : clear implicits.


(** ** Tests.cpp, Test1 *)

Module Test1.

(** [std::string out{}] is the state the four lambdas capture; void tasks
    have no result, [Z] stands for the placeholder result type. *)
Definition build : option (TaskGraph string Z) :=
  let task_graph := new_graph 1 in
  let '(task_graph, task1) :=
    makeTaskNode (VoidTask (fun _ => "task1->")) 0 "" task_graph in
  let '(task_graph, task2) :=
    makeTaskNode (VoidTask (fun out => out +:+ "task2->")) 0 "" task_graph in
  let '(task_graph, task3) :=
    makeTaskNode (VoidTask (fun out => out +:+ "task3->")) 0 "" task_graph in
  let '(task_graph, task4) :=
    makeTaskNode (VoidTask (fun out => out +:+ "task4")) 0 "" task_graph in
  task_graph ← setParent task2 task1 task_graph;
  task_graph ← setParent task4 task1 task_graph;
  task_graph ← setParent task2 task3 task_graph;
  task_graph ← setParent task4 task3 task_graph;
  setParent task3 task1 task_graph.

Definition task_graph : TaskGraph string Z := default (new_graph 1) build.

(** The handles [makeTaskNode] returned. *)
Definition task1 : nat := 0.
Definition task2 : nat := 1.
Definition task3 : nat := 2.
Definition task4 : nat := 3.

(** [task_graph.execute()] with [out] still empty. *)
Definition start : Sys string Z := execute_begin task_graph "".

(** The only schedule of the run: the caller pushes task1; the worker runs
    task1, notifies task2, task4 and task3 and submits task3; it runs task3,
    notifies and submits task2 and task4; it runs task2, then task4; the
    caller returns. *)
Definition schedule : list Label :=
  [ LCallerPush;
    LPop 0; LRun 0; LNotify 0; LNotify 0; LNotify 0; LSubmit 0; LComplete 0;
    LPop 0; LRun 0; LNotify 0; LSubmit 0; LNotify 0; LSubmit 0; LComplete 0;
    LPop 0; LRun 0; LComplete 0;
    LPop 0; LRun 0; LComplete 0;
    LCallerReturn ].

(** What happens under that schedule. *)
Definition trace : list Event :=
  [ESubmit 0; EStart 0; ETask 0; ENotify 0 1 1; ENotify 0 3 1; ENotify 0 2 0;
   ESubmit 2; EComplete 0; EStart 2; ETask 2; ENotify 2 1 0; ESubmit 1;
   ENotify 2 3 0; ESubmit 3; EComplete 2; EStart 1; ETask 1; EComplete 1;
   EStart 3; ETask 3; EComplete 3; EReturn].

End Test1.

(** ** A node that waits for an argument

    Node [b] has a callable of one argument and node [a] as its parent. *)

Module Unary.

Definition build : option (TaskGraph nat Z) :=
  let task_graph := new_graph 1 in
  let '(task_graph, a) := makeTaskNode (VoidTask S) 0 "a" task_graph in
  let '(task_graph, b) := makeTaskNode (VoidTask S) 1 "b" task_graph in
  setParent b a task_graph.

Definition task_graph : TaskGraph nat Z := default (new_graph 1) build.

Definition start : Sys nat Z := execute_begin task_graph 0.

(** [a] runs and notifies [b]; then nothing can move. *)
Definition schedule : list Label :=
  [LCallerPush; LPop 0; LRun 0; LNotify 0; LComplete 0].

Definition trace : list Event :=
  [ESubmit 0; EStart 0; ETask 0; ENotify 0 1 1; EComplete 0].

End Unary.

(** ** A node with a move-only result

    The result is modelled on [std::unique_ptr<int>]: [Some n] owns [n],
    [None] is the null pointer a move leaves behind. *)

Module MoveOnly.

Definition moved (v : option nat) : option nat := None.

Definition node (consumers : list (option nat -> unit -> unit))
  : TaskNode unit (option nat) :=
  mkTaskNode "" (MoveTask (fun w => (w, Some 13))) 0 None 0 0 consumers [] [].

Definition consumer (v : option nat) (w : unit) : unit := w.

(** The node after [execute] when nobody consumes the result. *)
Definition executed : TaskNode unit (option nat) :=
  match execute_task (node []) tt with
  | Done (nd, _) => nd
  | Throw _ => node []
  end.

End MoveOnly.

(** ** More vocabulary for executions *)

Section Model2.
Context {W V : Type}.

(** Nodes whose [execute] threw, and the returns of [TaskGraph::execute]. *)
Definition thrown (tr : list Event) : list handle :=
  omap (fun e => match e with EThrow n => Some n | _ => None end) tr.
Definition returns (tr : list Event) : list unit :=
  omap (fun e => match e with EReturn => Some tt | _ => None end) tr.

(** [p] notifies [c] when it completes: [c] called [setParent] on [p]. *)
Definition child (g : TaskGraph W V) (p c : handle) : Prop := c ∈ children g p.

(** [c] waits, directly or not, for a node that waits for itself. *)
Definition blocked (g : TaskGraph W V) (c : handle) : Prop :=
  exists x, tc (child g) x x /\ rtc (child g) x c.

(** [setParent] appends to both lists of the parent: the list [hasCycle]
    walks is the list of nodes that [execute] notifies. *)
Definition synced (g : TaskGraph W V) : Prop :=
  forall c nd, mNodes g !! c = Some nd -> mDescendants nd = mDescendantArguments nd.

(** No node has a result consumer; no result is stored. *)
Definition plain (g : TaskGraph W V) : Prop :=
  forall c nd, mNodes g !! c = Some nd -> mDescendantTasks nd = [].
Definition fresh (g : TaskGraph W V) : Prop :=
  forall c nd, mNodes g !! c = Some nd -> mResult nd = None.

(** The case in which [TaskNode::execute] throws. *)
Definition can_throw (nd : TaskNode W V) : Prop :=
  match mTask nd with
  | MoveTask _ => 1 < length (mDescendantTasks nd)
  | _ => False
  end.

(** Some thread can take a step. *)
Definition enabled (s : Sys W V) : Prop :=
  exists l ev s', step l s = Some (ev, s').

(** All [setParent] registrations of the graph. *)
Definition registrations (g : TaskGraph W V) : nat :=
  sum_upto (indegree g) (length (mNodes g)).

(** What the result slot of a node holds once its task has run. *)
Definition stored (nd0 : TaskNode W V) (r : option V) : Prop :=
  match mTask nd0 with
  | VoidTask _ => r = mResult nd0
  | CopyTask f => exists w, r = Some (snd (f w))
  | MoveTask f =>
      match mDescendantTasks nd0 with
      | [] => exists w, r = Some (snd (f w))
      | _ :: _ => r = None
      end
  end.






(** More of what holds in every state of an execution of [g0]: the facts
    about progress, about the events that can still come, and about the
    result slots. *)
Record Live (g0 : TaskGraph W V) (tr : list Event) (s : Sys W V) : Prop := mkLive {
  live_threads : length (threads s) = length (mThreads (mPool g0));
  live_started : forall p, p ∈ started tr ->
    p ∈ finished tr \/ exists w ph, threads s !! w = Some (Busy p ph);
  live_initial : forall c, c ∈ initialNodes g0 ->
    c ∈ submitted tr \/ exists l, caller s = CPush l /\ c ∈ l;
  live_zero : forall c, pending s c = Some 0%Z ->
    c ∈ initialNodes g0 \/ c ∈ zero_seen tr;
  live_completed : forall p, p ∈ completed tr ->
    fired p tr = children g0 p /\ p ∈ ran tr;
  live_ran : NoDup (ran tr);
  live_ran_ok : forall p, p ∈ ran tr ->
    exists nd0, mNodes g0 !! p = Some nd0 /\ ~ can_throw nd0;
  live_thrown : forall p, p ∈ thrown tr ->
    exists nd0, mNodes g0 !! p = Some nd0 /\ can_throw nd0;
  live_returns : length (returns tr)
                 = match caller s with CReturned => 1 | CPush _ => 0 end;
  live_results : forall n nd0 nd,
    mNodes g0 !! n = Some nd0 -> mNodes (graph s) !! n = Some nd ->
    (n ∈ ran tr -> stored nd0 (mResult nd)) /\
    (n ∉ ran tr -> mResult nd = mResult nd0)
}.

End Model2.

Arguments Live {W V} g0 tr s.

(** ** Building a graph

    A client builds a graph by a sequence of [makeTaskNode] and
    [setParent] calls on a new [TaskGraph]. *)

Section Building.
Context {W V : Type}.

Inductive BuildOp :=
| OpMake (xi_task : Callable W V) (arity : nat) (xi_name : string)
| OpParent (this_ xi_parent : handle).

Definition build_step (g : TaskGraph W V) (op : BuildOp) : option (TaskGraph W V) :=
  match op with
  | OpMake t arity name => Some (fst (makeTaskNode t arity name g))
  | OpParent this_ xi_parent => setParent this_ xi_parent g
  end.

Fixpoint build_graph (ops : list BuildOp) (g : TaskGraph W V)
  : option (TaskGraph W V) :=
  match ops with
  | [] => Some g
  | op :: ops' =>
      match build_step g op with
      | Some g' => build_graph ops' g'
      | None => None
      end
  end.

(** What a call can add to a counter of the graph: a node with its
    arguments, or one registration. *)
Definition op_weight (op : BuildOp) : nat :=
  match op with
  | OpMake _ arity _ => S arity
  | OpParent _ _ => 1
  end.

Definition build_weight (ops : list BuildOp) : nat :=
  foldr (fun op acc => op_weight op + acc) 0 ops.

(** The number of [makeTaskNode] calls. *)
Definition makes (ops : list BuildOp) : nat :=
  foldr (fun op acc => match op with OpMake _ _ _ => S acc | _ => acc end) 0 ops.

(** The counters of [g] are bounded by [m]. *)
Definition within (m : nat) (g : TaskGraph W V) : Prop :=
  length (mNodes g) <= m /\
  forall c nd, mNodes g !! c = Some nd -> (mParentCount nd <= Z.of_nat m)%Z.

(** What the building calls keep true of a graph. *)
Definition built (m : nat) (g : TaskGraph W V) : Prop :=
  armed g /\ synced g /\ plain g /\ fresh g /\ within m g.

End Building.

Arguments BuildOp : clear implicits.

(** ** Queue.h under concurrent use

    The mutex makes every [push] and [pop] atomic, so what several threads
    do to a queue is a sequence of calls, in the order in which they took
    the lock. *)

Module QueueOps.
Section Defs.
Context {T : Type}.

Inductive Call :=
| Push (xi_element : T)
| Pop.

(** The calls applied in order; for every [Pop] the element it delivered,
    or [None] when it returned [false]. *)
Fixpoint apply (calls : list Call) (q : Queue.queue T) (xo : T)
  : list (option T) * Queue.queue T :=
  match calls with
  | [] => ([], q)
  | Push x :: calls' => apply calls' (fst (Queue.push x q)) xo
  | Pop :: calls' =>
      match Queue.pop q xo with
      | (q', x, true) =>
          let '(out, q'') := apply calls' q' x in (Some x :: out, q'')
      | (q', x, false) =>
          let '(out, q'') := apply calls' q' x in (None :: out, q'')
      end
  end.

Definition pushed (calls : list Call) : list T :=
  omap (fun c => match c with Push x => Some x | Pop => None end) calls.

Definition delivered (out : list (option T)) : list T := omap id out.

End Defs.
Arguments Call : clear implicits.
End QueueOps.

(** ** ThreadPool.h: the size of the pool

    [resize] works on the two vectors [mThreads] and [mFlags] and on the two
    flags [mStop] and [mDone].  A flag is shared with the thread it belongs
    to, which reads it after every task and whenever it is woken up; a
    thread that is detached goes on until it reads its flag.  [signalled]
    lists the threads whose flag was set and that were detached, latest
    first.  The vectors hold fewer than [2^64] elements. *)

Module Control.

Record Pool := mkPool {
  mThreads : list nat;        (* the thread of each slot, by its number *)
  mFlags : list bool;         (* *mFlags[i] *)
  mStop : bool;
  mDone : bool;
  signalled : list nat;
  spawned : nat               (* threads created so far *)
}.

Inductive Result :=
| Ok (p : Pool)
| OutOfRange (i : Z) (p : Pool)   (* mFlags[i] with i >= mFlags.size() *)
| OutOfFuel.

(** [ThreadPool()]: no thread, both flags down. *)
Definition new : Pool := mkPool [] [] false false [] 0.

(** The first loop of [resize]: slot [i] gets a flag that is down and a new
    thread ([set_thread]). *)
Fixpoint grow (n : nat) (p : Pool) : Pool :=
  match n with
  | O => p
  | S n' =>
      grow n' (mkPool (mThreads p ++ [spawned p]) (mFlags p ++ [false])
                 (mStop p) (mDone p) (signalled p) (S (spawned p)))
  end.

(** The second loop: [for (size_t i{prevCount - 1}; i >= xi_count; --i)],
    with [i] a [size_t]; [fuel] bounds the number of iterations. *)
Fixpoint shrink (fuel : nat) (i xi_count : Z) (p : Pool) : Result :=
  match fuel with
  | O => OutOfFuel
  | S fuel' =>
      if decide (xi_count <= i)%Z then
        match mFlags p !! Z.to_nat i, mThreads p !! Z.to_nat i with
        | Some _, Some t =>
            (* *mFlags[i] = true; mThreads[i]->detach(); *)
            shrink fuel' (pre_decr i) xi_count
              (mkPool (mThreads p) (<[Z.to_nat i := true]> (mFlags p))
                 (mStop p) (mDone p) (t :: signalled p) (spawned p))
        | _, _ => OutOfRange i p
        end
      else Ok p
  end.

Definition truncate (xi_count : nat) (p : Pool) : Pool :=
  mkPool (take xi_count (mThreads p)) (take xi_count (mFlags p))
    (mStop p) (mDone p) (signalled p) (spawned p).

(** [resize(xi_count)] *)
Definition resize (xi_count : nat) (p : Pool) : Result :=
  if mStop p || mDone p then Ok p
  else
    let prevCount := length (mThreads p) in
    if decide (prevCount <= xi_count) then Ok (grow (xi_count - prevCount) p)
    else
      match shrink (S prevCount) (size_wrap (Z.of_nat prevCount - 1))
              (Z.of_nat xi_count) p with
      | Ok p' => Ok (truncate xi_count p')
      | r => r
      end.

(** [ThreadPool(xi_count)] *)
Definition make (xi_count : nat) : Result := resize xi_count new.

(** [size()] *)
Definition size (p : Pool) : nat := length (mThreads p).

(** The two vectors go together, and the threads in the slots are
    different threads that were created by the pool. *)
Record ok (p : Pool) : Prop := mkOk {
  ok_flags : length (mFlags p) = length (mThreads p);
  ok_size : (Z.of_nat (length (mThreads p)) < 2 ^ 64)%Z;
  ok_threads : NoDup (mThreads p);
  ok_spawned : forall t, t ∈ mThreads p -> t < spawned p
}.

End Control.

(** ** Tests.cpp, Test2

    [std::int32_t num{}] is the state the lambdas capture; its values stay
    between 0 and 6.  [task1] returns an [int], the other tasks return
    nothing.  The handles are the positions [makeTaskNode] returns. *)

Module Test2.

Definition task1 : nat := 0.
Definition task2 : nat := 1.
Definition task3 : nat := 2.
Definition task4 : nat := 3.
Definition task5 : nat := 4.

Definition program : list (BuildOp Z Z) :=
  [ OpMake (CopyTask (fun _ => (0, 13)%Z)) 0 "";
    OpMake (VoidTask (fun _ => 1%Z)) 0 "";
    OpMake (VoidTask (fun num => (num + 2)%Z)) 0 "";
    OpMake (VoidTask (fun num => (num * 2)%Z)) 0 "";
    OpMake (VoidTask (fun num => Z.rem num 5)) 0 "";
    OpParent task2 task1;
    OpParent task3 task2;
    OpParent task4 task2;
    OpParent task5 task3;
    OpParent task5 task4 ].

(** [BabyTask::TaskGraph task_graph(xi_count)] and the calls above. *)
Definition build (xi_count : nat) : option (TaskGraph Z Z) :=
  build_graph program (new_graph xi_count).

(** The graph of the test: one thread. *)
Definition task_graph : TaskGraph Z Z := default (new_graph 1) (build 1).

Definition start : Sys Z Z := execute_begin task_graph 0%Z.

(** The only schedule with one worker: task1, task2, task3, task4, task5. *)
Definition schedule : list Label :=
  [ LCallerPush;
    LPop 0; LRun 0; LNotify 0; LSubmit 0; LComplete 0;
    LPop 0; LRun 0; LNotify 0; LSubmit 0; LNotify 0; LSubmit 0; LComplete 0;
    LPop 0; LRun 0; LNotify 0; LComplete 0;
    LPop 0; LRun 0; LNotify 0; LSubmit 0; LComplete 0;
    LPop 0; LRun 0; LComplete 0;
    LCallerReturn ].

Definition trace : list Event :=
  [ESubmit 0; EStart 0; ETask 0; ENotify 0 1 0; ESubmit 1; EComplete 0;
   EStart 1; ETask 1; ENotify 1 2 0; ESubmit 2; ENotify 1 3 0; ESubmit 3;
   EComplete 1;
   EStart 2; ETask 2; ENotify 2 4 1; EComplete 2;
   EStart 3; ETask 3; ENotify 3 4 0; ESubmit 4; EComplete 3;
   EStart 4; ETask 4; EComplete 4; EReturn].

(** The same graph on a pool of two threads, and a schedule on which the
    second worker runs task4 before the first one runs task3. *)
Definition task_graph2 : TaskGraph Z Z := default (new_graph 2) (build 2).

Definition start2 : Sys Z Z := execute_begin task_graph2 0%Z.

(** And on a pool without a thread. *)
Definition task_graph0 : TaskGraph Z Z := default (new_graph 0) (build 0).

Definition start0 : Sys Z Z := execute_begin task_graph0 0%Z.

Definition schedule2 : list Label :=
  [ LCallerPush;
    LPop 0; LRun 0; LNotify 0; LSubmit 0; LComplete 0;
    LPop 0; LRun 0; LNotify 0; LSubmit 0; LNotify 0; LSubmit 0; LComplete 0;
    LPop 0; LPop 1; LRun 1; LRun 0;
    LNotify 0; LComplete 0; LNotify 1; LSubmit 1; LComplete 1;
    LPop 0; LRun 0; LComplete 0;
    LCallerReturn ].

End Test2.

(** ** Two nodes that wait for each other, and a third that waits for one
    of them *)

Module Cyclic.

Definition program : list (BuildOp unit Z) :=
  [ OpMake (VoidTask id) 0 "a";
    OpMake (VoidTask id) 0 "b";
    OpMake (VoidTask id) 0 "c";
    OpParent 1 0;
    OpParent 0 1;
    OpParent 2 1 ].

Definition task_graph : TaskGraph unit Z :=
  default (new_graph 1) (build_graph program (new_graph 1)).

Definition start : Sys unit Z := execute_begin task_graph tt.

End Cyclic.

(** ** A move-only result with two consumers, inside a graph *)

Module Fanout.

Definition task_graph : TaskGraph unit (option nat) :=
  mkTaskGraph (new_pool 1)
    [MoveOnly.node [MoveOnly.consumer; MoveOnly.consumer]] 0.

Definition start : Sys unit (option nat) := execute_begin task_graph tt.

Definition schedule : list Label := [LCallerPush; LPop 0; LRun 0].

Definition trace : list Event := [ESubmit 0; EStart 0; EThrow 0].

End Fanout.

(** ** Two tasks that do not wait for each other, on two threads

    The tasks add to different counters. *)

Module Independent.

Definition program : list (BuildOp (Z * Z) Z) :=
  [ OpMake (VoidTask (fun w => (fst w + 1, snd w)%Z)) 0 "left";
    OpMake (VoidTask (fun w => (fst w, snd w + 1)%Z)) 0 "right" ].

Definition task_graph : TaskGraph (Z * Z) Z :=
  default (new_graph 2) (build_graph program (new_graph 2)).

Definition start : Sys (Z * Z) Z := execute_begin task_graph (0, 0)%Z.


Definition schedule2 : list Label :=
  [ LCallerPush; LCallerPush; LPop 0; LPop 1; LRun 1; LRun 0;
    LComplete 1; LComplete 0; LCallerReturn ].

End Independent.

(** ** A pool of three threads *)

Module Pool3.

Definition pool : Control.Pool :=
  match Control.make 3 with
  | Control.Ok p => p
  | _ => Control.new
  end.

End Pool3.

(** * Properties *)

(** ** Queue.h: FIFO behaviour under sequential use *)

Module QueueFacts.
Section Facts.
Context {T : Type}.
Implicit Types (q : Queue.queue T) (x xo : T) (xs : list T).

Lemma push_all_app xs q : Queue.push_all xs q = q ++ xs.
Proof.
  revert q. induction xs as [|x xs IH]; intros q; simpl.
  - by rewrite app_nil_r.
  - etrans; [apply IH|]. unfold Queue.push; simpl. by rewrite <- app_assoc.
Qed.

Lemma drain_all q xo fuel :
  length q < fuel -> Queue.drain fuel q xo = (q, []).
Proof.
  revert q xo. induction fuel as [|fuel IH]; intros q xo Hlt; [lia|].
  destruct q as [|x q]; simpl; [done|].
  rewrite IH; [done | simpl in Hlt; lia].
Qed.

Lemma drain_prefix q xo fuel :
  Queue.drain fuel q xo = (take fuel q, drop fuel q).
Proof.
  revert q xo. induction fuel as [|fuel IH]; intros q xo; simpl.
  - by rewrite drop_0.
  - destruct q as [|x q]; simpl; [done|]. by rewrite IH.
Qed.

(** C10: push always succeeds and appends; pop fails exactly on the empty
    queue and otherwise removes and returns the oldest element; a batch of
    pushes is popped back in the order it was pushed, behind whatever was
    queued before. *)
Theorem queue_fifo :
  (forall x q, Queue.push x q = (q ++ [x], true)) /\
  (forall q xo, snd (Queue.pop q xo) = false <-> q = []) /\
  (forall xo, Queue.pop (T := T) [] xo = ([], xo, false)) /\
  (forall x q xo, Queue.pop (x :: q) xo = (q, x, true)) /\
  (forall q xs xo k,
      Queue.drain k (Queue.push_all xs q) xo
      = (take k (q ++ xs), drop k (q ++ xs))) /\
  (forall xs xo,
      Queue.drain (S (length xs)) (Queue.push_all xs Queue.empty_queue) xo
      = (xs, [])).
Proof.
  repeat split.
  - intros Hpop. destruct q; [done | discriminate Hpop].
  - intros ->. done.
  - intros q xs xo k. by rewrite push_all_app, drain_prefix.
  - intros xs xo. rewrite push_all_app. apply drain_all. simpl. lia.
Qed.
End Facts.
End QueueFacts.

(** ** TaskNode.h: result slot, reset, fan-out of results *)

Section NodeFacts.
Context {W V : Type}.
Implicit Types (nd : TaskNode W V) (g : TaskGraph W V) (w : W) (v : V).

Lemma reset_node_idem nd : reset_node (reset_node nd) = reset_node nd.
Proof. by destruct nd. Qed.

Lemma reset_node_static nd :
  mName (reset_node nd) = mName nd /\
  mTask (reset_node nd) = mTask nd /\
  nArgs (reset_node nd) = nArgs nd /\
  mParentCount (reset_node nd) = mParentCount nd /\
  mDescendantTasks (reset_node nd) = mDescendantTasks nd /\
  mDescendantArguments (reset_node nd) = mDescendantArguments nd /\
  mDescendants (reset_node nd) = mDescendants nd.
Proof. by destruct nd. Qed.

Lemma reset_lookup g i : mNodes (reset g) !! i = reset_node <$> mNodes g !! i.
Proof. unfold reset; simpl. apply list_lookup_fmap. Qed.

(** C7: after [reset] every node has its pending count back at its parent
    count and an empty result slot, the completed count is zero, and nothing
    else moved: the pool, the number of nodes and, per node, name, callable,
    arity, parent count and the three dependent lists. *)
Theorem reset_spec g :
  mCompletedTasks (reset g) = 0%Z /\
  mPool (reset g) = mPool g /\
  length (mNodes (reset g)) = length (mNodes g) /\
  (forall i nd', mNodes (reset g) !! i = Some nd' ->
     mPendingCount nd' = mParentCount nd' /\ mResult nd' = None) /\
  (forall i nd, mNodes g !! i = Some nd ->
     exists nd', mNodes (reset g) !! i = Some nd' /\
       mName nd' = mName nd /\
       mTask nd' = mTask nd /\
       nArgs nd' = nArgs nd /\
       mParentCount nd' = mParentCount nd /\
       mDescendantTasks nd' = mDescendantTasks nd /\
       mDescendantArguments nd' = mDescendantArguments nd /\
       mDescendants nd' = mDescendants nd).
Proof.
  split_and!; try done.
  - unfold reset; simpl. by rewrite length_map.
  - intros i nd' Hi. rewrite reset_lookup in Hi.
    destruct (mNodes g !! i) as [nd|]; simplify_eq/=. done.
  - intros i nd Hi. exists (reset_node nd). split.
    + by rewrite reset_lookup, Hi.
    + apply reset_node_static.
Qed.

(** C8: a second [reset] changes nothing. *)
Theorem reset_idempotent g : reset (reset g) = reset g.
Proof.
  unfold reset, set_mCompletedTasks, set_mNodes; simpl. f_equal.
  rewrite <- list_fmap_compose. apply list_fmap_ext.
  intros i nd _. apply reset_node_idem.
Qed.

(** C5: execute on a node with a move-only result.  With more than one
    result consumer it throws the logic error, before the task is called;
    with exactly one, the consumer is called on the value the task returned
    and the slot is empty afterwards. *)
Theorem execute_move_only nd w f :
  mTask nd = MoveTask f ->
  (1 < length (mDescendantTasks nd) ->
     execute_task nd w = Throw logic_error_fanout) /\
  (forall consumer, mDescendantTasks nd = [consumer] ->
     exists nd', execute_task nd w = Done (nd', consumer (snd (f w)) (fst (f w))) /\
       mResult nd' = None /\ nd' = set_mResult None nd).
Proof.
  intros Ht. unfold execute_task. rewrite Ht. split.
  - intros Hlen. by rewrite decide_True.
  - intros consumer Hc. rewrite Hc; simpl.
    destruct (f w) as [w1 v]; simpl. eauto.
Qed.

(** The fan-out check guards nothing else: with at most one consumer
    [execute] does not throw. *)
Lemma execute_task_throw nd w what :
  execute_task nd w = Throw what ->
  what = logic_error_fanout /\ 1 < length (mDescendantTasks nd) /\
  exists f, mTask nd = MoveTask f.
Proof.
  unfold execute_task. destruct (mTask nd) as [f|f|f]; try done.
  - by destruct (f w).
  - case_decide; [|destruct (f w); by destruct (mDescendantTasks nd)].
    intros [= <-]. eauto.
Qed.

Lemma execute_task_mTask nd w nd' w' :
  execute_task nd w = Done (nd', w') -> mTask nd' = mTask nd.
Proof.
  unfold execute_task. destruct (mTask nd) as [f|f|f] eqn:Ht.
  - by intros [= <- _].
  - destruct (f w). by intros [= <- _].
  - case_decide; [done|]. destruct (f w).
    destruct (mDescendantTasks nd); by intros [= <- _].
Qed.

Lemma getValue_mTask moved nd : mTask (snd (getValue moved nd)) = mTask nd.
Proof.
  unfold getValue. destruct (mResult nd); [|done].
  destruct (mTask nd) eqn:Ht; simpl; congruence.
Qed.

Lemma void_slot_empty t a name f nd :
  t = VoidTask f -> node_life (new_node t a name) nd ->
  mTask nd = t /\ mResult nd = None.
Proof.
  intros -> Hlife. induction Hlife as [|nd _ [IH1 IH2]|nd w nd' w' _ [IH1 IH2] Hex|moved nd _ [IH1 IH2]].
  - done.
  - by destruct nd.
  - unfold execute_task in Hex. rewrite IH1 in Hex. by simplify_eq.
  - unfold getValue. rewrite IH2. done.
Qed.

(** [getValue] as the code has it: it throws "node has no result."
    exactly when the slot is empty, and leaves the node alone then; the slot
    is empty on a new node, after [reset], after an execute that handed a
    move-only result to its consumer, and throughout the life of a node with
    a void task.  On a full slot it returns the stored value; for a
    move-only result the stored object is moved from and the slot stays
    engaged.  Right after an execute that stored a value, the value returned
    is the one the task just returned. *)
Lemma getValue_spec (moved : V -> V) :
  (forall nd, (exists what, fst (getValue moved nd) = Throw what) <-> mResult nd = None) /\
  (forall nd, mResult nd = None ->
     getValue moved nd = (Throw logic_error_no_result, nd)) /\
  (forall nd v, mResult nd = Some v ->
     fst (getValue moved nd) = Done v /\
     snd (getValue moved nd)
     = match mTask nd with
       | MoveTask _ => set_mResult (Some (moved v)) nd
       | _ => nd
       end) /\
  (forall (t : Callable W V) a name,
     fst (getValue moved (new_node t a name)) = Throw logic_error_no_result) /\
  (forall nd, fst (getValue moved (reset_node nd)) = Throw logic_error_no_result) /\
  (forall (f : W -> W) a name nd,
     node_life (new_node (VoidTask f) a name) nd ->
     fst (getValue moved nd) = Throw logic_error_no_result) /\
  (forall nd w nd' w', execute_task nd w = Done (nd', w') ->
     match mTask nd with
     | VoidTask _ => mResult nd' = mResult nd
     | CopyTask f => fst (getValue moved nd') = Done (snd (f w))
     | MoveTask f =>
         match mDescendantTasks nd with
         | [] => fst (getValue moved nd') = Done (snd (f w))
         | _ :: _ => fst (getValue moved nd') = Throw logic_error_no_result
         end
     end).
Proof.
  split_and!.
  - intros nd. unfold getValue. destruct (mResult nd) as [v|].
    + split; [|done]. intros [what Hw]. by destruct (mTask nd).
    + split; [done|]. eauto.
  - intros nd Hnone. unfold getValue. by rewrite Hnone.
  - intros nd v Hv. unfold getValue. rewrite Hv. by destruct (mTask nd).
  - done.
  - intros nd. by destruct nd.
  - intros f a name nd Hlife.
    destruct (void_slot_empty _ a name f nd eq_refl Hlife) as [_ Hnone].
    unfold getValue. by rewrite Hnone.
  - intros nd w nd' w'. unfold execute_task.
    destruct (mTask nd) as [f|f|f] eqn:Ht.
    + by intros [= <- _].
    + destruct (f w) as [w1 v]. intros [= <- _]. simpl.
      unfold getValue; simpl. by rewrite Ht.
    + case_decide; [done|]. destruct (f w) as [w1 v].
      destruct (mDescendantTasks nd); intros [= <- _]; simpl;
        unfold getValue; simpl; [by rewrite Ht | done].
Qed.

End NodeFacts.

(** ** TaskGraph.h: cycle detection *)

Section CycleFacts.
Context {W V : Type}.
Variable g : TaskGraph W V.
Abbreviation colors := (gmap handle bool).
Abbreviation E := (edge g).

Lemma tc_first_step x z : tc E x z -> exists y, E x y /\ rtc E y z.
Proof.
  intros Hxz. destruct Hxz as [x z Hxz|x y z Hxy Hyz].
  - by exists z.
  - exists y. split; [done | by apply tc_rtc].
Qed.

Lemma finished_closed col x z :
  finished_ok g col -> col !! x = Some false -> rtc E x z -> col !! z = Some false.
Proof.
  intros Hok Hx Hxz. induction Hxz as [|x y z Hxy _ IH]; [done|].
  apply IH. by apply (Hok x).
Qed.

Lemma finished_ok_close col cur :
  finished_ok g col -> col !! cur = Some true ->
  (forall y, E cur y -> col !! y = Some false) ->
  finished_ok g (<[cur := false]> col).
Proof.
  intros Hok Hcur Hsucc x Hx.
  assert (Hblack : forall y, col !! y = Some false -> <[cur:=false]> col !! y = Some false).
  { intros y Hy. rewrite lookup_insert_ne; [done | congruence]. }
  destruct (decide (x = cur)) as [->|Hne].
  - split; [by auto|].
    intros Hcyc. apply tc_first_step in Hcyc as (y & Hy & Hback).
    assert (col !! cur = Some false) by (eapply finished_closed; eauto).
    congruence.
  - rewrite lookup_insert_ne in Hx by done.
    destruct (Hok x Hx) as [Hs Hc]. split; [by auto | done].
Qed.

Lemma visit_ok dfs cur :
  dfs_ok g dfs ->
  forall todo col b col',
    visit dfs cur todo col = Some (b, col') ->
    col !! cur = Some true -> stack_reaches g col cur -> finished_ok g col ->
    (forall y, y ∈ todo -> E cur y) ->
    (forall y, E cur y -> y ∈ todo \/ col !! y = Some false) ->
    if b then found_cycle g cur
    else col' !! cur = Some false /\
         (forall x v, x <> cur -> col !! x = Some v -> col' !! x = Some v) /\
         (forall x, col' !! x = Some true -> col !! x = Some true /\ x <> cur) /\
         finished_ok g col'.
Proof.
  intros Hdfs todo. induction todo as [|next todo IH];
    intros col b col' Hvisit Hcur Hstack Hfin Hedges Hcover; simpl in Hvisit.
  - injection Hvisit as <- <-. split_and!.
    + apply lookup_insert_eq.
    + intros x v Hne Hx. by rewrite lookup_insert_ne.
    + intros x Hx. destruct (decide (cur = x)) as [->|Hne].
      * rewrite lookup_insert_eq in Hx. discriminate.
      * rewrite lookup_insert_ne in Hx by done. done.
    + apply finished_ok_close; [done..|].
      intros y Hy. destruct (Hcover y Hy) as [Hin|?]; [|done].
      by apply not_elem_of_nil in Hin.
  - assert (Hnext : E cur next) by (apply Hedges; left).
    assert (Hedges' : forall y, y ∈ todo -> E cur y) by (intros; apply Hedges; by right).
    destruct (col !! next) as [[|]|] eqn:Hcol.
    + (* back edge *)
      injection Hvisit as <- <-. exists cur. split; [done|].
      eapply tc_rtc_r; [by apply tc_once | by apply Hstack].
    + (* finished already *)
      apply (IH col); try done.
      intros y Hy. destruct (Hcover y Hy) as [Hin|?]; [|by right].
      apply elem_of_cons in Hin as [->|?]; [by right | by left].
    + (* unvisited *)
      assert (Hstack' : stack_reaches g col next).
      { intros x Hx. eapply rtc_r; [by apply Hstack | done]. }
      destruct (dfs next col) as [[[|] col1]|] eqn:Hrec; [| |done].
      * injection Hvisit as <- <-.
        destruct (Hdfs _ _ _ _ Hrec Hcol Hstack' Hfin) as (c & Hnc & Hcc).
        exists c. split; [by eapply rtc_l | done].
      * destruct (Hdfs _ _ _ _ Hrec Hcol Hstack' Hfin) as (Hn1 & Hkeep & Hgrey & Hfin1).
        assert (Hcover1 : forall y, E cur y -> y ∈ todo \/ col1 !! y = Some false).
        { intros y Hy. destruct (Hcover y Hy) as [Hin|?]; [|by auto].
          apply elem_of_cons in Hin as [->|?]; [by right | by left]. }
        assert (Hstack1 : stack_reaches g col1 cur).
        { intros x Hx. apply Hstack. by apply Hgrey. }
        specialize (IH col1 b col' Hvisit (Hkeep _ _ Hcur) Hstack1 Hfin1 Hedges' Hcover1).
        destruct b; [done|].
        destruct IH as (Hc & Hkeep' & Hgrey' & Hfin').
        split_and!; [done | by auto | | done].
        intros x Hx. destruct (Hgrey' x Hx). by auto.
Qed.

Lemma DFS_ok fuel : dfs_ok g (DFS fuel g).
Proof.
  induction fuel as [|fuel IH]; intros cur col b col' Hdfs Hwhite Hstack Hfin;
    [done|]. simpl in Hdfs.
  apply (visit_ok _ _ IH) in Hdfs.
  - destruct b; [done|]. destruct Hdfs as (Hc & Hkeep & Hgrey & Hfin').
    split_and!; [done | | | done].
    + intros x v Hx. apply Hkeep; [congruence|].
      rewrite lookup_insert_ne; [done | congruence].
    + intros x Hx. destruct (Hgrey x Hx) as [Hx1 Hne].
      by rewrite lookup_insert_ne in Hx1.
  - apply lookup_insert_eq.
  - intros x Hx. destruct (decide (cur = x)) as [->|Hne]; [done|].
    rewrite lookup_insert_ne in Hx by done. by apply Hstack.
  - intros x Hx.
    assert (x <> cur) as Hne by (intros ->; rewrite lookup_insert_eq in Hx; done).
    rewrite lookup_insert_ne in Hx by done.
    destruct (Hfin x Hx) as [Hs Hc]. split; [|done].
    intros y Hy. rewrite lookup_insert_ne; [by auto|].
    intros ->. specialize (Hs _ Hy). congruence.
  - done.
  - intros y Hy. by left.
Qed.

(** *** The search returns: the fuel of [hasCycle] is enough *)

Lemma visit_grows dfs cur todo :
  grows dfs -> forall col b col',
    visit dfs cur todo col = Some (b, col') -> dom col ⊆ dom col'.
Proof.
  intros Hdfs. induction todo as [|next todo IH]; intros col b col' Hvisit;
    simpl in Hvisit.
  - injection Hvisit as <- <-. rewrite dom_insert. set_solver.
  - destruct (col !! next) as [[|]|] eqn:Hcol.
    + by injection Hvisit as <- <-.
    + by eapply IH.
    + destruct (dfs next col) as [[[|] col1]|] eqn:Hrec; [| |done].
      * injection Hvisit as <- <-. by eapply Hdfs.
      * apply Hdfs in Hrec. apply IH in Hvisit. set_solver.
Qed.

Lemma DFS_grows fuel : grows (DFS fuel g).
Proof.
  induction fuel as [|fuel IH]; intros cur col b col' Hdfs; [done|].
  simpl in Hdfs. apply (visit_grows _ _ _ IH) in Hdfs.
  rewrite dom_insert in Hdfs. set_solver.
Qed.

Lemma universe_root r : r < length (mNodes g) -> r ∈ universe g.
Proof.
  intros Hr. unfold universe. apply elem_of_list_to_set, elem_of_app. left.
  apply elem_of_seq. lia.
Qed.

Lemma universe_edge x y : E x y -> y ∈ universe g.
Proof.
  unfold edge, descendants. intros Hy.
  destruct (mNodes g !! x) as [nd|] eqn:Hx; [|by apply not_elem_of_nil in Hy].
  unfold universe. apply elem_of_list_to_set, elem_of_app. right.
  apply list_elem_of_In, in_concat. exists (mDescendants nd). split.
  - apply in_map, list_elem_of_In. by eapply list_elem_of_lookup_2.
  - by apply list_elem_of_In.
Qed.

Lemma white_measure (U : gset handle) (col : colors) cur b :
  cur ∈ U -> col !! cur = None ->
  size (U ∖ dom (<[cur := b]> col)) < size (U ∖ dom col).
Proof.
  intros HU Hwhite. apply subset_size.
  apply not_elem_of_dom in Hwhite. rewrite dom_insert_L.
  apply strict_spec_alt. split; [set_solver|].
  intros Heq. assert (cur ∈ U ∖ dom col) as Hin by set_solver.
  rewrite <- Heq in Hin. set_solver.
Qed.

Lemma visit_returns dfs cur fuel :
  grows dfs ->
  (forall next col, next ∈ universe g -> col !! next = None ->
     size (universe g ∖ dom col) <= fuel -> is_Some (dfs next col)) ->
  forall todo col,
    (forall y, y ∈ todo -> y ∈ universe g) ->
    size (universe g ∖ dom col) <= fuel ->
    is_Some (visit dfs cur todo col).
Proof.
  intros Hgrows Hdfs todo. induction todo as [|next todo IH]; intros col HU Hsize;
    simpl; [done|].
  assert (HU' : forall y, y ∈ todo -> y ∈ universe g) by (intros; apply HU; by right).
  destruct (col !! next) as [[|]|] eqn:Hcol; [done | by apply IH |].
  destruct (Hdfs next col) as [[b col1] Hrec]; [apply HU; by left | done..|].
  rewrite Hrec. destruct b; [done|]. apply IH; [done|].
  apply Hgrows in Hrec.
  etrans; [|exact Hsize]. apply subseteq_size. set_solver.
Qed.

Lemma DFS_returns fuel cur col :
  cur ∈ universe g -> col !! cur = None ->
  size (universe g ∖ dom col) <= fuel -> is_Some (DFS fuel g cur col).
Proof.
  revert cur col. induction fuel as [|fuel IH]; intros cur col HU Hwhite Hsize.
  - pose proof (white_measure (universe g) col cur true HU Hwhite). lia.
  - simpl. apply (visit_returns _ _ fuel).
    + apply DFS_grows.
    + intros next c ? ? ?. by apply IH.
    + intros y Hy. by eapply universe_edge.
    + pose proof (white_measure (universe g) col cur true HU Hwhite). lia.
Qed.

(** *** The loop over the roots *)

Lemma DFS_root fuel r b col' :
  DFS fuel g r ∅ = Some (b, col') ->
  if b then found_cycle g r else forall c, rtc E r c -> ~ tc E c c.
Proof.
  intros Hdfs.
  assert (Hstack : stack_reaches g ∅ r) by (intros x Hx; by rewrite lookup_empty in Hx).
  assert (Hfin0 : finished_ok g ∅) by (intros x Hx; by rewrite lookup_empty in Hx).
  pose proof (DFS_ok _ _ _ _ _ Hdfs (lookup_empty r) Hstack Hfin0) as Hok.
  destruct b; [done|]. destruct Hok as (Hr & _ & _ & Hfin).
  intros c Hrc. apply (Hfin c). by eapply finished_closed.
Qed.

Lemma hasCycle_roots_ok fuel roots :
  size (universe g) <= fuel ->
  (forall r, r ∈ roots -> r < length (mNodes g)) ->
  exists b, hasCycle_roots fuel g roots = Some b /\
    if b then exists r, r ∈ roots /\ found_cycle g r
    else forall r, r ∈ roots -> forall c, rtc E r c -> ~ tc E c c.
Proof.
  intros Hfuel. induction roots as [|r roots IH]; intros Hroots; simpl.
  - exists false. split; [done|]. intros r Hr. by apply not_elem_of_nil in Hr.
  - destruct (DFS_returns fuel r ∅) as [[b col'] Hdfs].
    { apply universe_root, Hroots. by left. }
    { done. }
    { etrans; [|exact Hfuel]. apply subseteq_size. set_solver. }
    rewrite Hdfs. apply DFS_root in Hdfs. destruct b.
    + exists true. split; [done|]. exists r. split; [by left | done].
    + destruct IH as [b [Hb Hspec]]; [intros; apply Hroots; by right|].
      exists b. split; [done|]. destruct b.
      * destruct Hspec as (r' & Hr' & Hcyc). exists r'. split; [by right | done].
      * intros r' Hr'. apply elem_of_cons in Hr' as [->|Hr']; [done | by apply Hspec].
Qed.

End CycleFacts.

Section CycleTheorem.
Context {W V : Type}.

(** C1: [hasCycle] returns, and it returns [true] exactly when the graph of
    descendant edges has a cycle that can be reached from one of the graph's
    nodes; so it returns [false] on every graph without such a cycle. *)
Theorem hasCycle_correct (g : TaskGraph W V) :
  (exists b, hasCycle g = Some b) /\
  (hasCycle g = Some true <-> reachable_cycle g) /\
  (hasCycle g = Some false <-> ~ reachable_cycle g).
Proof.
  destruct (hasCycle_roots_ok g (S (size (universe g))) (seq 0 (length (mNodes g))))
    as [b [Hb Hspec]]; [lia | intros r Hr; apply elem_of_seq in Hr; lia |].
  fold (hasCycle g) in Hb.
  assert (Hiff : b = true <-> reachable_cycle g).
  { destruct b.
    - split; [intros _|done]. destruct Hspec as (r & Hr & c & Hrc & Hcc).
      exists r, c. split_and!; [|done..]. apply elem_of_seq in Hr. lia.
    - split; [done|]. intros (r & c & Hr & Hrc & Hcc). exfalso.
      apply (Hspec r) in Hrc; [by apply Hrc | apply elem_of_seq; lia]. }
  split_and!.
  - eauto.
  - rewrite Hb. destruct b; intuition congruence.
  - rewrite Hb. destruct b; intuition congruence.
Qed.

End CycleTheorem.

(** ** TaskGraph.h: execute *)

(** *** Counting *)

Section Counting.
Implicit Types (f h : nat -> nat) (l : list handle) (c x : handle).

Lemma sum_upto_ext f h n :
  (forall i, i < n -> f i = h i) -> sum_upto f n = sum_upto h n.
Proof.
  induction n as [|n IH]; intros Hfh; simpl; [done|].
  rewrite IH, Hfh by (intros; auto with lia). done.
Qed.

Lemma sum_upto_le f h n :
  (forall i, i < n -> f i <= h i) -> sum_upto f n <= sum_upto h n.
Proof.
  induction n as [|n IH]; intros Hfh; simpl; [done|].
  specialize (Hfh n (Nat.lt_succ_diag_r n)) as Hn.
  assert (sum_upto f n <= sum_upto h n) by (apply IH; auto with lia). lia.
Qed.

Lemma sum_upto_ge f n p : p < n -> f p <= sum_upto f n.
Proof.
  induction n as [|n IH]; intros Hp; simpl; [lia|].
  destruct (decide (p = n)) as [->|]; [lia|].
  assert (f p <= sum_upto f n) by (apply IH; lia). lia.
Qed.

(** One summand goes down by one. *)
Lemma sum_upto_pred f h n p :
  p < n -> (forall i, i <> p -> f i = h i) -> f p = S (h p) ->
  sum_upto f n = S (sum_upto h n).
Proof.
  induction n as [|n IH]; intros Hp Hne Heq; simpl; [lia|].
  destruct (decide (p = n)) as [->|Hpn].
  - rewrite Heq. rewrite (sum_upto_ext f h); [lia|]. intros i Hi. apply Hne. lia.
  - rewrite IH by (done || lia). rewrite (Hne n) by done. lia.
Qed.

Lemma count_nil c : count c [] = 0.
Proof. done. Qed.

Lemma count_app c l1 l2 : count c (l1 ++ l2) = count c l1 + count c l2.
Proof. apply count_occ_app. Qed.

Lemma count_cons c x l :
  count c (x :: l) = (if decide (x = c) then 1 else 0) + count c l.
Proof.
  unfold count. simpl.
  destruct (Nat.eq_dec x c) as [->|Hne];
    [rewrite decide_True by done | rewrite decide_False by done]; done.
Qed.

Lemma count_pos c l : 0 < count c l <-> c ∈ l.
Proof. unfold count. rewrite list_elem_of_In. symmetry. apply count_occ_In. Qed.

Lemma count_zero c l : count c l = 0 <-> c ∉ l.
Proof. rewrite <- count_pos. lia. Qed.

Lemma count_take_drop c k l : count c l = count c (take k l) + count c (drop k l).
Proof. by rewrite <- count_app, take_drop. Qed.

Lemma count_nodup c l : NoDup l -> count c l <= 1.
Proof.
  induction 1 as [|x l Hx _ IH]; [unfold count; simpl; lia|]. rewrite count_cons.
  case_decide as Hxc; [|lia]. subst. apply count_zero in Hx. lia.
Qed.

Lemma drop_head_take k l x (rest : list handle) :
  drop k l = x :: rest -> take (S k) l = take k l ++ [x] /\ drop (S k) l = rest.
Proof.
  revert l. induction k as [|k IH]; intros l Hd.
  - rewrite drop_0 in Hd. subst. simpl. by rewrite drop_0.
  - destruct l as [|y l]; [done|]. simpl in Hd.
    destruct (IH l Hd) as [Ht Hd']. split; [|done].
    change (take (S (S k)) (y :: l)) with (y :: take (S k) l). by rewrite Ht.
Qed.

(** Distinct handles below [n]: at most [n] of them, and all of them once
    there are [n]. *)
Lemma nodup_bounded l n :
  NoDup l -> (forall x, x ∈ l -> x < n) -> length l <= n.
Proof.
  intros Hnd Hlt.
  assert (l ⊆+ seq 0 n) as Hsub.
  { apply NoDup_submseteq; [done|]. intros x Hx. apply elem_of_seq.
    specialize (Hlt x Hx). lia. }
  apply submseteq_length in Hsub. by rewrite length_seq in Hsub.
Qed.

Lemma nodup_full l n :
  NoDup l -> (forall x, x ∈ l -> x < n) -> length l = n ->
  forall x, x < n -> x ∈ l.
Proof.
  intros Hnd Hlt Hlen x Hx.
  assert (l ⊆+ seq 0 n) as Hsub.
  { apply NoDup_submseteq; [done|]. intros y Hy. apply elem_of_seq.
    specialize (Hlt y Hy). lia. }
  apply submseteq_length_Permutation in Hsub; [|rewrite length_seq; lia].
  rewrite Hsub. apply elem_of_seq. lia.
Qed.

End Counting.

(** *** Traces *)

Section Traces.
Implicit Types (tr : list Event) (e : Event).

Lemma submitted_snoc tr e : submitted (tr ++ [e]) = submitted tr ++ submitted [e].
Proof. apply omap_app. Qed.
Lemma started_snoc tr e : started (tr ++ [e]) = started tr ++ started [e].
Proof. apply omap_app. Qed.
Lemma ran_snoc tr e : ran (tr ++ [e]) = ran tr ++ ran [e].
Proof. apply omap_app. Qed.
Lemma completed_snoc tr e : completed (tr ++ [e]) = completed tr ++ completed [e].
Proof. apply omap_app. Qed.
Lemma finished_snoc tr e : finished (tr ++ [e]) = finished tr ++ finished [e].
Proof. apply omap_app. Qed.
Lemma fired_snoc p tr e : fired p (tr ++ [e]) = fired p tr ++ fired p [e].
Proof. apply omap_app. Qed.
Lemma targets_snoc tr e : targets (tr ++ [e]) = targets tr ++ targets [e].
Proof. apply omap_app. Qed.
Lemma zero_seen_snoc tr e : zero_seen (tr ++ [e]) = zero_seen tr ++ zero_seen [e].
Proof. apply omap_app. Qed.

Lemma notified_snoc_quiet c tr e :
  targets [e] = [] -> notified c (tr ++ [e]) = notified c tr.
Proof. intros He. unfold notified. by rewrite targets_snoc, He, app_nil_r. Qed.

Lemma notified_snoc_notify c tr p c' v :
  notified c (tr ++ [ENotify p c' v])
  = notified c tr + (if decide (c' = c) then 1 else 0).
Proof.
  unfold notified. rewrite targets_snoc, count_app.
  change (targets [ENotify p c' v]) with [c'].
  rewrite count_cons. unfold count; simpl. lia.
Qed.

End Traces.

Ltac tr_norm :=
  rewrite ?submitted_snoc, ?started_snoc, ?ran_snoc, ?completed_snoc,
    ?finished_snoc, ?fired_snoc, ?targets_snoc, ?zero_seen_snoc;
  simpl; rewrite ?app_nil_r.

Ltac tr_norm_in H :=
  rewrite ?submitted_snoc, ?started_snoc, ?ran_snoc, ?completed_snoc,
    ?finished_snoc, ?fired_snoc, ?targets_snoc, ?zero_seen_snoc in H;
  simpl in H; rewrite ?app_nil_r in H.

(** *** The graph under execution *)

Section Exec.
Context {W V : Type}.
Implicit Types (g : TaskGraph W V) (s : Sys W V) (nd : TaskNode W V)
  (tr : list Event) (c p n : handle).

Lemma static_part_fields nd nd' :
  static_part nd = static_part nd' ->
  nArgs nd = nArgs nd' /\ mParentCount nd = mParentCount nd' /\
  mDescendantArguments nd = mDescendantArguments nd'.
Proof. destruct nd, nd'. unfold static_part; simpl. by intros [= ]. Qed.

Lemma static_lookup (ns ns0 : list (TaskNode W V)) c nd :
  static_part <$> ns = static_part <$> ns0 -> ns !! c = Some nd ->
  exists nd0, ns0 !! c = Some nd0 /\ static_part nd = static_part nd0.
Proof.
  intros Heq Hc.
  assert ((static_part <$> ns0) !! c = Some (static_part nd)) as H0.
  { rewrite <- Heq. by rewrite list_lookup_fmap, Hc. }
  rewrite list_lookup_fmap in H0.
  destruct (ns0 !! c) as [nd0|]; [|done]. simpl in H0.
  apply (inj Some) in H0. eauto.
Qed.

Lemma static_length (ns ns0 : list (TaskNode W V)) :
  static_part <$> ns = static_part <$> ns0 -> length ns = length ns0.
Proof. intros Heq. by rewrite <- (length_fmap static_part ns), Heq, length_fmap. Qed.

Lemma static_insert (ns : list (TaskNode W V)) c nd nd' :
  ns !! c = Some nd -> static_part nd' = static_part nd ->
  static_part <$> <[c := nd']> ns = static_part <$> ns.
Proof.
  intros Hc Heq. rewrite list_fmap_insert, Heq.
  apply list_insert_id. by rewrite list_lookup_fmap, Hc.
Qed.

Lemma children_lt g p c : c ∈ children g p -> p < length (mNodes g).
Proof.
  unfold children. destruct (mNodes g !! p) eqn:Hp.
  - intros _. by eapply lookup_lt_Some.
  - intros Hc. by apply not_elem_of_nil in Hc.
Qed.

Lemma remaining_snoc_quiet g tr e c :
  (forall p, fired p [e] = []) ->
  remaining g (tr ++ [e]) c = remaining g tr c.
Proof.
  intros He. unfold remaining. apply sum_upto_ext. intros p _.
  by rewrite fired_snoc, He, app_nil_r.
Qed.

Lemma remaining_nil g c : remaining g [] c = indegree g c.
Proof. done. Qed.

Lemma remaining_le g tr c : remaining g tr c <= indegree g c.
Proof.
  unfold remaining, indegree. apply sum_upto_le. intros p _.
  rewrite (count_take_drop c (length (fired p tr)) (children g p)). lia.
Qed.

(** The scan for the initial nodes. *)
Lemma scan_ready_spec (nodes : list (TaskNode W V)) i n :
  n ∈ scan_ready i nodes <->
  i <= n /\ exists nd, nodes !! (n - i) = Some nd /\ mPendingCount nd = 0%Z.
Proof.
  revert i. induction nodes as [|nd nodes IH]; intros i; simpl.
  - rewrite elem_of_nil. split; [done|]. by intros [_ [nd [? _]]].
  - assert (Hrest : n ∈ scan_ready (S i) nodes <->
       S i <= n /\ exists nd', (nd :: nodes) !! (n - i) = Some nd' /\ mPendingCount nd' = 0%Z).
    { rewrite IH. split; intros [Hle [nd' [Hl Hz]]]; (split; [done|]); exists nd'.
      - replace (n - i) with (S (n - S i)) by lia. done.
      - replace (n - i) with (S (n - S i)) in Hl by lia. done. }
    unfold getPendingCount. case_decide as Hz.
    + rewrite elem_of_cons, Hrest. split.
      * intros [->|[Hle Hex]]; [|split; [lia | done]].
        split; [done|]. exists nd. by rewrite Nat.sub_diag.
      * intros [Hle [nd' [Hl Hz']]].
        destruct (decide (n = i)) as [->|]; [by left | right].
        split; [lia | eauto].
    + rewrite Hrest. split.
      * intros [Hle Hex]. split; [lia | done].
      * intros [Hle [nd' [Hl Hz']]].
        destruct (decide (n = i)) as [->|]; [|split; [lia | eauto]].
        rewrite Nat.sub_diag in Hl. simpl in Hl. congruence.
Qed.

Lemma scan_ready_nodup (nodes : list (TaskNode W V)) i : NoDup (scan_ready i nodes).
Proof.
  revert i. induction nodes as [|nd nodes IH]; intros i; simpl; [constructor|].
  case_decide; [|done]. constructor; [|done].
  rewrite scan_ready_spec. lia.
Qed.

Lemma initialNodes_spec g n :
  n ∈ initialNodes g <->
  exists nd, mNodes g !! n = Some nd /\ mPendingCount nd = 0%Z.
Proof.
  unfold initialNodes. rewrite scan_ready_spec, Nat.sub_0_r.
  split; [by intros [_ ?] | intros ?; split; [lia | done]].
Qed.

Lemma Inv_init (g0 : TaskGraph W V) w0 : armed g0 -> Inv g0 [] (execute_begin g0 w0).
Proof.
  intros [[Hcount Hchildren Hsize] Hpend Hcompl Hqueue Hidle].
  constructor; unfold pending, threads; simpl; try done;
    try apply NoDup_nil_2; try (intros c Hc; by apply elem_of_nil in Hc).
  - intros c nd Hc. rewrite (Hpend c nd Hc). by destruct (Hcount c nd Hc) as [-> _].
  - intros l [= <-]. split; [apply scan_ready_nodup|].
    intros c Hc. split; [apply not_elem_of_nil|]. split; [|done].
    apply initialNodes_spec in Hc as [nd [-> Hz]]. simpl. by rewrite Hz.
  - intros w p c rest Hw. by apply Hidle in Hw.
  - intros w1 w2 p1 p2 c r1 r2 Hw. by apply Hidle in Hw.
  - intros w p ph Hw. by apply Hidle in Hw.
  - intros w1 w2 p ph1 ph2 Hw. by apply Hidle in Hw.
Qed.

End Exec.

Section Steps.
Context {W V : Type}.
Implicit Types (g : TaskGraph W V) (s : Sys W V) (nd : TaskNode W V)
  (tr : list Event) (c p n : nat).
Variable g0 : TaskGraph W V.
Hypothesis Hwired : wired g0.

(** What a step keeps as it is, it keeps by one of these. *)
Ltac tr_norm_all :=
  tr_norm;
  repeat match goal with
         | H : context [ (_ ++ [_]) ] |- _ => progress (tr_norm_in H)
         end.

Lemma phase_ok_quiet tr e p (ph : Phase) :
  fired p [e] = [] -> ran [e] = [] -> zero_seen [e] = [] ->
  phase_ok g0 (tr ++ [e]) p ph <-> phase_ok g0 tr p ph.
Proof.
  intros Hf Hr Hz. unfold phase_ok.
  by rewrite fired_snoc, ran_snoc, zero_seen_snoc, Hf, Hr, Hz, !app_nil_r.
Qed.

Ltac kept :=
  solve [ tr_norm; intros; tr_norm_all;
          rewrite ?remaining_snoc_quiet, ?notified_snoc_quiet by done;
          rewrite ?phase_ok_quiet by done;
          eauto; done ].

Ltac open_inv H :=
  destruct H as [Hstatic Hpend Hnotif Hqueue Hsub Hsubz Hzero Hzerop Hcaller
                 Hpsub Hpsubu Hbusy Hbusyu Hfin Hfins Hrans Hunst Hfired
                 Hfiredr Hcompl Hcomplf Hcompln Hret Hzsub];
  unfold pending, threads in *.

Lemma NoDup_snoc (l : list nat) x : NoDup l -> x ∉ l -> NoDup (l ++ [x]).
Proof.
  intros Hl Hx. apply NoDup_app. split_and!; [done | | apply NoDup_singleton].
  intros y Hy Hyx. apply list_elem_of_singleton in Hyx. by subst.
Qed.

Lemma elem_of_snoc (l : list nat) x y : y ∈ l ++ [x] <-> y ∈ l \/ y = x.
Proof. by rewrite elem_of_app, list_elem_of_singleton. Qed.

Lemma zero_submit_keep (ths : list Worker) w x old c (sub sub' : list nat) :
  ths !! w = Some old ->
  (forall p rest, old <> Busy p (PSubmit c rest)) ->
  (c ∈ sub -> c ∈ sub') ->
  (c ∈ sub \/ exists w1 p rest, ths !! w1 = Some (Busy p (PSubmit c rest))) ->
  c ∈ sub' \/ exists w1 p rest, <[w := x]> ths !! w1 = Some (Busy p (PSubmit c rest)).
Proof.
  intros Hw Hold Hsub [Hc|(w1 & p & rest & Hw1)]; [left; by auto|].
  right. exists w1, p, rest. rewrite list_lookup_insert_ne; [done|].
  intros ->. rewrite Hw in Hw1. injection Hw1 as Hw1. by eapply Hold.
Qed.

Lemma Inv_caller_push tr s n rest :
  Inv g0 tr s -> caller s = CPush (n :: rest) ->
  Inv g0 (tr ++ [ESubmit n])
    (mkSys (set_mPool (pool_push n (mPool (graph s))) (graph s)) (CPush rest) (world s)).
Proof.
  intros HI Hc. open_inv HI.
  destruct (Hcaller _ Hc) as [Hnd Hl].
  apply NoDup_cons in Hnd as [Hn Hnd].
  destruct (Hl n) as (Hns & Hnz & Hni); [by left|].
  constructor; unfold pending, threads; simpl; try kept.
  - tr_norm. rewrite Hqueue. by rewrite app_assoc.
  - tr_norm. by apply NoDup_snoc.
  - tr_norm. intros c [Hin | ->]%elem_of_snoc; [by auto|]. by auto.
  - intros l [= <-]. split; [done|]. intros c Hin.
    destruct (Hl c) as (? & ? & ?); [by right|]. split_and!; try done.
    tr_norm. intros [?| ->]%elem_of_snoc; done.
  - intros w p c rest0 Hw. destruct (Hpsub _ _ _ _ Hw) as [Hcs Hcl].
    specialize (Hcl _ Hc). split.
    + tr_norm. intros [?| ->]%elem_of_snoc; [done|]. apply Hcl. by left.
    + intros l [= <-] Hin. apply Hcl. by right.
  - tr_norm. intros c Hin. destruct (Hzsub c Hin) as [?|?]; [left | by right].
    apply elem_of_snoc. by left.
Qed.

Lemma Inv_caller_return tr s :
  Inv g0 tr s -> caller s = CPush [] ->
  mCompletedTasks (graph s) = Z.of_nat (length (mNodes (graph s))) ->
  Inv g0 (tr ++ [EReturn]) (mkSys (graph s) CReturned (world s)).
Proof.
  intros HI Hc Hdone. open_inv HI.
  constructor; unfold pending, threads; simpl; try kept.
  - intros w p c rest Hw. destruct (Hpsub _ _ _ _ Hw) as [Hcs Hcl].
    split; [by tr_norm | done].
  - intros _. tr_norm. apply static_length in Hstatic. lia.
Qed.

Lemma queue_head_fresh tr (q : list nat) n :
  NoDup (submitted tr) -> submitted tr = started tr ++ n :: q -> n ∉ started tr.
Proof.
  intros Hnd Heq. rewrite Heq in Hnd. apply NoDup_app in Hnd as (_ & Hdisj & _).
  intros Hn. apply (Hdisj n Hn). by left.
Qed.

Lemma Inv_pop tr s w n q :
  Inv g0 tr s ->
  mThreads (mPool (graph s)) !! w = Some Idle ->
  mQueue (mPool (graph s)) = n :: q ->
  Inv g0 (tr ++ [EStart n])
    (mkSys (set_mPool (mkThreadPool q (<[w := Busy n PTask]> (mThreads (mPool (graph s)))))
              (graph s))
       (caller s) (world s)).
Proof.
  intros HI Hw Hq. open_inv HI. rewrite Hq in Hqueue.
  pose proof (queue_head_fresh _ _ _ Hsub Hqueue) as Hfresh.
  constructor; unfold pending, threads; simpl; try kept.
  - tr_norm. rewrite Hqueue. by rewrite <- app_assoc.
  - intros w' p c rest [(_ & [=] & _)|[_ Hw']]%list_lookup_insert_Some.
    destruct (Hpsub _ _ _ _ Hw') as [Hcs Hcl]. split; [by tr_norm | done].
  - intros w1 w2 p1 p2 c r1 r2
      [(_ & [=] & _)|[_ Hw1]]%list_lookup_insert_Some
      [(_ & [=] & _)|[_ Hw2]]%list_lookup_insert_Some. eauto.
  - intros w' p ph [(-> & [= <- <-] & _)|[_ Hw']]%list_lookup_insert_Some; tr_norm.
    + split_and!.
      * apply elem_of_snoc. by right.
      * intros Hn. by apply Hfresh, Hfins.
      * tr_norm. by apply Hunst.
      * tr_norm. intros Hn. by apply Hfresh, Hrans.
    + destruct (Hbusy _ _ _ Hw') as (? & ? & ?). split_and!; [|done|].
      * apply elem_of_snoc. by left.
      * by rewrite phase_ok_quiet.
  - intros w1 w2 p ph1 ph2
      [(-> & [= <- <-] & _)|[_ Hw1]]%list_lookup_insert_Some
      [(-> & [= ] & _)|[_ Hw2]]%list_lookup_insert_Some; subst; try done.
    + destruct (Hbusy _ _ _ Hw2) as (? & _). done.
    + destruct (Hbusy _ _ _ Hw1) as (? & _). done.
    + eauto.
  - tr_norm. intros p Hp. apply elem_of_snoc. left. by apply Hfins.
  - tr_norm. intros p Hp. apply elem_of_snoc. left. by apply Hrans.
  - tr_norm. intros p Hp. tr_norm. apply Hunst. intros Hs.
    apply Hp, elem_of_snoc. by left.
  - tr_norm. intros c Hin. eapply zero_submit_keep; eauto.
Qed.

Lemma execute_task_static nd (w : W) nd' w' :
  execute_task nd w = Done (nd', w') ->
  static_part nd' = static_part nd /\ mPendingCount nd' = mPendingCount nd /\
  nArgs nd' = nArgs nd /\ mDescendantArguments nd' = mDescendantArguments nd.
Proof.
  unfold execute_task. destruct (mTask nd) as [f|f|f].
  - by intros [= <- _].
  - destruct (f w). by intros [= <- _].
  - case_decide; [done|]. destruct (f w).
    destruct (mDescendantTasks nd); by intros [= <- _].
Qed.

Lemma children_static (ns : list (TaskNode W V)) n nd :
  static_part <$> ns = static_part <$> mNodes g0 -> ns !! n = Some nd ->
  children g0 n = mDescendantArguments nd.
Proof.
  intros Hst Hn. destruct (static_lookup _ _ _ _ Hst Hn) as (nd0 & Hn0 & Heq).
  unfold children. rewrite Hn0. by apply static_part_fields in Heq as (_ & _ & ->).
Qed.

Lemma pending_insert_same (ns : list (TaskNode W V)) n nd nd' c :
  ns !! n = Some nd -> mPendingCount nd' = mPendingCount nd ->
  mPendingCount <$> <[n := nd']> ns !! c = mPendingCount <$> ns !! c.
Proof.
  intros Hn Heq. destruct (decide (n = c)) as [->|Hne].
  - rewrite list_lookup_insert_eq by (by eapply lookup_lt_Some).
    by rewrite Hn; simpl; rewrite Heq.
  - by rewrite list_lookup_insert_ne.
Qed.

Lemma Inv_run_done tr s w n nd nd' w' :
  Inv g0 tr s ->
  mThreads (mPool (graph s)) !! w = Some (Busy n PTask) ->
  mNodes (graph s) !! n = Some nd ->
  execute_task nd (world s) = Done (nd', w') ->
  Inv g0 (tr ++ [ETask n])
    (mkSys (set_worker w (Busy n (PNotify (mDescendantArguments nd')))
              (set_mNodes (<[n := nd']> (mNodes (graph s))) (graph s)))
       (caller s) w').
Proof.
  intros HI Hw Hn Hex. open_inv HI.
  destruct (execute_task_static _ _ _ _ Hex) as (Hst & Hpc & Hna & Hch).
  destruct (Hbusy _ _ _ Hw) as (Hns & Hnf & Hnfired & Hnran).
  assert (Hpsame : forall c, mPendingCount <$> <[n := nd']> (mNodes (graph s)) !! c
                             = mPendingCount <$> mNodes (graph s) !! c).
  { intros c. by eapply pending_insert_same. }
  constructor; unfold pending, threads; simpl; try kept.
  - rewrite <- Hstatic. by eapply static_insert.
  - intros c nd1 [(-> & <- & _)|[_ Hc]]%list_lookup_insert_Some.
    + rewrite Hpc, Hna, remaining_snoc_quiet by done. by apply Hpend.
    + rewrite remaining_snoc_quiet by done. by apply Hpend.
  - intros c Hc. tr_norm_all. rewrite Hpsame. by apply Hsubz.
  - intros c Hc. tr_norm_all. rewrite Hpsame. by apply Hzerop.
  - intros l Hl. destruct (Hcaller _ Hl) as [Hnd Hall]. split; [done|].
    intros c Hc. tr_norm. rewrite Hpsame. by apply Hall.
  - intros w1 p c rest [(_ & [=] & _)|[_ Hw1]]%list_lookup_insert_Some.
    destruct (Hpsub _ _ _ _ Hw1) as [Hcs Hcl]. split; [by tr_norm | done].
  - intros w1 w2 p1 p2 c r1 r2
      [(_ & [=] & _)|[_ Hw1]]%list_lookup_insert_Some
      [(_ & [=] & _)|[_ Hw2]]%list_lookup_insert_Some. eauto.
  - intros w1 p ph [(-> & [= <- <-] & _)|[Hne Hw1]]%list_lookup_insert_Some;
      unfold phase_ok; tr_norm.
    + split_and!; [done | done | | apply elem_of_snoc; by right].
      rewrite Hnfired, Hch. simpl.
      symmetry. by eapply children_static.
    + destruct (Hbusy _ _ _ Hw1) as (? & ? & Hph). split_and!; [done | done |].
      assert (p <> n) as Hpn by (intros ->; apply Hne; eauto).
      destruct ph as [|rest|c rest]; simpl in *; tr_norm.
      * destruct Hph as [? ?]. split; [done|].
        intros [?| ->]%elem_of_snoc; done.
      * destruct Hph as [? ?]. split; [done|]. apply elem_of_snoc. by left.
      * destruct Hph as (? & ? & ?). split_and!; [done | | done].
        apply elem_of_snoc. by left.
  - intros w1 w2 p ph1 ph2
      [(-> & [= <- <-] & _)|[_ Hw1]]%list_lookup_insert_Some
      [(-> & [= ] & _)|[_ Hw2]]%list_lookup_insert_Some; subst; try done.
    + eauto.
    + symmetry. eauto.
    + eauto.
  - tr_norm. intros p [?| ->]%elem_of_snoc; [by apply Hrans | done].
  - tr_norm. intros p Hp. tr_norm_all. apply elem_of_snoc. left. by apply Hfiredr.
  - tr_norm. intros c Hin. eapply zero_submit_keep; eauto.
Qed.

Lemma Inv_run_throw tr s w n :
  Inv g0 tr s ->
  mThreads (mPool (graph s)) !! w = Some (Busy n PTask) ->
  Inv g0 (tr ++ [EThrow n])
    (mkSys (set_worker w Idle (graph s)) (caller s) (world s)).
Proof.
  intros HI Hw. open_inv HI.
  destruct (Hbusy _ _ _ Hw) as (Hns & Hnf & Hnfired & Hnran).
  constructor; unfold pending, threads; simpl; try kept.
  - intros w1 p c rest [(_ & [=] & _)|[_ Hw1]]%list_lookup_insert_Some.
    destruct (Hpsub _ _ _ _ Hw1) as [Hcs Hcl]. split; [by tr_norm | done].
  - intros w1 w2 p1 p2 c r1 r2
      [(_ & [=] & _)|[_ Hw1]]%list_lookup_insert_Some
      [(_ & [=] & _)|[_ Hw2]]%list_lookup_insert_Some. eauto.
  - intros w1 p ph [(_ & [=] & _)|[Hne Hw1]]%list_lookup_insert_Some.
    destruct (Hbusy _ _ _ Hw1) as (? & ? & Hph).
    assert (p <> n) as Hpn by (intros ->; apply Hne; eauto).
    tr_norm. split_and!; [done | | by rewrite phase_ok_quiet].
    intros [?| ->]%elem_of_snoc; done.
  - intros w1 w2 p ph1 ph2
      [(_ & [=] & _)|[_ Hw1]]%list_lookup_insert_Some
      [(_ & [=] & _)|[_ Hw2]]%list_lookup_insert_Some. eauto.
  - tr_norm. by apply NoDup_snoc.
  - tr_norm. intros p [?| ->]%elem_of_snoc; [by apply Hfins | done].
  - tr_norm. intros p Hp. apply elem_of_snoc. left. by apply Hcomplf.
  - tr_norm. intros c Hin. eapply zero_submit_keep; eauto.
Qed.

Lemma Inv_submit tr s w n c rest :
  Inv g0 tr s ->
  mThreads (mPool (graph s)) !! w = Some (Busy n (PSubmit c rest)) ->
  Inv g0 (tr ++ [ESubmit c])
    (mkSys (set_worker w (Busy n (PNotify rest))
              (set_mPool (pool_push c (mPool (graph s))) (graph s)))
       (caller s) (world s)).
Proof.
  intros HI Hw. open_inv HI.
  destruct (Hbusy _ _ _ Hw) as (Hns & Hnf & Hnrest & Hnran & Hcz).
  destruct (Hpsub _ _ _ _ Hw) as [Hcs Hcl].
  constructor; unfold pending, threads; simpl; try kept.
  - tr_norm. rewrite Hqueue. by rewrite app_assoc.
  - tr_norm. by apply NoDup_snoc.
  - tr_norm. intros c' [Hin | ->]%elem_of_snoc; [by auto|]. by auto.
  - intros l Hl. destruct (Hcaller _ Hl) as [Hnd Hall]. split; [done|].
    intros c' Hin. destruct (Hall c' Hin) as (? & ? & ?). split_and!; try done.
    tr_norm. intros [?| ->]%elem_of_snoc; [done|]. by apply (Hcl l).
  - intros w1 p c' rest' [(_ & [=] & _)|[Hne Hw1]]%list_lookup_insert_Some.
    destruct (Hpsub _ _ _ _ Hw1) as [Hcs' Hcl']. split; [|done].
    tr_norm. intros [?| ->]%elem_of_snoc; [done|]. apply Hne. eauto.
  - intros w1 w2 p1 p2 c' r1 r2
      [(_ & [=] & _)|[_ Hw1]]%list_lookup_insert_Some
      [(_ & [=] & _)|[_ Hw2]]%list_lookup_insert_Some. eauto.
  - intros w1 p ph [(-> & [= <- <-] & _)|[Hne Hw1]]%list_lookup_insert_Some.
    + tr_norm. split_and!; try done; by tr_norm.
    + destruct (Hbusy _ _ _ Hw1) as (? & ? & Hph).
      tr_norm. split_and!; [done | done | by rewrite phase_ok_quiet].
  - intros w1 w2 p ph1 ph2
      [(-> & [= <- <-] & _)|[_ Hw1]]%list_lookup_insert_Some
      [(-> & [= ] & _)|[_ Hw2]]%list_lookup_insert_Some; subst; try done.
    + eauto.
    + symmetry. eauto.
    + eauto.
  - tr_norm. intros c' Hin. destruct (decide (c' = c)) as [->|Hne].
    + left. apply elem_of_snoc. by right.
    + apply (zero_submit_keep _ w _ (Busy n (PSubmit c rest)) c' (submitted tr));
        [done | by intros p rest' [= ] | | by apply Hzsub].
      intros ?. apply elem_of_snoc. by left.
Qed.

Lemma submitted_lt tr s c :
  Inv g0 tr s -> c ∈ submitted tr -> c < length (mNodes g0).
Proof.
  intros HI Hc. open_inv HI. destruct (Hsubz c Hc) as [Hp _].
  rewrite <- (static_length _ _ Hstatic).
  destruct (mNodes (graph s) !! c) eqn:Hl; [|done]. by eapply lookup_lt_Some.
Qed.

Lemma started_submitted tr s p :
  Inv g0 tr s -> p ∈ started tr -> p ∈ submitted tr.
Proof.
  intros HI Hp. rewrite (inv_queue _ _ _ HI). apply elem_of_app. by left.
Qed.

Lemma completed_lt tr s p :
  Inv g0 tr s -> p ∈ completed tr -> p < length (mNodes g0).
Proof.
  intros HI Hp. eapply submitted_lt, started_submitted; [done..|].
  by apply (inv_finished_started _ _ _ HI), (inv_completed_finished _ _ _ HI).
Qed.

Lemma Inv_complete tr s w n :
  Inv g0 tr s ->
  mThreads (mPool (graph s)) !! w = Some (Busy n (PNotify [])) ->
  Inv g0 (tr ++ [EComplete n])
    (mkSys (set_worker w Idle
              (set_mCompletedTasks (pre_incr (mCompletedTasks (graph s))) (graph s)))
       (caller s) (world s)).
Proof.
  intros HI Hw.
  assert (Hlt : forall p, p ∈ completed tr -> p < length (mNodes g0))
    by (intros; by eapply completed_lt).
  assert (Hnlt : n < length (mNodes g0)).
  { eapply submitted_lt, started_submitted; [done..|].
    by destruct (inv_busy _ _ _ HI _ _ _ Hw). }
  open_inv HI.
  destruct (Hbusy _ _ _ Hw) as (Hns & Hnf & Hnrest & Hnran).
  assert (Hnc : n ∉ completed tr) by (intros Hin; by apply Hnf, Hcomplf).
  assert (Hbound : length (completed tr ++ [n]) <= length (mNodes g0)).
  { apply nodup_bounded; [by apply NoDup_snoc|].
    intros x [?| ->]%elem_of_snoc; auto. }
  constructor; unfold pending, threads; simpl; try kept.
  - intros w1 p c rest [(_ & [=] & _)|[_ Hw1]]%list_lookup_insert_Some.
    destruct (Hpsub _ _ _ _ Hw1) as [Hcs Hcl]. split; [by tr_norm | done].
  - intros w1 w2 p1 p2 c r1 r2
      [(_ & [=] & _)|[_ Hw1]]%list_lookup_insert_Some
      [(_ & [=] & _)|[_ Hw2]]%list_lookup_insert_Some. eauto.
  - intros w1 p ph [(_ & [=] & _)|[Hne Hw1]]%list_lookup_insert_Some.
    destruct (Hbusy _ _ _ Hw1) as (? & ? & Hph).
    assert (p <> n) as Hpn by (intros ->; apply Hne; eauto).
    tr_norm. split_and!; [done | | by rewrite phase_ok_quiet].
    intros [?| ->]%elem_of_snoc; done.
  - intros w1 w2 p ph1 ph2
      [(_ & [=] & _)|[_ Hw1]]%list_lookup_insert_Some
      [(_ & [=] & _)|[_ Hw2]]%list_lookup_insert_Some. eauto.
  - tr_norm. by apply NoDup_snoc.
  - tr_norm. intros p [?| ->]%elem_of_snoc; [by apply Hfins | done].
  - tr_norm. rewrite Hcompl. unfold pre_incr, size_wrap.
    pose proof (wired_size _ Hwired). rewrite length_app in *. simpl in *.
    rewrite Z.mod_small by lia. lia.
  - tr_norm. intros p [?| ->]%elem_of_snoc; apply elem_of_snoc; [left | by right].
    by apply Hcomplf.
  - tr_norm. by apply NoDup_snoc.
  - intros Hr. specialize (Hret Hr). tr_norm.
    rewrite length_app in *. simpl in *. lia.
  - tr_norm. intros c Hin. eapply zero_submit_keep; eauto.
Qed.

Lemma fired_snoc_notify tr n c v p :
  fired p (tr ++ [ENotify n c v])
  = fired p tr ++ (if decide (n = p) then [c] else []).
Proof. rewrite fired_snoc. simpl. by case_decide. Qed.

Lemma remaining_snoc_notify tr n c v rest c' :
  n < length (mNodes g0) ->
  drop (length (fired n tr)) (children g0 n) = c :: rest ->
  remaining g0 tr c'
  = remaining g0 (tr ++ [ENotify n c v]) c' + (if decide (c = c') then 1 else 0).
Proof.
  intros Hn Hdrop. unfold remaining.
  destruct (drop_head_take _ _ _ _ Hdrop) as [_ Hdrop'].
  case_decide as Hc.
  - subst c'. rewrite Nat.add_1_r. apply (sum_upto_pred _ _ _ n); [done| |].
    + intros i Hi. rewrite fired_snoc_notify.
      rewrite decide_False by done. by rewrite app_nil_r.
    + rewrite fired_snoc_notify, decide_True by done.
      rewrite length_app, Nat.add_1_r, Hdrop', Hdrop, count_cons.
      by rewrite decide_True.
  - rewrite Nat.add_0_r. apply sum_upto_ext. intros i _.
    rewrite fired_snoc_notify. case_decide as Hi.
    + subst i. rewrite length_app, Nat.add_1_r, Hdrop', Hdrop, count_cons.
      by rewrite decide_False.
    + by rewrite app_nil_r.
Qed.

Lemma remaining_pos tr n c rest :
  n < length (mNodes g0) ->
  drop (length (fired n tr)) (children g0 n) = c :: rest ->
  0 < remaining g0 tr c.
Proof.
  intros Hn Hdrop. unfold remaining.
  eapply Nat.lt_le_trans;
    [|apply (sum_upto_ge (fun p => count c (drop (length (fired p tr)) (children g0 p))) _ n Hn)].
  simpl. rewrite Hdrop, count_cons, decide_True by done. lia.
Qed.

Lemma pre_decr_exact (x : nat) :
  0 < x -> (Z.of_nat x < 2 ^ 64)%Z -> pre_decr (Z.of_nat x) = Z.of_nat (x - 1).
Proof.
  intros Hx Hb. unfold pre_decr, size_wrap. rewrite Z.mod_small by lia. lia.
Qed.

Lemma Inv_notify tr s w n c rest cd :
  Inv g0 tr s ->
  mThreads (mPool (graph s)) !! w = Some (Busy n (PNotify (c :: rest))) ->
  mNodes (graph s) !! c = Some cd ->
  let v := pre_decr (mPendingCount cd) in
  Inv g0 (tr ++ [ENotify n c v])
    (mkSys (set_worker w
              (Busy n (if decide (v = 0%Z) then PSubmit c rest else PNotify rest))
              (set_mNodes (<[c := set_mPendingCount v cd]> (mNodes (graph s))) (graph s)))
       (caller s) (world s)).
Proof.
  intros HI Hw Hc v.
  assert (Hvdef : v = pre_decr (mPendingCount cd)) by done. clearbody v.
  assert (Hnlt : n < length (mNodes g0)).
  { eapply submitted_lt, started_submitted; [done..|].
    by destruct (inv_busy _ _ _ HI _ _ _ Hw). }
  open_inv HI.
  destruct (Hbusy _ _ _ Hw) as (Hns & Hnf & Hnrest & Hnran).
  symmetry in Hnrest.
  pose proof (remaining_pos _ _ _ _ Hnlt Hnrest) as Hpos.
  pose proof (fun c' => remaining_snoc_notify tr n c v rest c' Hnlt Hnrest) as Hrem.
  destruct (drop_head_take _ _ _ _ Hnrest) as [Htake Hdrop'].
  (* the counter before the decrement, and the decrement *)
  destruct (static_lookup _ _ _ _ Hstatic Hc) as (cd0 & Hc0 & Hcst).
  apply static_part_fields in Hcst as (Hna & Hpc & _).
  destruct (wired_count _ Hwired _ _ Hc0) as [Hcount Hcbound].
  pose proof (remaining_le g0 tr c) as Hle.
  pose proof (Hpend _ _ Hc) as Hcd.
  assert (Hv : v = Z.of_nat (nArgs cd + remaining g0 (tr ++ [ENotify n c v]) c)).
  { rewrite Hvdef at 1. rewrite Hcd. rewrite pre_decr_exact by lia.
    f_equal. specialize (Hrem c). rewrite decide_True in Hrem by done. lia. }
  assert (Hnz : mPendingCount cd <> 0%Z) by lia.
  assert (Hother : forall c', mPendingCount <$> mNodes (graph s) !! c' = Some 0%Z ->
            mPendingCount <$> <[c := set_mPendingCount v cd]> (mNodes (graph s)) !! c'
            = Some 0%Z).
  { intros c' Hc'. rewrite list_lookup_insert_ne; [done|].
    intros ->. rewrite Hc in Hc'. simpl in Hc'. congruence. }
  assert (Hzs : forall c' l, c' ∈ zero_seen tr -> c' ∈ zero_seen tr ++ l).
  { intros c' l Hc'. apply elem_of_app. by left. }
  assert (Hcnz : c ∉ zero_seen tr).
  { intros Hin. apply Hzerop in Hin. rewrite Hc in Hin. simpl in Hin. congruence. }
  constructor; unfold pending, threads; simpl; try kept.
  - (* static *)
    rewrite <- Hstatic. by eapply static_insert.
  - (* pending *)
    intros c' nd1 [(-> & <- & _)|[Hne Hc']]%list_lookup_insert_Some.
    + done.
    + specialize (Hrem c'). rewrite decide_False in Hrem by done.
      rewrite Nat.add_0_r in Hrem. rewrite <- Hrem. by apply Hpend.
  - (* notified *)
    intros c'. rewrite notified_snoc_notify. specialize (Hrem c').
    specialize (Hnotif c'). lia.
  - (* submitted_zero *)
    tr_norm. intros c' Hc'. destruct (Hsubz c' Hc') as [Hz Hor].
    split; [by apply Hother|]. destruct Hor; [by left | right; by apply Hzs].
  - (* zero *)
    tr_norm. case_decide; [by apply NoDup_snoc | by rewrite app_nil_r].
  - (* zero_pending *)
    tr_norm. intros c' Hc'. case_decide as Hv0.
    + apply elem_of_snoc in Hc' as [Hc'| ->]; [by apply Hother, Hzerop|].
      rewrite list_lookup_insert_eq by (by eapply lookup_lt_Some). simpl.
      by rewrite Hv0.
    + rewrite app_nil_r in Hc'. by apply Hother, Hzerop.
  - (* caller *)
    intros l Hl. destruct (Hcaller _ Hl) as [Hnd Hall]. split; [done|].
    intros c' Hin. destruct (Hall c' Hin) as (? & ? & ?).
    split_and!; [by tr_norm | by apply Hother | done].
  - (* psubmit *)
    intros w1 p c' rest' [(-> & Heq & _)|[Hne Hw1]]%list_lookup_insert_Some.
    + case_decide; [|done]. injection Heq as <- <- <-. tr_norm. split.
      * intros Hin. apply Hsubz in Hin as [Hin _].
        rewrite Hc in Hin. simpl in Hin. congruence.
      * intros l Hl Hin. destruct (Hcaller _ Hl) as [_ Hall].
        destruct (Hall c Hin) as (_ & Hz & _).
        rewrite Hc in Hz. simpl in Hz. congruence.
    + destruct (Hpsub _ _ _ _ Hw1) as [Hcs Hcl]. split; [by tr_norm | done].
  - (* psubmit_uniq *)
    assert (Hold : forall w1 p1 r1,
              mThreads (mPool (graph s)) !! w1 = Some (Busy p1 (PSubmit c r1)) -> False).
    { intros w1 p1 r1 Hw1. destruct (Hbusy _ _ _ Hw1) as (_ & _ & _ & _ & Hz). done. }
    intros w1 w2 p1 p2 c' r1 r2
      [(-> & Heq1 & _)|[_ Hw1]]%list_lookup_insert_Some
      [(-> & Heq2 & _)|[_ Hw2]]%list_lookup_insert_Some; try done.
    + case_decide; [|done]. injection Heq1 as <- <- <-. exfalso. eauto.
    + case_decide; [|done]. injection Heq2 as <- <- <-. exfalso. eauto.
    + eauto.
  - (* busy *)
    intros w1 p ph [(-> & Heq & _)|[Hne Hw1]]%list_lookup_insert_Some.
    + assert (Hrest' : rest = drop (length (fired n (tr ++ [ENotify n c v]))) (children g0 n)).
      { rewrite fired_snoc_notify, decide_True by done.
        by rewrite length_app, Nat.add_1_r. }
      injection Heq as <- <-. tr_norm. split_and!; [done | done |].
      case_decide as Hv0; simpl; tr_norm; rewrite decide_True by done.
      * split_and!; [by rewrite length_app, Nat.add_1_r | done |].
        rewrite decide_True by done. apply elem_of_snoc. by right.
      * split; [by rewrite length_app, Nat.add_1_r | done].
    + destruct (Hbusy _ _ _ Hw1) as (? & ? & Hph).
      assert (p <> n) as Hpn by (intros ->; apply Hne; eauto).
      tr_norm. split_and!; [done | done |].
      unfold phase_ok. rewrite fired_snoc_notify, decide_False by done.
      rewrite app_nil_r. tr_norm.
      destruct ph as [|rest'|c' rest']; simpl in *; try done.
      destruct Hph as (? & ? & ?). split_and!; [done | done |].
      apply elem_of_app. by left.
  - (* busy_uniq *)
    intros w1 w2 p ph1 ph2
      [(-> & Heq1 & _)|[_ Hw1]]%list_lookup_insert_Some
      [(-> & Heq2 & _)|[_ Hw2]]%list_lookup_insert_Some; try done.
    + injection Heq1 as <- _. eauto.
    + injection Heq2 as <- _. symmetry. eauto.
    + eauto.
  - (* unstarted *)
    intros p Hp. rewrite fired_snoc_notify. tr_norm_in Hp.
    rewrite decide_False by (intros ->; done). rewrite app_nil_r. by apply Hunst.
  - (* fired *)
    intros p. rewrite fired_snoc_notify. case_decide as Hp.
    + subst p. rewrite length_app, Nat.add_1_r, Htake. f_equal. apply Hfired.
    + rewrite app_nil_r. apply Hfired.
  - (* fired_ran *)
    intros p. rewrite fired_snoc_notify, ran_snoc. simpl. case_decide as Hp.
    + subst p. by rewrite app_nil_r.
    + rewrite !app_nil_r. apply Hfiredr.
  - (* zero_submit *)
    tr_norm. intros c' Hin.
    assert (Hkeep : c' ∈ zero_seen tr ->
      c' ∈ submitted tr \/
      exists w1 p rest',
        <[w := Busy n (if decide (v = 0%Z) then PSubmit c rest else PNotify rest)]>
          (mThreads (mPool (graph s))) !! w1 = Some (Busy p (PSubmit c' rest'))).
    { intros Hold. eapply zero_submit_keep; eauto. }
    case_decide as Hv0.
    + apply elem_of_snoc in Hin as [Hin| ->]; [by apply Hkeep|].
      right. exists w, n, rest. apply list_lookup_insert_eq. by eapply lookup_lt_Some.
    + rewrite app_nil_r in Hin. by apply Hkeep.
Qed.

Lemma Inv_step tr s l ev s' :
  Inv g0 tr s -> step l s = Some (ev, s') -> Inv g0 (tr ++ [ev]) s'.
Proof.
  intros HI Hstep. destruct l as [| |w|w|w|w|w]; simpl in Hstep.
  - destruct (caller s) as [[|n rest]|] eqn:Hc; simplify_eq.
    by apply Inv_caller_push.
  - destruct (caller s) as [[|n rest]|] eqn:Hc; simplify_eq.
    case_decide; simplify_eq. by apply Inv_caller_return.
  - destruct (mThreads (mPool (graph s)) !! w) as [[|n ph]|] eqn:Hw; simplify_eq.
    destruct (mQueue (mPool (graph s))) as [|n q] eqn:Hq; simplify_eq/=.
    by apply Inv_pop.
  - destruct (mThreads (mPool (graph s)) !! w) as [[|n [|rest|c rest]]|] eqn:Hw;
      simplify_eq.
    destruct (mNodes (graph s) !! n) as [nd|] eqn:Hn; simplify_eq.
    destruct (execute_task nd (world s)) as [[nd' w']|what] eqn:Hex; simplify_eq.
    + by eapply Inv_run_done.
    + by apply Inv_run_throw.
  - destruct (mThreads (mPool (graph s)) !! w) as [[|n [|[|c rest]|c rest]]|] eqn:Hw;
      simplify_eq.
    destruct (mNodes (graph s) !! c) as [cd|] eqn:Hc; simplify_eq.
    by apply Inv_notify.
  - destruct (mThreads (mPool (graph s)) !! w) as [[|n [|rest|c rest]]|] eqn:Hw;
      simplify_eq.
    by apply Inv_submit.
  - destruct (mThreads (mPool (graph s)) !! w) as [[|n [|[|c rest]|c rest]]|] eqn:Hw;
      simplify_eq.
    by apply Inv_complete.
Qed.

Lemma Inv_run_from tr0 s0 tr s :
  Inv g0 tr0 s0 -> run s0 tr s -> Inv g0 (tr0 ++ tr) s.
Proof.
  intros H0 Hrun. induction Hrun as [|tr s l ev s' _ IH Hstep].
  - by rewrite app_nil_r.
  - rewrite app_assoc. by eapply Inv_step.
Qed.

End Steps.

Section Runs.
Context {W V : Type}.
Implicit Types (g : TaskGraph W V) (s : Sys W V) (tr : list Event).

Lemma Inv_run g w0 tr s :
  armed g -> run (execute_begin g w0) tr s -> Inv g tr s.
Proof.
  intros Harmed Hrun.
  apply (Inv_run_from g (armed_wired _ Harmed) [] (execute_begin g w0) tr s);
    [by apply Inv_init | done].
Qed.

(** An execution can be cut after any of its events. *)
Lemma run_prefix s0 tr1 tr2 s :
  run s0 (tr1 ++ tr2) s -> exists s1, run s0 tr1 s1 /\ run s1 tr2 s.
Proof.
  revert s. induction tr2 as [|e tr2 IH] using rev_ind; intros s Hrun.
  - rewrite app_nil_r in Hrun. exists s. split; [done | constructor].
  - rewrite app_assoc in Hrun. inversion Hrun as [Heq|tr' s' l ev s'' Hrun' Hstep Heq];
      [by destruct tr1, tr2|].
    apply app_inj_tail in Heq as [-> ->].
    destruct (IH _ Hrun') as (s1 & H1 & H2). exists s1. split; [done|].
    by econstructor.
Qed.

Lemma run_last s0 tr e s :
  run s0 (tr ++ [e]) s -> exists s1 l, run s0 tr s1 /\ step l s1 = Some (e, s).
Proof.
  intros Hrun. inversion Hrun as [Heq|tr' s' l ev s'' Hrun' Hstep Heq];
    [by destruct tr|].
  apply app_inj_tail in Heq as [-> ->]. eauto.
Qed.

End Runs.

(** *** What the invariant gives *)

Section ExecFacts.
Context {W V : Type}.
Implicit Types (g : TaskGraph W V) (s : Sys W V) (nd : TaskNode W V)
  (tr : list Event) (c p n : nat).

Lemma children_ge g p : length (mNodes g) <= p -> children g p = [].
Proof. intros Hp. unfold children. by rewrite lookup_ge_None_2. Qed.

Lemma indegree_zero g c p : indegree g c = 0 -> c ∉ children g p.
Proof.
  intros Hz. destruct (decide (p < length (mNodes g))) as [Hp|Hp].
  - apply count_zero.
    pose proof (sum_upto_ge (fun p => count c (children g p)) _ p Hp) as Hle.
    unfold indegree in Hz. simpl in Hle. lia.
  - rewrite children_ge by lia. apply not_elem_of_nil.
Qed.

(** A node whose counter is at zero has been notified through every
    registration. *)
Lemma all_fired g tr s n :
  Inv g tr s -> pending s n = Some 0%Z ->
  forall p, count n (fired p tr) = count n (children g p).
Proof.
  intros HI Hz p. unfold pending in Hz.
  destruct (mNodes (graph s) !! n) as [nd|] eqn:Hn; [|done].
  injection Hz as Hz. pose proof (inv_pending _ _ _ HI _ _ Hn) as Hp.
  assert (remaining g tr n = 0) as Hrem by lia.
  rewrite (inv_fired _ _ _ HI p) at 1.
  rewrite (count_take_drop n (length (fired p tr)) (children g p)).
  destruct (decide (p < length (mNodes g))) as [Hlt|Hge].
  - pose proof (sum_upto_ge
      (fun p => count n (drop (length (fired p tr)) (children g p))) _ p Hlt) as Hle.
    unfold remaining in Hrem. simpl in Hle. lia.
  - rewrite children_ge by lia. by rewrite drop_nil.
Qed.

Lemma parents_ran g tr s n p :
  Inv g tr s -> pending s n = Some 0%Z -> n ∈ children g p -> p ∈ ran tr.
Proof.
  intros HI Hz Hin. apply (inv_fired_ran _ _ _ HI).
  pose proof (all_fired _ _ _ _ HI Hz p) as Hcount.
  apply count_pos in Hin. intros Hnil. rewrite Hnil in Hcount.
  unfold count in Hcount at 1. simpl in Hcount. lia.
Qed.

Lemma step_notify_pending l s p c v s' :
  step l s = Some (ENotify p c v, s') -> pending s' c = Some v.
Proof.
  intros Hstep. destruct l as [| |w|w|w|w|w]; simpl in Hstep;
    repeat case_match; simplify_eq.
  all: unfold pending; simpl.
  all: rewrite list_lookup_insert_eq by (by eapply lookup_lt_Some); done.
Qed.

Lemma pending_exact g tr s c nd :
  wired g -> Inv g tr s -> mNodes (graph s) !! c = Some nd ->
  (0 <= mPendingCount nd)%Z /\
  mPendingCount nd = (mParentCount nd - Z.of_nat (notified c tr))%Z.
Proof.
  intros Hw HI Hc. pose proof (inv_pending _ _ _ HI _ _ Hc) as Hp.
  split; [lia|].
  destruct (static_lookup _ _ _ _ (inv_static _ _ _ HI) Hc) as (nd0 & Hc0 & Hst).
  apply static_part_fields in Hst as (Hna & Hpc & _).
  destruct (wired_count _ Hw _ _ Hc0) as [Hcount _].
  pose proof (inv_notified _ _ _ HI c). lia.
Qed.

End ExecFacts.

Section ExecTheorems.
Context {W V : Type}.
Implicit Types (g : TaskGraph W V) (s : Sys W V) (nd : TaskNode W V)
  (tr : list Event) (c p n : nat).

(** C2: whenever a node is submitted to the pool, popped by a worker, or its
    task is run, each node [p] it was registered on by [setParent] has run
    its own task before and has called the node's [onArgumentReady] once per
    registration.  A submission is either one of the initial pushes of
    [execute], for a node whose counter was zero on entry and which has no
    parent, or follows a decrement of the node's counter that gave zero; and
    a node is popped or run only after it was submitted. *)
Theorem parents_first g (w0 : W) pre e post s n :
  armed g -> run (execute_begin g w0) (pre ++ e :: post) s ->
  e = ESubmit n \/ e = EStart n \/ e = ETask n ->
  (forall p, n ∈ children g p ->
     p ∈ ran pre /\ count n (fired p pre) = count n (children g p)) /\
  (e = ESubmit n ->
     (n ∈ initialNodes g /\ forall p, n ∉ children g p) \/ n ∈ zero_seen pre) /\
  (e <> ESubmit n -> n ∈ submitted pre).
Proof.
  intros Harmed Hrun He.
  replace (pre ++ e :: post) with ((pre ++ [e]) ++ post) in Hrun
    by (by rewrite <- app_assoc).
  apply run_prefix in Hrun as (s1 & Hrun1 & _).
  pose proof (Inv_run _ _ _ _ Harmed Hrun1) as HI1.
  apply run_prefix in Hrun1 as (s0 & Hrun0 & _).
  pose proof (Inv_run _ _ _ _ Harmed Hrun0) as HI0.
  assert (Hsub1 : n ∈ submitted (pre ++ [e])).
  { destruct He as [->|[->| ->]].
    - rewrite submitted_snoc. apply elem_of_app. right. by left.
    - eapply started_submitted; [done|]. rewrite started_snoc.
      apply elem_of_app. right. by left.
    - eapply started_submitted; [done|]. apply (inv_ran_started _ _ _ HI1).
      rewrite ran_snoc. apply elem_of_app. right. by left. }
  destruct (inv_submitted_zero _ _ _ HI1 n Hsub1) as [Hz Hcause].
  assert (Hquiet : forall p, fired p (pre ++ [e]) = fired p pre).
  { intros p. rewrite fired_snoc.
    destruct He as [->|[->| ->]]; simpl; by rewrite app_nil_r. }
  assert (Hcount : forall p, count n (fired p pre) = count n (children g p)).
  { intros p. rewrite <- Hquiet. by eapply all_fired. }
  split_and!.
  - intros p Hp. split; [|done]. apply (inv_fired_ran _ _ _ HI0).
    apply count_pos in Hp. intros Hnil. specialize (Hcount p).
    rewrite Hnil in Hcount. unfold count in Hcount at 1. simpl in Hcount. lia.
  - intros ->. destruct Hcause as [Hinit|Hzero].
    + left. split; [done|]. apply initialNodes_spec in Hinit as (nd & Hn & Hnz).
      destruct (wired_count _ (armed_wired _ Harmed) _ _ Hn) as [Hc _].
      rewrite <- (armed_pending _ Harmed _ _ Hn), Hnz in Hc.
      intros p. apply indegree_zero. lia.
    + right. rewrite zero_seen_snoc in Hzero. simpl in Hzero.
      by rewrite app_nil_r in Hzero.
  - intros Hne. rewrite submitted_snoc in Hsub1.
    destruct He as [->|[->| ->]]; [done | |]; simpl in Hsub1;
      by rewrite app_nil_r in Hsub1.
Qed.

(** C3: during an execution the counter of a node is its parent count minus
    the notifications it got, computed without wrap-around: every decrement
    starts above zero.  For every node the decrement gives zero at most once,
    the node is submitted at most once, a decrement that gave zero is
    followed by the submission (the worker is inside [onArgumentReady]
    until then), a submitted node keeps its counter at zero, and when
    [execute] returns every node has been submitted. *)
Theorem pending_one_shot g (w0 : W) tr s :
  armed g -> run (execute_begin g w0) tr s ->
  (forall c nd, mNodes (graph s) !! c = Some nd ->
     (0 <= mPendingCount nd)%Z /\
     mPendingCount nd = (mParentCount nd - Z.of_nat (notified c tr))%Z) /\
  (forall pre p c v post, tr = pre ++ ENotify p c v :: post ->
     exists nd, mNodes g !! c = Some nd /\ (0 <= v)%Z /\
       v = (mParentCount nd - Z.of_nat (notified c pre) - 1)%Z) /\
  NoDup (zero_seen tr) /\
  NoDup (submitted tr) /\
  (forall c, c ∈ zero_seen tr ->
     c ∈ submitted tr \/
     exists w p rest, threads s !! w = Some (Busy p (PSubmit c rest))) /\
  (forall c, c ∈ submitted tr -> pending s c = Some 0%Z) /\
  (caller s = CReturned ->
     forall c, c < length (mNodes g) -> c ∈ submitted tr).
Proof.
  intros Harmed Hrun. pose proof (Inv_run _ _ _ _ Harmed Hrun) as HI.
  pose proof (armed_wired _ Harmed) as Hw.
  split_and!.
  - intros c nd Hc. by eapply pending_exact.
  - intros pre p c v post ->.
    replace (pre ++ ENotify p c v :: post)
      with ((pre ++ [ENotify p c v]) ++ post) in Hrun by (by rewrite <- app_assoc).
    apply run_prefix in Hrun as (s1 & Hrun1 & _).
    pose proof (Inv_run _ _ _ _ Harmed Hrun1) as HI1.
    apply run_last in Hrun1 as (s0 & l & Hrun0 & Hstep).
    apply step_notify_pending in Hstep. unfold pending in Hstep.
    destruct (mNodes (graph s1) !! c) as [nd1|] eqn:Hc1; [|done].
    injection Hstep as Hv.
    destruct (static_lookup _ _ _ _ (inv_static _ _ _ HI1) Hc1) as (nd0 & Hc0 & Hst).
    apply static_part_fields in Hst as (_ & Hpc & _).
    destruct (pending_exact _ _ _ _ _ Hw HI1 Hc1) as [Hpos Heq].
    exists nd0. split; [done|]. rewrite notified_snoc_notify in Heq.
    rewrite decide_True in Heq by done. lia.
  - apply (inv_zero _ _ _ HI).
  - apply (inv_submitted _ _ _ HI).
  - apply (inv_zero_submit _ _ _ HI).
  - intros c Hc. by apply (inv_submitted_zero _ _ _ HI).
  - intros Hret c Hc. eapply started_submitted; [done|].
    apply (inv_finished_started _ _ _ HI), (inv_completed_finished _ _ _ HI).
    eapply nodup_full; [apply (inv_completed_nodup _ _ _ HI) | | by apply (inv_returned _ _ _ HI) | done].
    intros x Hx. by eapply completed_lt.
Qed.

(** C4: a node whose callable takes arguments starts with a counter of its
    arity plus its registrations; the counter never gets below the arity, so
    the node is not among the initial nodes, is never submitted and never
    run, and [execute] does not return. *)
Theorem arity_blocks g (w0 : W) tr s b nd :
  armed g -> mNodes g !! b = Some nd -> 0 < nArgs nd ->
  run (execute_begin g w0) tr s ->
  mPendingCount nd = Z.of_nat (nArgs nd + indegree g b) /\
  (exists nd', mNodes (graph s) !! b = Some nd' /\
     (Z.of_nat (nArgs nd) <= mPendingCount nd')%Z) /\
  (b ∉ initialNodes g) /\ (b ∉ submitted tr) /\ (b ∉ ran tr) /\
  caller s <> CReturned.
Proof.
  intros Harmed Hb Harity Hrun. pose proof (Inv_run _ _ _ _ Harmed Hrun) as HI.
  pose proof (armed_wired _ Harmed) as Hw.
  assert (Hlen : length (mNodes (graph s)) = length (mNodes g))
    by apply (static_length _ _ (inv_static _ _ _ HI)).
  destruct (mNodes (graph s) !! b) as [nd'|] eqn:Hb'.
  2:{ apply lookup_ge_None in Hb'. apply lookup_lt_Some in Hb. lia. }
  destruct (static_lookup _ _ _ _ (inv_static _ _ _ HI) Hb') as (nd0 & Hb0 & Hst).
  assert (nd0 = nd) as -> by congruence.
  apply static_part_fields in Hst as (Hna & _ & _).
  pose proof (inv_pending _ _ _ HI _ _ Hb') as Hp.
  assert (Hns : b ∉ submitted tr).
  { intros Hin. destruct (inv_submitted_zero _ _ _ HI b Hin) as [Hz _].
    unfold pending in Hz. rewrite Hb' in Hz. simpl in Hz. injection Hz as Hz. lia. }
  split_and!.
  - rewrite (armed_pending _ Harmed _ _ Hb).
    by destruct (wired_count _ Hw _ _ Hb) as [-> _].
  - exists nd'. split; [done | lia].
  - intros Hin. apply initialNodes_spec in Hin as (nd1 & Hb1 & Hz).
    assert (nd1 = nd) as -> by congruence.
    rewrite (armed_pending _ Harmed _ _ Hb) in Hz.
    destruct (wired_count _ Hw _ _ Hb) as [Hc _]. lia.
  - done.
  - intros Hin. apply Hns. eapply started_submitted; [done|].
    by apply (inv_ran_started _ _ _ HI).
  - intros Hret. apply Hns. eapply started_submitted; [done|].
    apply (inv_finished_started _ _ _ HI), (inv_completed_finished _ _ _ HI).
    eapply nodup_full; [apply (inv_completed_nodup _ _ _ HI) | | by apply (inv_returned _ _ _ HI) | by eapply lookup_lt_Some].
    intros x Hx. by eapply completed_lt.
Qed.

End ExecTheorems.

(** ** Building a graph: [makeTaskNode] and [setParent] keep it armed *)

Section Building.
Context {W V : Type}.
Implicit Types (g : TaskGraph W V) (nd : TaskNode W V) (c p n : nat).

Lemma sum_upto_zero (f : nat -> nat) n :
  (forall i, i < n -> f i = 0) -> sum_upto f n = 0.
Proof.
  induction n as [|n IH]; intros Hf; simpl; [done|].
  rewrite IH, Hf by auto with lia. done.
Qed.

Lemma armed_new_graph (xi_count : nat) : armed (new_graph (W := W) (V := V) xi_count).
Proof.
  constructor; [constructor|..]; simpl; try done.
  - intros p c Hc. by apply elem_of_nil in Hc.
  - intros w x [-> _]%lookup_replicate. done.
Qed.

Lemma children_makeTaskNode g t arity name p :
  children (fst (makeTaskNode t arity name g)) p = children g p.
Proof.
  unfold children; simpl.
  destruct (decide (p < length (mNodes g))) as [Hp|Hp].
  - by rewrite lookup_app_l.
  - rewrite (lookup_ge_None_2 (mNodes g)) by lia.
    destruct (decide (p = length (mNodes g))) as [->|Hne].
    + by rewrite list_lookup_middle.
    + rewrite lookup_ge_None_2; [done|]. rewrite length_app. simpl. lia.
Qed.

Lemma indegree_fresh g c :
  (forall p c', c' ∈ children g p -> c' < length (mNodes g)) ->
  length (mNodes g) <= c -> indegree g c = 0.
Proof.
  intros Hch Hc. apply sum_upto_zero. intros p _. apply count_zero.
  intros Hin. apply Hch in Hin. lia.
Qed.

Lemma indegree_makeTaskNode g t arity name c :
  indegree (fst (makeTaskNode t arity name g)) c = indegree g c.
Proof.
  unfold indegree. simpl. rewrite length_app, Nat.add_1_r. simpl.
  rewrite (sum_upto_ext _ (fun p => count c (children g p)))
    by (intros; apply f_equal, children_makeTaskNode).
  pose proof (children_makeTaskNode g t arity name (length (mNodes g))) as Hlast.
  simpl in Hlast. rewrite Hlast, children_ge, count_nil by done. lia.
Qed.

Lemma armed_makeTaskNode g t arity name :
  armed g ->
  (Z.of_nat arity < 2 ^ 64)%Z ->
  (Z.of_nat (S (length (mNodes g))) < 2 ^ 64)%Z ->
  armed (fst (makeTaskNode t arity name g)).
Proof.
  intros [[Hcount Hch Hsize] Hpend Hcompl Hqueue Hidle] Harity Hlen.
  constructor; [constructor|..]; try done.
  - intros c nd. rewrite indegree_makeTaskNode. simpl.
    intros [[_ Hc]|[-> <-]]%lookup_snoc_Some; [by apply Hcount|].
    simpl. unfold size_wrap. rewrite Z.mod_small by lia.
    rewrite indegree_fresh by done. split; [lia | done].
  - intros p c. rewrite children_makeTaskNode. intros Hc%Hch.
    simpl. rewrite length_app. simpl. lia.
  - simpl. rewrite length_app. simpl. lia.
  - simpl. intros c nd [[_ Hc]|[-> <-]]%lookup_snoc_Some; [by eapply Hpend | done].
Qed.

Lemma setParent_Some this_ xi_parent g g' :
  setParent this_ xi_parent g = Some g' ->
  this_ < length (mNodes g) /\ xi_parent < length (mNodes g) /\
  length (mNodes g') = length (mNodes g) /\
  mPool g' = mPool g /\ mCompletedTasks g' = mCompletedTasks g /\
  forall c, mNodes g' !! c = wire this_ xi_parent c <$> mNodes g !! c.
Proof.
  unfold setParent. case_decide as Hlt; [|done]. intros [= <-]. simpl.
  destruct Hlt as [Ht Hp]. split_and!; try done.
  - by rewrite !length_alter.
  - intros c. unfold wire.
    destruct (decide (xi_parent = c)) as [->|Hpc];
      destruct (decide (this_ = c)) as [->|Htc];
      repeat first [rewrite list_lookup_alter_eq
                   | rewrite list_lookup_alter_ne by done];
      destruct (mNodes g !! c); simpl; done.
Qed.

Lemma children_setParent this_ xi_parent g g' p :
  setParent this_ xi_parent g = Some g' ->
  children g' p
  = children g p ++ (if decide (xi_parent = p) then [this_] else []).
Proof.
  intros (Ht & Hp & Hlen & _ & _ & Hlook)%setParent_Some.
  unfold children. rewrite Hlook.
  destruct (mNodes g !! p) as [nd|] eqn:Hnd; simpl.
  - unfold wire. destruct (decide (xi_parent = p)); destruct (decide (this_ = p));
      simpl; by rewrite ?app_nil_r.
  - apply lookup_ge_None in Hnd. rewrite decide_False by lia. done.
Qed.

Lemma indegree_setParent this_ xi_parent g g' c :
  setParent this_ xi_parent g = Some g' ->
  indegree g' c = indegree g c + (if decide (this_ = c) then 1 else 0).
Proof.
  intros Hset. pose proof (setParent_Some _ _ _ _ Hset) as (Ht & Hp & Hlen & _).
  unfold indegree. rewrite Hlen. case_decide as Hc.
  - subst c. rewrite Nat.add_1_r. apply (sum_upto_pred _ _ _ xi_parent); [done| |].
    + intros i Hi. rewrite (children_setParent _ _ _ _ _ Hset).
      rewrite decide_False by done. by rewrite app_nil_r.
    + rewrite (children_setParent _ _ _ _ _ Hset), decide_True by done.
      rewrite count_app, count_cons, decide_True, count_nil by done. lia.
  - rewrite Nat.add_0_r. apply sum_upto_ext. intros i _.
    rewrite (children_setParent _ _ _ _ _ Hset), count_app.
    case_decide; [|rewrite count_nil; lia].
    rewrite count_cons, decide_False, count_nil by done. lia.
Qed.

Lemma armed_setParent this_ xi_parent g g' :
  armed g -> setParent this_ xi_parent g = Some g' ->
  (forall nd, mNodes g !! this_ = Some nd -> (mParentCount nd + 1 < 2 ^ 64)%Z) ->
  armed g'.
Proof.
  intros [[Hcount Hch Hsize] Hpend Hcompl Hqueue Hidle] Hset Hroom.
  pose proof (setParent_Some _ _ _ _ Hset) as (Ht & Hp & Hlen & Hpool & Hcmp & Hlook).
  constructor; [constructor|..].
  - intros c nd'. rewrite Hlook, (indegree_setParent _ _ _ _ _ Hset).
    destruct (mNodes g !! c) as [nd|] eqn:Hc; [|done]. simpl. intros [= <-].
    destruct (Hcount _ _ Hc) as [Heq Hb]. pose proof (Hpend _ _ Hc) as Hpe.
    unfold wire. destruct (decide (this_ = c)) as [->|Hne].
    + specialize (Hroom _ Hc).
      assert (mParentCount (updateParentCount nd)
              = Z.of_nat (nArgs nd + (indegree g c + 1))) as Hup.
      { simpl. unfold pre_incr, size_wrap. rewrite Z.mod_small by lia. lia. }
      assert (mParentCount (updateParentCount nd) < 2 ^ 64)%Z as Hupb.
      { simpl. unfold pre_incr, size_wrap. rewrite Z.mod_small by lia. lia. }
      by case_decide.
    + rewrite Nat.add_0_r. by case_decide.
  - intros p c. rewrite (children_setParent _ _ _ _ _ Hset), Hlen.
    intros [Hc|Hc]%elem_of_app; [by eapply Hch|].
    case_decide; [|by apply elem_of_nil in Hc].
    apply list_elem_of_singleton in Hc. by subst.
  - by rewrite Hlen.
  - intros c nd'. rewrite Hlook.
    destruct (mNodes g !! c) as [nd|] eqn:Hc; [|done]. simpl. intros [= <-].
    pose proof (Hpend _ _ Hc) as Hpe. unfold wire.
    destruct (decide (this_ = c)); case_decide; simpl; by rewrite ?Hpe.
  - by rewrite Hcmp.
  - by rewrite Hpool.
  - rewrite Hpool. done.
Qed.

(** [reset] re-arms a wired graph whose pool is at rest. *)
Lemma armed_reset g :
  wired g -> mQueue (mPool g) = [] ->
  (forall w x, mThreads (mPool g) !! w = Some x -> x = Idle) ->
  armed (reset g).
Proof.
  intros [Hcount Hch Hsize] Hq Hidle.
  assert (Hchildren : forall p, children (reset g) p = children g p).
  { intros p. unfold children. rewrite reset_lookup.
    destruct (mNodes g !! p) as [nd|]; [|done]. by destruct nd. }
  assert (Hlen : length (mNodes (reset g)) = length (mNodes g)).
  { unfold reset; simpl. by rewrite length_map. }
  assert (Hindeg : forall c, indegree (reset g) c = indegree g c).
  { intros c. unfold indegree. rewrite Hlen. apply sum_upto_ext.
    intros p _. by rewrite Hchildren. }
  constructor; [constructor|..]; try done.
  - intros c nd'. rewrite reset_lookup, Hindeg.
    destruct (mNodes g !! c) as [nd|] eqn:Hc; [|done]. simpl. intros [= <-].
    destruct (Hcount _ _ Hc). by destruct nd.
  - intros p c. rewrite Hchildren, Hlen. apply Hch.
  - by rewrite Hlen.
  - intros c nd'. rewrite reset_lookup.
    destruct (mNodes g !! c) as [nd|] eqn:Hc; [|done]. simpl. intros [= <-].
    by destruct nd.
Qed.

End Building.

(** ** Schedules *)

Section Schedules.
Context {W V : Type}.
Implicit Types (s : Sys W V) (tr : list Event) (ls : list Label).

Lemma run_cons s l ev s1 tr s' :
  step l s = Some (ev, s1) -> run s1 tr s' -> run s (ev :: tr) s'.
Proof.
  intros Hstep Hrun. induction Hrun as [|tr s2 l2 ev2 s3 _ IH Hstep2].
  - apply (run_snoc s [] s l ev s1); [constructor | done].
  - apply (run_snoc s (ev :: tr) s2 l2 ev2 s3); done.
Qed.

Lemma exec_run ls s tr s' : exec ls s = Some (tr, s') -> run s tr s'.
Proof.
  revert s tr. induction ls as [|l ls IH]; intros s tr Hex; simpl in Hex.
  - injection Hex as <- <-. constructor.
  - destruct (step l s) as [[ev s1]|] eqn:Hstep; [|done].
    destruct (exec ls s1) as [[tr1 s2]|] eqn:Hex1; [|done].
    injection Hex as <- <-. eapply run_cons; [done | by apply IH].
Qed.

Lemma exec_snoc ls s tr s1 l ev s2 :
  exec ls s = Some (tr, s1) -> step l s1 = Some (ev, s2) ->
  exec (ls ++ [l]) s = Some (tr ++ [ev], s2).
Proof.
  revert s tr. induction ls as [|l0 ls IH]; intros s tr Hex Hstep; simpl in *.
  - injection Hex as <- <-. by rewrite Hstep.
  - destruct (step l0 s) as [[ev0 s0]|]; [|done].
    destruct (exec ls s0) as [[tr0 s0']|] eqn:Hex0; [|done].
    injection Hex as <- <-. by rewrite (IH _ _ Hex0 Hstep).
Qed.

Lemma forced_cons l ls s ev s' :
  only l s -> step l s = Some (ev, s') -> forced ls s' -> forced (l :: ls) s.
Proof. intros Honly Hstep Hrest. simpl. by rewrite Hstep. Qed.

Lemma forced_exec k ls s tr s1 :
  forced ls s -> exec (take k ls) s = Some (tr, s1) -> forced (drop k ls) s1.
Proof.
  revert ls s tr. induction k as [|k IH]; intros ls s tr Hf Hex.
  - rewrite take_0 in Hex. injection Hex as <- <-. by rewrite drop_0.
  - destruct ls as [|l ls]; simpl in *.
    + by injection Hex as <- <-.
    + destruct Hf as [_ Hf]. destruct (step l s) as [[ev s0]|]; [|done].
      destruct (exec (take k ls) s0) as [[tr0 s0']|] eqn:Hex0; [|done].
      injection Hex as <- <-. by eapply IH.
Qed.

Lemma take_snoc_drop ls k l rest :
  drop k ls = l :: rest -> take (S k) ls = take k ls ++ [l].
Proof.
  revert ls. induction k as [|k IH]; intros ls Hd.
  - rewrite drop_0 in Hd. by subst.
  - destruct ls as [|y ls]; [done|]. simpl in Hd.
    change (take (S (S k)) (y :: ls)) with (y :: take (S k) ls).
    by rewrite (IH _ Hd).
Qed.

(** Under a forced schedule every execution is an initial part of it. *)
Lemma forced_run ls s tr s' :
  forced ls s -> run s tr s' ->
  exists k, k <= length ls /\ exec (take k ls) s = Some (tr, s').
Proof.
  intros Hf Hrun. induction Hrun as [|tr s1 l' ev s2 _ IH Hstep].
  - exists 0. split; [lia | by rewrite take_0].
  - destruct IH as (k & Hk & Hex).
    pose proof (forced_exec _ _ _ _ _ Hf Hex) as Hf1.
    destruct (drop k ls) as [|l rest] eqn:Hdrop; simpl in Hf1.
    + by apply Hf1 in Hstep.
    + destruct Hf1 as [Honly _]. apply Honly in Hstep.
      exists (S k). split.
      * assert (length (drop k ls) = S (length rest)) as Hlen by (by rewrite Hdrop).
        rewrite length_drop in Hlen. lia.
      * rewrite (take_snoc_drop _ _ _ _ Hdrop). by eapply exec_snoc.
Qed.

End Schedules.

(** ** Tests.cpp, Test1 *)

Module Test1Facts.
Import Test1.

Lemma build_ok : build = Some task_graph.
Proof. reflexivity. Qed.

Ltac only_step :=
  let l' := fresh "l" in let Hstep := fresh "Hstep" in
  intros l' ? ? Hstep;
  destruct l' as [| |[|?]|[|?]|[|?]|[|?]|[|?]];
  vm_compute in Hstep; try discriminate Hstep;
  vm_compute; exact Hstep.

Ltac forced_step :=
  eapply forced_cons; [only_step | vm_compute; reflexivity | ].

Lemma schedule_forced : forced schedule start.
Proof.
  unfold schedule.
  do 22 forced_step.
  intros l' ev s' Hstep.
  destruct l' as [| |[|?]|[|?]|[|?]|[|?]|[|?]]; vm_compute in Hstep; discriminate Hstep.
Qed.

Lemma task_graph_armed : armed task_graph.
Proof.
  pose proof build_ok as Hb. unfold build in Hb. simpl in Hb.
  assert (forall (g : TaskGraph string Z) t,
            armed g -> length (mNodes g) < 10 ->
            armed (fst (makeTaskNode t 0 "" g))) as Hmk.
  { intros g t Hg Hlen. apply armed_makeTaskNode; [done | done | lia]. }
  set (g0 := new_graph (W := string) (V := Z) 1).
  set (g1 := fst (makeTaskNode (VoidTask (fun _ => "task1->")) 0 "" g0)).
  set (g2 := fst (makeTaskNode (VoidTask (fun out => out +:+ "task2->")) 0 "" g1)).
  set (g3 := fst (makeTaskNode (VoidTask (fun out => out +:+ "task3->")) 0 "" g2)).
  set (g4 := fst (makeTaskNode (VoidTask (fun out => out +:+ "task4")) 0 "" g3)).
  assert (armed g4) as H4.
  { repeat (apply Hmk; [|simpl; lia]). apply armed_new_graph. }
  destruct (setParent 1 0 g4) as [g5|] eqn:E5; [|done].
  destruct (setParent 3 0 g5) as [g6|] eqn:E6; [|vm_compute in E5; by simplify_eq].
  destruct (setParent 1 2 g6) as [g7|] eqn:E7;
    [|vm_compute in E5; simplify_eq; vm_compute in E6; by simplify_eq].
  destruct (setParent 3 2 g7) as [g8|] eqn:E8;
    [|vm_compute in E5; simplify_eq; vm_compute in E6; simplify_eq;
      vm_compute in E7; by simplify_eq].
  assert (setParent 2 0 g8 = Some task_graph) as E9.
  { vm_compute in E5; simplify_eq; vm_compute in E6; simplify_eq;
      vm_compute in E7; simplify_eq; vm_compute in E8; simplify_eq. reflexivity. }
  assert (forall this_ parent (g g' : TaskGraph string Z),
            setParent this_ parent g = Some g' ->
            (forall c nd, mNodes g !! c = Some nd -> (mParentCount nd < 10)%Z) ->
            armed g -> armed g') as Hset.
  { intros this_ parent g g' Hs Hsmall Hg. eapply armed_setParent; [done..|].
    intros nd Hnd. specialize (Hsmall _ _ Hnd). lia. }
  assert (forall (g : TaskGraph string Z),
            Forall (fun nd => (mParentCount nd < 10)%Z) (mNodes g) ->
            forall c nd, mNodes g !! c = Some nd -> (mParentCount nd < 10)%Z) as Hall.
  { intros g Hf c nd Hc. by eapply (Forall_lookup_1 _ _ _ _ Hf). }
  eapply (Hset _ _ _ _ E9).
  { apply Hall. vm_compute in E5; simplify_eq; vm_compute in E6; simplify_eq;
      vm_compute in E7; simplify_eq; vm_compute in E8; simplify_eq.
    repeat constructor. }
  eapply (Hset _ _ _ _ E8).
  { apply Hall. vm_compute in E5; simplify_eq; vm_compute in E6; simplify_eq;
      vm_compute in E7; simplify_eq. repeat constructor. }
  eapply (Hset _ _ _ _ E7).
  { apply Hall. vm_compute in E5; simplify_eq; vm_compute in E6; simplify_eq.
    repeat constructor. }
  eapply (Hset _ _ _ _ E6).
  { apply Hall. vm_compute in E5; simplify_eq. repeat constructor. }
  eapply (Hset _ _ _ _ E5); [|done].
  apply Hall. repeat constructor.
Qed.

End Test1Facts.

(** ** Order of dispatch with one worker *)

Section OrderFacts.
Context {W V : Type}.
Implicit Types (g : TaskGraph W V) (s : Sys W V) (tr : list Event).

Lemma attempted_snoc tr e : attempted (tr ++ [e]) = attempted tr ++ attempted [e].
Proof. apply omap_app. Qed.

Lemma Order_init g (w0 : W) :
  mThreads (mPool g) = [Idle] -> mQueue (mPool g) = [] ->
  Order [] (execute_begin g w0).
Proof.
  intros Hth Hq. constructor; unfold threads; simpl.
  - by rewrite Hth.
  - by rewrite Hq.
  - by rewrite Hth.
Qed.

Lemma Order_step tr s l ev s' :
  Order tr s -> step l s = Some (ev, s') -> Order (tr ++ [ev]) s'.
Proof.
  intros [Hone Hfifo Htask] Hstep. unfold threads in *.
  destruct (mThreads (mPool (graph s))) as [|x [|??]] eqn:Hth; try done.
  assert (Hclose : forall s1 e,
    length (threads s1) = 1 ->
    submitted tr ++ submitted [e] = (started tr ++ started [e]) ++ mQueue (mPool (graph s1)) ->
    started tr ++ started [e] = (attempted tr ++ attempted [e]) ++ in_task (threads s1) ->
    Order (tr ++ [e]) s1).
  { intros s1 e H1 H2 H3. constructor; [done|..].
    - by rewrite submitted_snoc, started_snoc.
    - by rewrite started_snoc, attempted_snoc. }
  destruct l as [| |w|w|w|w|w]; simpl in Hstep; rewrite ?Hth in Hstep;
    try (destruct w as [|w]; simpl in Hstep; [|done]).
  - destruct (caller s) as [[|n rest]|]; simplify_eq.
    apply Hclose; unfold threads; simpl; rewrite ?Hth, ?app_nil_r; try done.
    by rewrite Hfifo, app_assoc.
  - destruct (caller s) as [[|n rest]|]; simplify_eq. case_decide; simplify_eq.
    apply Hclose; unfold threads; simpl; rewrite ?Hth, ?app_nil_r; done.
  - destruct x as [|n ph]; [|done].
    destruct (mQueue (mPool (graph s))) as [|n q] eqn:Hq; simplify_eq/=.
    rewrite app_nil_r in Htask.
    apply Hclose; unfold threads; simpl; rewrite ?app_nil_r; try done.
    + by rewrite Hfifo, <- app_assoc.
    + by rewrite Htask.
  - destruct x as [|n [|rest|c rest]]; try done. simpl in Htask; rewrite ?app_nil_r in Htask.
    destruct (mNodes (graph s) !! n) as [nd|]; [|done].
    destruct (execute_task nd (world s)) as [[nd' w']|what]; simplify_eq;
      apply Hclose; unfold threads; simpl; rewrite ?Hth, ?app_nil_r; try done;
      by rewrite Htask.
  - destruct x as [|n [|[|c rest]|c rest]]; try done. simpl in Htask; rewrite ?app_nil_r in Htask.
    destruct (mNodes (graph s) !! c) as [cd|]; simplify_eq.
    apply Hclose; unfold threads; simpl; rewrite ?Hth, ?app_nil_r; try done.
    case_decide; simpl; by rewrite ?app_nil_r.
  - destruct x as [|n [|rest|c rest]]; simplify_eq. simpl in Htask; rewrite ?app_nil_r in Htask.
    apply Hclose; unfold threads; simpl; rewrite ?Hth, ?app_nil_r; try done.
    by rewrite Hfifo, app_assoc.
  - destruct x as [|n [|[|c rest]|c rest]]; simplify_eq. simpl in Htask; rewrite ?app_nil_r in Htask.
    apply Hclose; unfold threads; simpl; rewrite ?Hth, ?app_nil_r; try done.
Qed.

Lemma Order_run g (w0 : W) tr s :
  mThreads (mPool g) = [Idle] -> mQueue (mPool g) = [] ->
  run (execute_begin g w0) tr s -> Order tr s.
Proof.
  intros Hth Hq Hrun. induction Hrun as [|tr s l ev s' _ IH Hstep].
  - by apply Order_init.
  - by eapply Order_step.
Qed.

End OrderFacts.

(** ** After a run: [reset] arms the graph again *)

Section Rearm.
Context {W V : Type}.
Implicit Types (g : TaskGraph W V) (s : Sys W V) (tr : list Event).

Lemma children_run g tr s p :
  Inv g tr s -> children (graph s) p = children g p.
Proof.
  intros HI. unfold children at 1.
  destruct (mNodes (graph s) !! p) as [nd|] eqn:Hp.
  - symmetry. by eapply children_static; [apply (inv_static _ _ _ HI)|].
  - apply lookup_ge_None in Hp. rewrite children_ge; [done|].
    by rewrite <- (static_length _ _ (inv_static _ _ _ HI)).
Qed.

Lemma wired_run g tr s : wired g -> Inv g tr s -> wired (graph s).
Proof.
  intros [Hcount Hch Hsize] HI.
  pose proof (static_length _ _ (inv_static _ _ _ HI)) as Hlen.
  assert (Hindeg : forall c, indegree (graph s) c = indegree g c).
  { intros c. unfold indegree. rewrite Hlen. apply sum_upto_ext.
    intros p _. by rewrite (children_run _ _ _ _ HI). }
  constructor.
  - intros c nd Hc. rewrite Hindeg.
    destruct (static_lookup _ _ _ _ (inv_static _ _ _ HI) Hc) as (nd0 & Hc0 & Hst).
    apply static_part_fields in Hst as (-> & -> & _). by apply Hcount.
  - intros p c. rewrite (children_run _ _ _ _ HI), Hlen. apply Hch.
  - by rewrite Hlen.
Qed.

(** When [execute] has returned the pool is at rest, so a [reset] gives a
    graph on which [execute] may be called again. *)
Lemma rearm g (w0 : W) tr s :
  armed g -> run (execute_begin g w0) tr s -> caller s = CReturned ->
  armed (reset (graph s)).
Proof.
  intros Harmed Hrun Hret. pose proof (Inv_run _ _ _ _ Harmed Hrun) as HI.
  pose proof (armed_wired _ Harmed) as Hw.
  assert (Hall : forall c, c < length (mNodes g) -> c ∈ completed tr).
  { eapply nodup_full; [apply (inv_completed_nodup _ _ _ HI) | |
                        by apply (inv_returned _ _ _ HI)].
    intros x Hx. by eapply completed_lt. }
  apply armed_reset.
  - by eapply wired_run.
  - destruct (mQueue (mPool (graph s))) as [|n q] eqn:Hq; [done|]. exfalso.
    pose proof (inv_queue _ _ _ HI) as Hqueue. rewrite Hq in Hqueue.
    apply (queue_head_fresh _ _ _ (inv_submitted _ _ _ HI) Hqueue).
    apply (inv_finished_started _ _ _ HI), (inv_completed_finished _ _ _ HI), Hall.
    eapply submitted_lt; [done..|]. rewrite Hqueue.
    apply elem_of_app. right. by left.
  - intros w x Hwx. destruct x as [|p ph]; [done|]. exfalso.
    destruct (inv_busy _ _ _ HI _ _ _ Hwx) as (Hps & Hpf & _).
    apply Hpf, (inv_completed_finished _ _ _ HI), Hall.
    by eapply submitted_lt, started_submitted.
Qed.

End Rearm.

(** ** Tests.cpp, Test1: the run *)

Module Test1Run.
Import Test1 Test1Facts.

(** C9: with one worker, thunks are popped in the order they were
    submitted and tasks are called in the order their thunks were popped;
    a node notifies its children in the order they registered.  The graph
    of Test1 has no cycle; its run has a single schedule (every execution is
    an initial part of it), it ends with [execute] returning, the tasks
    having run in the order task1, task3, task2, task4, and [out] being
    "task1->task3->task2->task4". *)
Theorem test1_output :
  (forall (W V : Type) (g : TaskGraph W V) (w0 : W) tr s,
     mThreads (mPool g) = [Idle] -> mQueue (mPool g) = [] ->
     run (execute_begin g w0) tr s ->
     submitted tr = started tr ++ mQueue (mPool (graph s)) /\
     started tr = attempted tr ++ in_task (threads s)) /\
  (forall (W V : Type) (g : TaskGraph W V) (w0 : W) tr s p,
     armed g -> run (execute_begin g w0) tr s ->
     fired p tr = take (length (fired p tr)) (children g p)) /\
  hasCycle task_graph = Some false /\
  (exists tr s,
     run start tr s /\ caller s = CReturned /\
     world s = "task1->task3->task2->task4" /\
     ran tr = [task1; task3; task2; task4]) /\
  (forall tr s, run start tr s ->
     exists k, exec (take k schedule) start = Some (tr, s)) /\
  (forall tr s, run start tr s -> caller s = CReturned ->
     world s = "task1->task3->task2->task4" /\
     ran tr = [task1; task3; task2; task4]).
Proof.
  split_and!.
  - intros W V g w0 tr s Hth Hq Hrun.
    destruct (Order_run _ _ _ _ Hth Hq Hrun) as [_ Hfifo Htask]. done.
  - intros W V g w0 tr s p Harmed Hrun.
    apply (inv_fired _ _ _ (Inv_run _ _ _ _ Harmed Hrun)).
  - vm_compute. reflexivity.
  - destruct (exec schedule start) as [[tr s]|] eqn:Hex; [|by vm_compute in Hex].
    exists tr, s. split; [apply (exec_run _ _ _ _ Hex)|].
    vm_compute in Hex. injection Hex as <- <-. by vm_compute.
  - intros tr s Hrun.
    destruct (forced_run _ _ _ _ schedule_forced Hrun) as (k & _ & Hex). eauto.
  - intros tr s Hrun Hret.
    destruct (forced_run _ _ _ _ schedule_forced Hrun) as (k & Hk & Hex).
    simpl in Hk.
    do 22 (destruct k as [|k];
           [vm_compute in Hex; injection Hex as <- <-; discriminate Hret|]).
    destruct k as [|k]; [|lia].
    vm_compute in Hex. injection Hex as <- <-. by vm_compute.
Qed.

End Test1Run.

(** ** A move-only result read twice *)

Module MoveOnlyFacts.
Import MoveOnly.

Lemma executed_slot : mResult executed = Some (Some 13).
Proof. reflexivity. Qed.

(** C6: on a node with a move-only result, [getValue] after [execute]
    returns the result and leaves the slot engaged around the moved-from
    object; a second [getValue] does not throw: it returns that object, the
    null pointer. *)
Theorem getValue_twice :
  execute_task (node []) tt = Done (executed, tt) /\
  getValue moved executed = (Done (Some 13), set_mResult (Some None) executed) /\
  getValue moved (snd (getValue moved executed))
  = (Done None, set_mResult (Some None) executed).
Proof.
  destruct (getValue_spec (W := unit) moved) as (_ & _ & Hfull & _).
  destruct (Hfull executed (Some 13) executed_slot) as [Hfst Hsnd].
  assert (H1 : getValue moved executed
               = (Done (Some 13), set_mResult (Some None) executed)).
  { rewrite (surjective_pairing (getValue moved executed)), Hfst, Hsnd. done. }
  split_and!; [done | done |]. rewrite H1. simpl.
  destruct (Hfull (set_mResult (Some None) executed) None eq_refl) as [Hfst2 Hsnd2].
  rewrite (surjective_pairing (getValue moved _)), Hfst2, Hsnd2. done.
Qed.

(** [execute] on this kind of node: two consumers make it throw, a single
    consumer gets the value and the slot is cleared. *)
Lemma execute_move_only_witness :
  execute_task (node [consumer; consumer]) tt = Throw logic_error_fanout /\
  exists nd', execute_task (node [consumer]) tt = Done (nd', tt) /\
    mResult nd' = None.
Proof.
  split.
  - apply (execute_move_only (node [consumer; consumer]) tt _ eq_refl).
    simpl. lia.
  - destruct (execute_move_only (node [consumer]) tt _ eq_refl) as [_ Hone].
    destruct (Hone consumer eq_refl) as (nd' & Hex & Hres & _).
    exists nd'. split; [exact Hex | exact Hres].
Defined.

End MoveOnlyFacts.

(** ** The theorems on the run of Test1 *)

Module Test1Witness.
Import Test1 Test1Facts.

Lemma trace_run : exists s, run start trace s /\ caller s = CReturned.
Proof.
  destruct (exec schedule start) as [[tr s]|] eqn:Hex;
    [|vm_compute in Hex; discriminate Hex].
  exists s. pose proof (exec_run _ _ _ _ Hex) as Hrun.
  vm_compute in Hex. injection Hex as <- <-. split; [exact Hrun | reflexivity].
Defined.

(** task3 is submitted after task1, its only parent, ran and notified it. *)
Lemma parents_first_witness :
  armed task_graph /\
  task3 ∈ children task_graph task1 /\
  task1 ∈ ran (take 6 trace) /\
  count task3 (fired task1 (take 6 trace)) = 1 /\
  task3 ∈ zero_seen (take 6 trace).
Proof.
  destruct trace_run as (s & Hrun & _).
  destruct (parents_first task_graph "" (take 6 trace) (ESubmit task3)
              (drop 7 trace) s task3 task_graph_armed Hrun (or_introl eq_refl))
    as (Hparents & Hcause & _).
  assert (Hchild : task3 ∈ children task_graph task1) by (vm_compute; set_solver).
  destruct (Hparents task1 Hchild) as [Hran Hcount].
  split_and!; [exact task_graph_armed | exact Hchild | exact Hran | exact Hcount |].
  destruct (Hcause eq_refl) as [[_ Hnone]|Hzero]; [|exact Hzero].
  destruct (Hnone task1 Hchild).
Defined.

(** In the whole run each node is submitted once and each counter reaches
    zero at most once. *)
Lemma pending_one_shot_witness :
  armed task_graph /\
  NoDup (zero_seen trace) /\ NoDup (submitted trace) /\
  forall c, c < 4 -> c ∈ submitted trace.
Proof.
  destruct trace_run as (s & Hrun & Hret).
  destruct (pending_one_shot task_graph "" trace s task_graph_armed Hrun)
    as (_ & _ & Hzero & Hsub & _ & _ & Hall).
  split_and!; [exact task_graph_armed | exact Hzero | exact Hsub |].
  exact (Hall Hret).
Defined.

End Test1Witness.

(** ** The node that waits for an argument *)

Module UnaryFacts.
Import Unary.

Lemma unary_graph_armed : armed task_graph.
Proof.
  set (g0 := new_graph (W := nat) (V := Z) 1).
  set (g1 := fst (makeTaskNode (VoidTask S) 0 "a" g0)).
  set (g2 := fst (makeTaskNode (VoidTask S) 1 "b" g1)).
  assert (armed g2) as H2.
  { apply armed_makeTaskNode; [|done|done].
    apply armed_makeTaskNode; [|done|done]. apply armed_new_graph. }
  assert (setParent 1 0 g2 = Some task_graph) as Hset by reflexivity.
  eapply (armed_setParent _ _ _ _ H2 Hset).
  intros nd Hnd. vm_compute in Hnd. injection Hnd as <-. done.
Qed.

Lemma unary_trace_run : exists s, run start trace s.
Proof.
  destruct (exec schedule start) as [[tr s]|] eqn:Hex;
    [|vm_compute in Hex; discriminate Hex].
  exists s. pose proof (exec_run _ _ _ _ Hex) as Hrun.
  vm_compute in Hex. injection Hex as <- <-. exact Hrun.
Defined.

(** [b] has arity one and one parent: its counter starts at two, is still
    at one after [a] has run and completed, and [b] was not submitted. *)
Lemma arity_blocks_witness :
  armed task_graph /\
  (exists nd, mNodes task_graph !! 1 = Some nd /\ nArgs nd = 1 /\
     mPendingCount nd = 2%Z) /\
  (1 ∉ submitted trace) /\ (1 ∉ ran trace).
Proof.
  destruct unary_trace_run as (s & Hrun).
  destruct (mNodes task_graph !! 1) as [nd|] eqn:Hnd; [|discriminate Hnd].
  assert (Harity : 0 < nArgs nd).
  { vm_compute in Hnd. injection Hnd as <-. simpl. lia. }
  destruct (arity_blocks task_graph 0 trace s 1 nd unary_graph_armed Hnd Harity Hrun)
    as (Hinit & _ & _ & Hsub & Hran & _).
  split_and!; [exact unary_graph_armed | | exact Hsub | exact Hran].
  exists nd. split; [reflexivity|].
  vm_compute in Hnd. injection Hnd as <-. split; reflexivity.
Defined.

(** After that no step is possible: [execute] stays blocked. *)
Lemma unary_schedule_forced : forced schedule start.
Proof.
  unfold schedule.
  do 5 Test1Facts.forced_step.
  intros l' ev s' Hstep.
  destruct l' as [| |[|?]|[|?]|[|?]|[|?]|[|?]]; vm_compute in Hstep; discriminate Hstep.
Qed.

End UnaryFacts.

(** ** Progress, results and the events that can still come *)

Section LiveTraces.

Lemma thrown_snoc tr e : thrown (tr ++ [e]) = thrown tr ++ thrown [e].
Proof. apply omap_app. Qed.

Lemma returns_snoc tr e : returns (tr ++ [e]) = returns tr ++ returns [e].
Proof. apply omap_app. Qed.

Lemma finished_split tr p :
  p ∈ finished tr <-> p ∈ completed tr \/ p ∈ thrown tr.
Proof.
  induction tr as [|e tr IH]; simpl.
  - rewrite !elem_of_nil. tauto.
  - unfold finished, completed, thrown in *. simpl.
    destruct e; simpl; rewrite ?elem_of_cons; tauto.
Qed.

Lemma finished_length tr :
  length (finished tr) = length (completed tr) + length (thrown tr).
Proof.
  induction tr as [|e tr IH]; [done|].
  unfold finished, completed, thrown in *. destruct e; csimpl in *; lia.
Qed.

Lemma trace_length tr :
  length tr = length (submitted tr) + length (started tr) + length (ran tr)
              + length (finished tr) + length (targets tr) + length (returns tr).
Proof.
  induction tr as [|e tr IH]; [done|].
  unfold submitted, started, ran, finished, targets, returns in *.
  destruct e; csimpl in *; lia.
Qed.

End LiveTraces.

Ltac tr_norm2 :=
  rewrite ?thrown_snoc, ?returns_snoc, ?attempted_snoc; tr_norm.

Section LiveNodes.
Context {W V : Type}.
Implicit Types (nd : TaskNode W V).

Lemma static_part_task nd nd' :
  static_part nd = static_part nd' ->
  mTask nd = mTask nd' /\ mDescendantTasks nd = mDescendantTasks nd'.
Proof. destruct nd, nd'. unfold static_part. simpl. by intros [= -> -> -> -> -> -> ->]. Qed.

Lemma can_throw_static nd nd' :
  static_part nd = static_part nd' -> can_throw nd <-> can_throw nd'.
Proof.
  intros [Ht Hd]%static_part_task. unfold can_throw. by rewrite Ht, Hd.
Qed.

Lemma execute_task_can_throw nd (w : W) :
  (exists what, execute_task nd w = Throw what) <-> can_throw nd.
Proof.
  unfold can_throw, execute_task. destruct (mTask nd) as [f|f|f].
  - split; [by intros [? ?] | done].
  - destruct (f w). split; [by intros [? ?] | done].
  - case_decide; [split; eauto|].
    destruct (f w), (mDescendantTasks nd); (split; [by intros [? ?] | done]).
Qed.

Lemma execute_task_stored nd (w : W) nd' w' :
  execute_task nd w = Done (nd', w') -> stored nd (mResult nd').
Proof.
  unfold stored, execute_task. destruct (mTask nd) as [f|f|f].
  - by intros [= <- _].
  - destruct (f w) as [w1 v] eqn:Hf. intros [= <- _]. exists w. by rewrite Hf.
  - case_decide; [done|]. destruct (f w) as [w1 v] eqn:Hf.
    destruct (mDescendantTasks nd); intros [= <- _]; [|done].
    exists w. by rewrite Hf.
Qed.

Lemma stored_static nd nd' r :
  static_part nd = static_part nd' -> mResult nd = mResult nd' ->
  stored nd r -> stored nd' r.
Proof.
  intros [Ht Hd]%static_part_task Hr. unfold stored. by rewrite Ht, Hd, Hr.
Qed.

End LiveNodes.

Section LiveSteps.
Context {W V : Type}.
Variable g0 : TaskGraph W V.
Implicit Types (s : Sys W V) (tr : list Event).

Ltac tr_all :=
  tr_norm2;
  repeat match goal with
         | H : context [ (_ ++ [_]) ] |- _ =>
             progress (rewrite ?thrown_snoc, ?returns_snoc in H; tr_norm_in H)
         end.

Ltac open_live H :=
  destruct H as [Lthr Lstart Linit Lzero Lcompl Lran Lranok Lthrown Lret Lres];
  unfold pending, threads in *.

Ltac same := solve [ tr_norm2; intros; tr_all; eauto; done ].

Lemma Live_init w0 : Live g0 [] (execute_begin g0 w0).
Proof.
  constructor; unfold pending, threads; simpl;
    try (intros p Hp; by apply elem_of_nil in Hp); try done.
  - intros c Hc. right. eauto.
  - intros c Hc. left. apply initialNodes_spec.
    destruct (mNodes g0 !! c) as [nd|] eqn:E; simplify_eq/=. eauto.
  - constructor.
  - intros n nd0 nd H1 H2. simplify_eq.
    split; [intros Hp; by apply elem_of_nil in Hp | done].
Qed.

Lemma Live_caller_push tr s n rest :
  Live g0 tr s -> caller s = CPush (n :: rest) ->
  Live g0 (tr ++ [ESubmit n])
    (mkSys (set_mPool (pool_push n (mPool (graph s))) (graph s)) (CPush rest) (world s)).
Proof.
  intros HL Hc. open_live HL.
  constructor; unfold pending, threads; simpl; try same.
  - tr_norm2. intros c [Hs|(l & Hl & Hin)]%Linit.
    + left. apply elem_of_app. by left.
    + rewrite Hc in Hl. injection Hl as <-.
      apply elem_of_cons in Hin as [->|Hin].
      * left. apply elem_of_app. right. by apply list_elem_of_singleton.
      * right. eauto.
  - tr_norm2. by rewrite Hc in Lret.
Qed.

Lemma Live_caller_return tr s :
  Live g0 tr s -> caller s = CPush [] ->
  Live g0 (tr ++ [EReturn]) (mkSys (graph s) CReturned (world s)).
Proof.
  intros HL Hc. open_live HL.
  constructor; unfold pending, threads; simpl; try same.
  - tr_norm2. intros c [Hs|(l & Hl & Hin)]%Linit; [by left|].
    rewrite Hc in Hl. injection Hl as <-. by apply elem_of_nil in Hin.
  - tr_norm2. rewrite Hc in Lret. rewrite length_app, Lret. done.
Qed.

Lemma busy_insert (ths : list Worker) w x p :
  w < length ths ->
  ((exists w1 ph, ths !! w1 = Some (Busy p ph) /\ w1 <> w) \/
   (exists ph, x = Busy p ph)) ->
  exists w1 ph, <[w := x]> ths !! w1 = Some (Busy p ph).
Proof.
  intros Hw [(w1 & ph & H1 & Hne)|[ph ->]].
  - exists w1, ph. by rewrite list_lookup_insert_ne.
  - exists w, ph. by rewrite list_lookup_insert_eq.
Qed.

Lemma Live_pop tr s w n q :
  Live g0 tr s ->
  mThreads (mPool (graph s)) !! w = Some Idle ->
  Live g0 (tr ++ [EStart n])
    (mkSys (set_mPool (mkThreadPool q (<[w := Busy n PTask]> (mThreads (mPool (graph s)))))
              (graph s))
       (caller s) (world s)).
Proof.
  intros HL Hw. open_live HL.
  assert (Hwlt : w < length (mThreads (mPool (graph s)))) by by eapply lookup_lt_Some.
  constructor; unfold pending, threads; simpl; try same.
  - by rewrite length_insert.
  - tr_norm2. intros p [Hp| ->%list_elem_of_singleton]%elem_of_app.
    + destruct (Lstart _ Hp) as [?|(w1 & ph & Hw1)]; [by left|]. right.
      apply busy_insert; [done|]. left. exists w1, ph. split; [done|].
      intros ->. by simplify_eq.
    + right. apply busy_insert; eauto.
Qed.

Lemma Live_run_done tr s w n nd nd' w' :
  Inv g0 tr s -> Live g0 tr s ->
  mThreads (mPool (graph s)) !! w = Some (Busy n PTask) ->
  mNodes (graph s) !! n = Some nd ->
  execute_task nd (world s) = Done (nd', w') ->
  Live g0 (tr ++ [ETask n])
    (mkSys (set_worker w (Busy n (PNotify (mDescendantArguments nd')))
              (set_mNodes (<[n := nd']> (mNodes (graph s))) (graph s)))
       (caller s) w').
Proof.
  intros HI HL Hw Hn Hex.
  assert (Hwlt : w < length (mThreads (mPool (graph s)))) by by eapply lookup_lt_Some.
  destruct (inv_busy _ _ _ HI _ _ _ Hw) as (Hns & Hnf & _ & Hnran).
  destruct (static_lookup _ _ _ _ (inv_static _ _ _ HI) Hn) as (nd0 & Hn0 & Hst).
  destruct (execute_task_static _ _ _ _ Hex) as (Hst' & Hpc & _).
  open_live HL.
  constructor; unfold pending, threads; simpl; try same.
  - by rewrite length_insert.
  - tr_norm2. intros p Hp.
    destruct (Lstart _ Hp) as [?|(w1 & ph & Hw1)]; [by left|]. right.
    apply busy_insert; [done|]. destruct (decide (w1 = w)) as [->|Hne].
    + right. simplify_eq. eauto.
    + left. eauto.
  - intros c. rewrite (pending_insert_same _ _ _ _ _ Hn Hpc). tr_norm2. apply Lzero.
  - intros p Hp. tr_norm_in Hp. destruct (Lcompl _ Hp) as [Hf Hr]. tr_norm2. split; [done|]. apply elem_of_app. by left.
  - tr_norm2. by apply NoDup_snoc.
  - tr_norm2. intros p [Hp| ->]%elem_of_snoc; [by apply Lranok|].
    exists nd0. split; [done|]. intros Hc.
    apply (can_throw_static _ _ Hst) in Hc.
    apply (execute_task_can_throw _ (world s)) in Hc as [what Hc]. congruence.
  - tr_norm2. intros n1 nd1 nd2 H1 H2.
    apply list_lookup_insert_Some in H2 as [(<- & <- & _)|[Hne H2]].
    + assert (nd1 = nd0) as -> by congruence.
      split; [intros _ | intros Hnot; exfalso; apply Hnot, elem_of_snoc; by right].
      destruct (Lres _ _ _ Hn0 Hn) as [_ Hres].
      eapply stored_static; [exact Hst | by apply Hres |].
      by eapply execute_task_stored.
    + destruct (Lres _ _ _ H1 H2) as [Hres1 Hres2]. split.
      * intros [?| ->]%elem_of_snoc; [by apply Hres1 | done].
      * intros Hnot. apply Hres2. intros ?. apply Hnot, elem_of_snoc. by left.
Qed.

Lemma Live_run_throw tr s w n nd what :
  Inv g0 tr s -> Live g0 tr s ->
  mThreads (mPool (graph s)) !! w = Some (Busy n PTask) ->
  mNodes (graph s) !! n = Some nd ->
  execute_task nd (world s) = Throw what ->
  Live g0 (tr ++ [EThrow n])
    (mkSys (set_worker w Idle (graph s)) (caller s) (world s)).
Proof.
  intros HI HL Hw Hn Hex.
  assert (Hwlt : w < length (mThreads (mPool (graph s)))) by by eapply lookup_lt_Some.
  destruct (static_lookup _ _ _ _ (inv_static _ _ _ HI) Hn) as (nd0 & Hn0 & Hst).
  open_live HL.
  constructor; unfold pending, threads; simpl; try same.
  - by rewrite length_insert.
  - tr_norm2. intros p Hp.
    destruct (Lstart _ Hp) as [?|(w1 & ph & Hw1)];
      [left; apply elem_of_app; by left|].
    destruct (decide (w1 = w)) as [->|Hne].
    + left. simplify_eq. apply elem_of_snoc. by right.
    + right. apply busy_insert; [done|]. left. eauto.
  - tr_norm2. intros p [Hp| ->]%elem_of_snoc; [by apply Lthrown|].
    exists nd0. split; [done|]. apply (can_throw_static _ _ Hst).
    apply (execute_task_can_throw _ (world s)). eauto.
Qed.

Lemma Live_notify tr s w n c rest cd :
  Inv g0 tr s -> Live g0 tr s ->
  mThreads (mPool (graph s)) !! w = Some (Busy n (PNotify (c :: rest))) ->
  mNodes (graph s) !! c = Some cd ->
  let v := pre_decr (mPendingCount cd) in
  Live g0 (tr ++ [ENotify n c v])
    (mkSys (set_worker w
              (Busy n (if decide (v = 0%Z) then PSubmit c rest else PNotify rest))
              (set_mNodes (<[c := set_mPendingCount v cd]> (mNodes (graph s))) (graph s)))
       (caller s) (world s)).
Proof.
  intros HI HL Hw Hc v.
  assert (Hwlt : w < length (mThreads (mPool (graph s)))) by by eapply lookup_lt_Some.
  destruct (inv_busy _ _ _ HI _ _ _ Hw) as (Hns & Hnf & _).
  pose proof (inv_completed_finished _ _ _ HI) as Hcf.
  open_live HL.
  constructor; unfold pending, threads; simpl; try same.
  - by rewrite length_insert.
  - tr_norm2. intros p Hp.
    destruct (Lstart _ Hp) as [?|(w1 & ph & Hw1)]; [by left|]. right.
    apply busy_insert; [done|]. destruct (decide (w1 = w)) as [->|Hne].
    + right. simplify_eq. eauto.
    + left. eauto.
  - tr_norm2. intros c1 Hc1. destruct (decide (c1 = c)) as [->|Hne].
    + rewrite list_lookup_insert_eq in Hc1 by by eapply lookup_lt_Some.
      simpl in Hc1. injection Hc1 as Hv. right. apply elem_of_app. right.
      rewrite decide_True by done. by apply list_elem_of_singleton.
    + rewrite list_lookup_insert_ne in Hc1 by done.
      destruct (Lzero _ Hc1); [by left|]. right. apply elem_of_app. by left.
  - intros p Hp. tr_norm_in Hp. destruct (Lcompl _ Hp) as [Hf Hr].
    rewrite fired_snoc_notify, ran_snoc. simpl. rewrite app_nil_r.
    split; [|done]. rewrite decide_False; [by rewrite app_nil_r|].
    intros ->. by apply Hnf, Hcf.
  - tr_norm2. intros n1 nd1 nd2 H1 H2.
    apply list_lookup_insert_Some in H2 as [(<- & <- & _)|[Hne H2]]; [|eauto].
    simpl. by apply Lres.
Qed.

Lemma Live_submit tr s w n c rest :
  Live g0 tr s ->
  mThreads (mPool (graph s)) !! w = Some (Busy n (PSubmit c rest)) ->
  Live g0 (tr ++ [ESubmit c])
    (mkSys (set_worker w (Busy n (PNotify rest))
              (set_mPool (pool_push c (mPool (graph s))) (graph s)))
       (caller s) (world s)).
Proof.
  intros HL Hw.
  assert (Hwlt : w < length (mThreads (mPool (graph s)))) by by eapply lookup_lt_Some.
  open_live HL.
  constructor; unfold pending, threads; simpl; try same.
  - by rewrite length_insert.
  - tr_norm2. intros p Hp.
    destruct (Lstart _ Hp) as [?|(w1 & ph & Hw1)]; [by left|]. right.
    apply busy_insert; [done|]. destruct (decide (w1 = w)) as [->|Hne].
    + right. simplify_eq. eauto.
    + left. eauto.
  - tr_norm2. intros c1 [Hs|?]%Linit; [|by right].
    left. apply elem_of_app. by left.
Qed.

Lemma Live_complete tr s w n :
  Inv g0 tr s -> Live g0 tr s ->
  mThreads (mPool (graph s)) !! w = Some (Busy n (PNotify [])) ->
  Live g0 (tr ++ [EComplete n])
    (mkSys (set_worker w Idle
              (set_mCompletedTasks (pre_incr (mCompletedTasks (graph s))) (graph s)))
       (caller s) (world s)).
Proof.
  intros HI HL Hw.
  assert (Hwlt : w < length (mThreads (mPool (graph s)))) by by eapply lookup_lt_Some.
  destruct (inv_busy _ _ _ HI _ _ _ Hw) as (Hns & Hnf & Hdrop & Hnran).
  pose proof (inv_fired _ _ _ HI n) as Htake.
  open_live HL.
  constructor; unfold pending, threads; simpl; try same.
  - by rewrite length_insert.
  - tr_norm2. intros p Hp.
    destruct (Lstart _ Hp) as [?|(w1 & ph & Hw1)];
      [left; apply elem_of_app; by left|].
    destruct (decide (w1 = w)) as [->|Hne].
    + left. simplify_eq. apply elem_of_snoc. by right.
    + right. apply busy_insert; [done|]. left. eauto.
  - tr_norm2. intros p Hp. tr_norm2.
    apply elem_of_snoc in Hp as [Hp| ->]; [by apply Lcompl|].
    split; [|done].
    etrans; [exact Htake|].
    rewrite <- (take_drop (length (fired n tr)) (children g0 n)) at 2.
    by rewrite <- Hdrop, app_nil_r.
Qed.

Lemma Live_step tr s l ev s' :
  Inv g0 tr s -> Live g0 tr s -> step l s = Some (ev, s') ->
  Live g0 (tr ++ [ev]) s'.
Proof.
  intros HI HL Hstep. destruct l as [| |w|w|w|w|w]; simpl in Hstep.
  - destruct (caller s) as [[|n rest]|] eqn:Hc; simplify_eq.
    by apply Live_caller_push.
  - destruct (caller s) as [[|n rest]|] eqn:Hc; simplify_eq.
    case_decide; simplify_eq. by apply Live_caller_return.
  - destruct (mThreads (mPool (graph s)) !! w) as [[|n ph]|] eqn:Hw; simplify_eq.
    destruct (mQueue (mPool (graph s))) as [|n q] eqn:Hq; simplify_eq/=.
    by apply Live_pop.
  - destruct (mThreads (mPool (graph s)) !! w) as [[|n [|rest|c rest]]|] eqn:Hw;
      simplify_eq.
    destruct (mNodes (graph s) !! n) as [nd|] eqn:Hn; simplify_eq.
    destruct (execute_task nd (world s)) as [[nd' w']|what] eqn:Hex; simplify_eq.
    + by eapply Live_run_done.
    + by eapply Live_run_throw.
  - destruct (mThreads (mPool (graph s)) !! w) as [[|n [|[|c rest]|c rest]]|] eqn:Hw;
      simplify_eq.
    destruct (mNodes (graph s) !! c) as [cd|] eqn:Hc; simplify_eq.
    by apply Live_notify.
  - destruct (mThreads (mPool (graph s)) !! w) as [[|n [|rest|c rest]]|] eqn:Hw;
      simplify_eq.
    by apply Live_submit.
  - destruct (mThreads (mPool (graph s)) !! w) as [[|n [|[|c rest]|c rest]]|] eqn:Hw;
      simplify_eq.
    by apply Live_complete.
Qed.

End LiveSteps.

Section LiveRuns.
Context {W V : Type}.

Lemma Live_run (g : TaskGraph W V) w0 tr s :
  armed g -> run (execute_begin g w0) tr s -> Live g tr s.
Proof.
  intros Ha Hrun. induction Hrun as [|tr s l ev s' Hrun IH Hstep].
  - apply Live_init.
  - eapply Live_step; [by eapply Inv_run | done..].
Qed.

End LiveRuns.

(** ** What an execution does and what it never does *)

Section ExecMore.
Context {W V : Type}.
Implicit Types (g : TaskGraph W V) (s : Sys W V) (tr : list Event).

Lemma covers_length (l : list nat) n : (forall x, x < n -> x ∈ l) -> n <= length l.
Proof.
  intros H. trans (length (seq 0 n)); [by rewrite length_seq|].
  apply submseteq_length, NoDup_submseteq; [apply NoDup_seq|].
  intros x Hx%elem_of_seq. apply H. lia.
Qed.

Lemma count_one c (l : list nat) : NoDup l -> c ∈ l -> count c l = 1.
Proof.
  intros Hnd Hin. apply count_pos in Hin. pose proof (count_nodup c l Hnd). lia.
Qed.

Lemma finished_lt g tr s p :
  Inv g tr s -> p ∈ finished tr -> p < length (mNodes g).
Proof.
  intros HI Hp. eapply submitted_lt, started_submitted; [done..|].
  by eapply inv_finished_started.
Qed.

Lemma started_nodup g tr s : Inv g tr s -> NoDup (started tr).
Proof.
  intros HI. pose proof (inv_submitted _ _ _ HI) as Hnd.
  rewrite (inv_queue _ _ _ HI) in Hnd. by apply NoDup_app in Hnd as [? _].
Qed.

Lemma completed_all g tr s :
  Inv g tr s -> length (completed tr) = length (mNodes g) ->
  forall n, n < length (mNodes g) -> n ∈ completed tr.
Proof.
  intros HI Hlen. apply nodup_full; [by eapply inv_completed_nodup| |done].
  intros x Hx. by eapply completed_lt.
Qed.

Lemma thrown_none g tr s :
  Inv g tr s -> length (completed tr) = length (mNodes g) -> thrown tr = [].
Proof.
  intros HI Hlen. apply nil_length_inv.
  assert (length (finished tr) <= length (mNodes g)).
  { apply nodup_bounded; [by eapply inv_finished|].
    intros x Hx. by eapply finished_lt. }
  pose proof (finished_length tr). lia.
Qed.

Lemma returned_quiet g tr s :
  Inv g tr s -> length (completed tr) = length (mNodes g) ->
  mQueue (mPool (graph s)) = [] /\
  forall w x, threads s !! w = Some x -> x = Idle.
Proof.
  intros HI Hlen. pose proof (completed_all _ _ _ HI Hlen) as Hall.
  assert (Hfin : forall n, n < length (mNodes g) -> n ∈ finished tr).
  { intros n Hn. by eapply inv_completed_finished, Hall. }
  split.
  - apply nil_length_inv.
    assert (length (mNodes g) <= length (started tr)).
    { apply covers_length. intros x Hx. by eapply inv_finished_started, Hfin. }
    assert (length (submitted tr) <= length (mNodes g)).
    { apply nodup_bounded; [by eapply inv_submitted|].
      intros x Hx. by eapply submitted_lt. }
    pose proof (f_equal length (inv_queue _ _ _ HI)) as Hq.
    rewrite length_app in Hq. lia.
  - intros w [|p ph] Hw; [done|]. exfalso.
    destruct (inv_busy _ _ _ HI _ _ _ Hw) as (Hs & Hnf & _).
    apply Hnf, Hfin. eapply submitted_lt, started_submitted; done.
Qed.

Lemma idle_stuck s :
  caller s = CReturned -> mQueue (mPool (graph s)) = [] ->
  (forall w x, threads s !! w = Some x -> x = Idle) -> stuck s.
Proof.
  unfold threads. intros Hc Hq Hidle l ev s' Hstep.
  destruct l as [| |w|w|w|w|w]; simpl in Hstep; rewrite ?Hc in Hstep; try done;
    destruct (mThreads (mPool (graph s)) !! w) as [x|] eqn:Hw; try done;
    rewrite (Hidle _ _ Hw) in Hstep; try done.
  by rewrite Hq in Hstep.
Qed.

Lemma length_sum_count (l : list nat) n :
  (forall x, x ∈ l -> x < n) -> length l = sum_upto (fun c => count c l) n.
Proof.
  induction l as [|x l IH]; intros Hlt.
  - symmetry. by apply sum_upto_zero.
  - cbn [length]. rewrite IH by (intros; apply Hlt; by right).
    symmetry. apply sum_upto_pred with (p := x).
    + apply Hlt. by left.
    + intros i Hi. cbv beta. rewrite count_cons. by rewrite decide_False.
    + cbv beta. rewrite count_cons. by rewrite decide_True.
Qed.

Lemma targets_lt g tr s c :
  wired g -> Inv g tr s -> c ∈ targets tr -> c < length (mNodes g).
Proof.
  intros Hw HI Hc. destruct (decide (c < length (mNodes g))) as [|Hge]; [done|].
  exfalso. apply count_pos in Hc. fold (notified c tr) in Hc.
  pose proof (inv_notified _ _ _ HI c) as Hn.
  rewrite (indegree_fresh g c) in Hn; [lia | apply Hw | lia].
Qed.

Lemma targets_bound g tr s :
  wired g -> Inv g tr s -> length (targets tr) <= registrations g.
Proof.
  intros Hw HI. rewrite (length_sum_count _ (length (mNodes g))).
  - apply sum_upto_le. intros c _. pose proof (inv_notified _ _ _ HI c) as Hn.
    unfold notified in Hn. lia.
  - intros c Hc. by eapply targets_lt.
Qed.

Lemma trace_bound g tr s :
  wired g -> Inv g tr s -> Live g tr s ->
  length tr <= 4 * length (mNodes g) + registrations g + 1.
Proof.
  intros Hw HI HL.
  assert (length (submitted tr) <= length (mNodes g)).
  { apply nodup_bounded; [by eapply inv_submitted|].
    intros x Hx. by eapply submitted_lt. }
  assert (length (started tr) <= length (mNodes g)).
  { apply nodup_bounded; [by eapply started_nodup|].
    intros x Hx. by eapply submitted_lt, started_submitted. }
  assert (length (ran tr) <= length (mNodes g)).
  { apply nodup_bounded; [by eapply live_ran|].
    intros x Hx. by eapply submitted_lt, started_submitted, inv_ran_started. }
  assert (length (finished tr) <= length (mNodes g)).
  { apply nodup_bounded; [by eapply inv_finished|].
    intros x Hx. by eapply finished_lt. }
  pose proof (targets_bound _ _ _ Hw HI).
  pose proof (live_returns _ _ _ HL) as Hr.
  pose proof (trace_length tr).
  destruct (caller s); lia.
Qed.

(** *** Progress *)

Lemma parents_done_pending g tr s c nd :
  Inv g tr s -> Live g tr s ->
  mNodes (graph s) !! c = Some nd -> nArgs nd = 0 ->
  (forall p, child g p c -> p ∈ completed tr) ->
  pending s c = Some 0%Z.
Proof.
  intros HI HL Hc Ha Hpar. unfold pending. rewrite Hc. simpl. f_equal.
  rewrite (inv_pending _ _ _ HI _ _ Hc), Ha. simpl.
  unfold remaining. rewrite sum_upto_zero; [done|].
  intros p _. apply count_zero. intros Hin.
  assert (Hch : c ∈ children g p).
  { by eapply subseteq_drop. }
  destruct (live_completed _ _ _ HL p (Hpar p Hch)) as [Hf _].
  rewrite Hf, drop_all in Hin. by apply elem_of_nil in Hin.
Qed.

Lemma busy_enabled g tr s w p ph :
  wired g -> Inv g tr s -> threads s !! w = Some (Busy p ph) -> enabled s.
Proof.
  unfold threads. intros Hw HI Hb.
  destruct (inv_busy _ _ _ HI _ _ _ Hb) as (Hs & _ & Hph).
  pose proof (static_length _ _ (inv_static _ _ _ HI)) as Hlen.
  destruct ph as [|[|c rest]|c rest].
  - assert (Hp : p < length (mNodes (graph s))).
    { rewrite Hlen. eapply submitted_lt, started_submitted; done. }
    apply lookup_lt_is_Some in Hp as [nd Hnd].
    exists (LRun w). simpl. rewrite Hb, Hnd.
    destruct (execute_task nd (world s)) as [[nd' w']|what]; eauto.
  - exists (LComplete w). simpl. rewrite Hb. eauto.
  - destruct Hph as [Hrest _].
    assert (Hc : c < length (mNodes (graph s))).
    { rewrite Hlen. apply (wired_children _ Hw p).
      eapply subseteq_drop. rewrite <- Hrest. by left. }
    apply lookup_lt_is_Some in Hc as [cd Hcd].
    exists (LNotify w). simpl. rewrite Hb, Hcd. eauto.
  - exists (LSubmit w). simpl. rewrite Hb. eauto.
Qed.

Lemma workers_cases (ths : list Worker) :
  (forall w x, ths !! w = Some x -> x = Idle) \/
  exists w p ph, ths !! w = Some (Busy p ph).
Proof.
  induction ths as [|[|p ph] ths IH].
  - left. intros w x Hx. by rewrite lookup_nil in Hx.
  - destruct IH as [Hall|(w & p & ph & Hb)].
    + left. intros [|w] x Hx; simpl in Hx; [by injection Hx | eauto].
    + right. by exists (S w), p, ph.
  - right. by exists 0, p, ph.
Qed.

Lemma quiet_or_enabled g tr s :
  wired g -> Inv g tr s -> Live g tr s -> mThreads (mPool g) <> [] ->
  enabled s \/
  (mQueue (mPool (graph s)) = [] /\
   forall w x, threads s !! w = Some x -> x = Idle).
Proof.
  intros Hw HI HL Hne.
  destruct (workers_cases (threads s)) as [Hall|(w & p & ph & Hb)];
    [|left; by eapply busy_enabled].
  destruct (mQueue (mPool (graph s))) as [|n q] eqn:Hq; [by right|].
  left. pose proof (live_threads _ _ _ HL) as Hlen.
  destruct (threads s) as [|x ths] eqn:Hths.
  { destruct (mThreads (mPool g)); [done | discriminate Hlen]. }
  assert (x = Idle) as -> by by apply (Hall 0).
  exists (LPop 0). simpl. unfold threads in Hths. rewrite Hths, Hq. simpl. eauto.
Qed.

Lemma tc_flip_inv {A} (R : relation A) x y : tc (flip R) x y -> tc R y x.
Proof.
  induction 1 as [x y Hxy|x y z Hxy _ IH]; [by apply tc_once|].
  eapply tc_r; done.
Qed.

Lemma tc_last_step {A} (R : relation A) x z :
  tc R x z -> exists y, rtc R x y /\ R y z.
Proof.
  induction 1 as [x z Hxz|x y z Hxy _ (y' & Hy & Hz)]; [by exists x|].
  exists y'. split; [by eapply rtc_l | done].
Qed.

Lemma acyclic_acc g :
  (forall x, ~ tc (child g) x x) -> forall c, Acc (child g) c.
Proof.
  intros Hacyc c.
  apply (tc_finite_sn (R := flip (child g)) c).
  - intros x Hx%tc_flip_inv. by apply (Hacyc x).
  - exists (seq 0 (length (mNodes g))). intros y Hy.
    apply tc_last_step in Hy as (z & _ & Hzy). unfold flip, child in Hzy.
    apply children_lt in Hzy. apply elem_of_seq. lia.
Qed.

Lemma all_completed g tr s :
  wired g -> Inv g tr s -> Live g tr s ->
  (forall x, ~ tc (child g) x x) ->
  (forall n nd, mNodes g !! n = Some nd -> nArgs nd = 0 /\ ~ can_throw nd) ->
  caller s = CPush [] ->
  mQueue (mPool (graph s)) = [] ->
  (forall w x, threads s !! w = Some x -> x = Idle) ->
  forall c, c < length (mNodes g) -> c ∈ completed tr.
Proof.
  intros Hw HI HL Hacyc Hplain Hcaller Hq Hidle c.
  induction (acyclic_acc g Hacyc c) as [c _ IH]. intros Hc.
  assert (Hpar : forall p, child g p c -> p ∈ completed tr).
  { intros p Hp. apply IH; [done | by eapply children_lt]. }
  pose proof (static_length _ _ (inv_static _ _ _ HI)) as Hlen.
  assert (Hc' : c < length (mNodes (graph s))) by lia.
  apply lookup_lt_is_Some in Hc' as [nd Hnd].
  destruct (static_lookup _ _ _ _ (inv_static _ _ _ HI) Hnd) as (nd0 & Hnd0 & Hst).
  apply static_part_fields in Hst as (Hargs & _).
  assert (Hzero : pending s c = Some 0%Z).
  { eapply parents_done_pending; eauto. rewrite Hargs. by apply (Hplain _ _ Hnd0). }
  assert (Hsub : c ∈ submitted tr).
  { destruct (live_zero _ _ _ HL _ Hzero) as [Hi|Hz].
    - destruct (live_initial _ _ _ HL _ Hi) as [?|(l & Hl & Hin)]; [done|].
      rewrite Hcaller in Hl. injection Hl as <-. by apply elem_of_nil in Hin.
    - destruct (inv_zero_submit _ _ _ HI _ Hz) as [?|(w & p & rest & Hb)]; [done|].
      by apply Hidle in Hb. }
  assert (Hstarted : c ∈ started tr).
  { rewrite (inv_queue _ _ _ HI), Hq, app_nil_r in Hsub. done. }
  destruct (live_started _ _ _ HL _ Hstarted) as [Hf|(w & ph & Hb)];
    [|by apply Hidle in Hb].
  apply finished_split in Hf as [?|Ht]; [done|].
  destruct (live_thrown _ _ _ HL _ Ht) as (nd1 & Hnd1 & Hthrow).
  by destruct (Hplain _ _ Hnd1).
Qed.

Lemma progress g tr s :
  wired g -> Inv g tr s -> Live g tr s ->
  (forall x, ~ tc (child g) x x) ->
  (forall n nd, mNodes g !! n = Some nd -> nArgs nd = 0 /\ ~ can_throw nd) ->
  mThreads (mPool g) <> [] ->
  caller s = CReturned \/ enabled s.
Proof.
  intros Hw HI HL Hacyc Hplain Hne.
  destruct (quiet_or_enabled _ _ _ Hw HI HL Hne) as [?|[Hq Hidle]]; [by right|].
  destruct (caller s) as [[|n rest]|] eqn:Hcaller; [| |by left]; right.
  - exists LCallerReturn. simpl. rewrite Hcaller.
    rewrite decide_True; [eauto|].
    rewrite (inv_completed _ _ _ HI), (static_length _ _ (inv_static _ _ _ HI)).
    f_equal. apply Nat.le_antisymm.
    + apply nodup_bounded; [by eapply inv_completed_nodup|].
      intros x Hx. by eapply completed_lt.
    + apply covers_length. by eapply all_completed.
  - exists LCallerPush. simpl. rewrite Hcaller. eauto.
Qed.


(** *** Cycles *)

Lemma blocked_parent g c : blocked g c -> exists p, child g p c /\ blocked g p.
Proof.
  intros (x & Hx & Hxc). apply rtc_inv_r in Hxc as [<-|(y & Hxy & Hyc)].
  - destruct (tc_last_step _ _ _ Hx) as (y & Hxy & Hyx).
    exists y. split; [done|]. by exists x.
  - exists y. split; [done|]. by exists x.
Qed.

Lemma blocked_never_ran g (w0 : W) tr s :
  armed g -> run (execute_begin g w0) tr s ->
  forall c, blocked g c -> c ∉ ran tr.
Proof.
  intros Ha Hrun. induction Hrun as [|tr s l ev s' Hrun IH Hstep]; intros c Hc Hin.
  - by apply elem_of_nil in Hin.
  - pose proof (Inv_run _ _ _ _ Ha Hrun) as HI.
    pose proof (Inv_run _ _ _ _ Ha (run_snoc _ _ _ _ _ _ Hrun Hstep)) as HI'.
    destruct (decide (c ∈ ran tr)) as [Hold|Hnew]; [by apply (IH c)|].
    assert (Hs : c ∈ started tr).
    { pose proof (inv_ran_started _ _ _ HI' _ Hin) as Hst.
      destruct ev; tr_norm_in Hin; tr_norm_in Hst; done. }
    destruct (blocked_parent _ _ Hc) as (p & Hp & Hbp).
    apply (IH p Hbp). eapply parents_ran; [done| |exact Hp].
    eapply inv_submitted_zero; [done|]. by eapply started_submitted.
Qed.

Lemma blocked_not_submitted g (w0 : W) tr s c :
  armed g -> run (execute_begin g w0) tr s -> blocked g c -> c ∉ submitted tr.
Proof.
  intros Ha Hrun Hc Hsub. pose proof (Inv_run _ _ _ _ Ha Hrun) as HI.
  destruct (blocked_parent _ _ Hc) as (p & Hp & Hbp).
  apply (blocked_never_ran _ _ _ _ Ha Hrun p Hbp).
  eapply parents_ran; [done| |exact Hp]. by eapply inv_submitted_zero.
Qed.

Lemma missing_blocks_return g tr s c :
  Inv g tr s -> c < length (mNodes g) -> c ∉ completed tr ->
  caller s <> CReturned.
Proof.
  intros HI Hc Hn Hret. apply Hn.
  eapply completed_all; [done| |done]. by apply (inv_returned _ _ _ HI).
Qed.

Lemma blocked_never_returns g (w0 : W) tr s c :
  armed g -> run (execute_begin g w0) tr s -> blocked g c ->
  caller s <> CReturned.
Proof.
  intros Ha Hrun Hc. pose proof (Inv_run _ _ _ _ Ha Hrun) as HI.
  destruct (blocked_parent _ _ Hc) as (p & Hp & _).
  apply (missing_blocks_return g tr s c HI).
  - by apply (wired_children _ (armed_wired _ Ha) p).
  - intros Hin. apply (blocked_not_submitted _ _ _ _ _ Ha Hrun Hc).
    by eapply started_submitted, inv_finished_started, inv_completed_finished.
Qed.

Lemma tc_first {A} (R : relation A) x z : tc R x z -> exists y, R x y.
Proof. destruct 1; eauto. Qed.

Lemma tc_subrel {A} (R R' : relation A) x y :
  (forall a b, R a b -> R' a b) -> tc R x y -> tc R' x y.
Proof.
  intros Hsub. induction 1 as [x y Hxy|x y z Hxy _ IH];
    [by apply tc_once, Hsub | by eapply tc_l; [apply Hsub|]].
Qed.

Lemma synced_edge g a b : synced g -> edge g a b <-> child g a b.
Proof.
  intros Hs. unfold edge, child, descendants, children.
  destruct (mNodes g !! a) as [nd|] eqn:E; [|done]. by rewrite (Hs _ _ E).
Qed.

Lemma hasCycle_result g :
  exists b, hasCycle g = Some b /\
    if b then exists r, r < length (mNodes g) /\ found_cycle g r
    else forall r, r < length (mNodes g) ->
         forall c, rtc (edge g) r c -> ~ tc (edge g) c c.
Proof.
  destruct (hasCycle_roots_ok g (S (size (universe g))) (seq 0 (length (mNodes g))))
    as [b [Hb Hspec]]; [lia | intros r Hr; apply elem_of_seq in Hr; lia |].
  exists b. split; [done|]. destruct b.
  - destruct Hspec as (r & Hr%elem_of_seq & Hcyc). exists r. split; [lia | done].
  - intros r Hr. apply Hspec, elem_of_seq. lia.
Qed.


Lemma hasCycle_true_blocked g :
  synced g -> hasCycle g = Some true -> exists c, blocked g c.
Proof.
  intros Hs Ht. destruct (hasCycle_result g) as (b & Hb & Hspec).
  rewrite Ht in Hb. injection Hb as <-.
  destruct Hspec as (r & _ & c & _ & Hc). exists c, c. split; [|done].
  eapply tc_subrel; [|exact Hc]. intros a b. by apply synced_edge.
Qed.

End ExecMore.

Section ExecTheorems2.
Context {W V : Type}.
Implicit Types (g : TaskGraph W V) (s : Sys W V) (tr : list Event).

(** X1: when [execute] has returned, every node of the graph was submitted,
    popped, run and completed exactly once and has notified all its
    children, no [execute] of a node threw, every pending count is zero,
    [mCompletedTasks] is the number of nodes, the queue is empty, every
    worker is back in its loop and no thread can move any more. *)
Theorem execute_returned g (w0 : W) tr s :
  armed g -> run (execute_begin g w0) tr s -> caller s = CReturned ->
  (forall n, n < length (mNodes g) ->
     count n (submitted tr) = 1 /\ count n (started tr) = 1 /\
     count n (ran tr) = 1 /\ count n (completed tr) = 1 /\
     fired n tr = children g n /\ pending s n = Some 0%Z) /\
  thrown tr = [] /\
  mCompletedTasks (graph s) = Z.of_nat (length (mNodes g)) /\
  mQueue (mPool (graph s)) = [] /\
  (forall w x, threads s !! w = Some x -> x = Idle) /\
  stuck s.
Proof.
  intros Ha Hrun Hret.
  pose proof (Inv_run _ _ _ _ Ha Hrun) as HI.
  pose proof (Live_run _ _ _ _ Ha Hrun) as HL.
  pose proof (inv_returned _ _ _ HI Hret) as Hlen.
  destruct (returned_quiet _ _ _ HI Hlen) as [Hq Hidle].
  split_and!; [|by eapply thrown_none| |done|done|by apply idle_stuck].
  - intros n Hn. pose proof (completed_all _ _ _ HI Hlen n Hn) as Hc.
    destruct (live_completed _ _ _ HL _ Hc) as [Hf Hr].
    pose proof (inv_completed_finished _ _ _ HI _ Hc) as Hfin.
    pose proof (inv_finished_started _ _ _ HI _ Hfin) as Hst.
    pose proof (started_submitted _ _ _ _ HI Hst) as Hsub.
    split_and!; [apply count_one; [by eapply inv_submitted | done]
                |apply count_one; [by eapply started_nodup | done]
                |apply count_one; [by eapply live_ran | done]
                |apply count_one; [by eapply inv_completed_nodup | done]
                |done
                |by eapply inv_submitted_zero].
  - by rewrite (inv_completed _ _ _ HI), Hlen.
Qed.

(** X2: at every point of an execution, with any number of workers: no node
    is popped, run, completed or thrown out of twice; a completed node has
    run, a node that ran was popped, a popped node was submitted and is a
    node of the graph; a node whose [execute] threw did not run its task; no
    two workers are inside [execute] of the same node; and [mCompletedTasks]
    counts the completed nodes, never more than the graph has. *)
Theorem execute_once g (w0 : W) tr s :
  armed g -> run (execute_begin g w0) tr s ->
  NoDup (started tr) /\ NoDup (ran tr) /\ NoDup (finished tr) /\
  NoDup (completed tr) /\
  (forall n, n ∈ completed tr -> n ∈ ran tr) /\
  (forall n, n ∈ ran tr -> n ∈ started tr) /\
  (forall n, n ∈ started tr -> n ∈ submitted tr /\ n < length (mNodes g)) /\
  (forall n, n ∈ thrown tr -> n ∉ ran tr) /\
  (forall w1 w2 n ph1 ph2,
     threads s !! w1 = Some (Busy n ph1) ->
     threads s !! w2 = Some (Busy n ph2) -> w1 = w2) /\
  mCompletedTasks (graph s) = Z.of_nat (length (completed tr)) /\
  length (completed tr) <= length (mNodes g).
Proof.
  intros Ha Hrun.
  pose proof (Inv_run _ _ _ _ Ha Hrun) as HI.
  pose proof (Live_run _ _ _ _ Ha Hrun) as HL.
  split_and!.
  - by eapply started_nodup.
  - by eapply live_ran.
  - by eapply inv_finished.
  - by eapply inv_completed_nodup.
  - intros n Hn. by apply (live_completed _ _ _ HL).
  - by eapply inv_ran_started.
  - intros n Hn. pose proof (started_submitted _ _ _ _ HI Hn).
    split; [done | by eapply submitted_lt].
  - intros n Ht Hr.
    destruct (live_thrown _ _ _ HL _ Ht) as (nd & Hnd & Hthrow).
    destruct (live_ran_ok _ _ _ HL _ Hr) as (nd' & Hnd' & Hno).
    by simplify_eq.
  - by eapply inv_busy_uniq.
  - by eapply inv_completed.
  - apply nodup_bounded; [by eapply inv_completed_nodup|].
    intros x Hx. by eapply completed_lt.
Qed.

(** X3: an execution has at most four events per node (submission, pop,
    task, and completion or exception), one per [setParent] registration
    (the notifications) and the return of [execute]: no execution goes on
    for ever. *)
Theorem execute_bounded g (w0 : W) tr s :
  armed g -> run (execute_begin g w0) tr s ->
  length (targets tr) <= registrations g /\
  length tr <= 4 * length (mNodes g) + registrations g + 1.
Proof.
  intros Ha Hrun.
  pose proof (Inv_run _ _ _ _ Ha Hrun) as HI.
  pose proof (Live_run _ _ _ _ Ha Hrun) as HL.
  split; [by eapply targets_bound, HI; apply armed_wired
         |by eapply trace_bound; [apply armed_wired|..]].
Qed.



(** X6: a node that waits for itself through a chain of [setParent]
    registrations, and every node that waits for such a node, is never
    submitted and never runs; with such a node in the graph [execute] never
    returns. *)
Theorem cycle_blocks g (w0 : W) tr s c :
  armed g -> blocked g c -> run (execute_begin g w0) tr s ->
  (c ∉ submitted tr) /\ (c ∉ ran tr) /\ caller s <> CReturned.
Proof.
  intros Ha Hc Hrun. split_and!.
  - by eapply blocked_not_submitted.
  - by eapply blocked_never_ran.
  - by eapply blocked_never_returns.
Qed.

(** X7: when [hasCycle] answers [true], [execute] never returns. *)
Theorem hasCycle_true_hangs g (w0 : W) tr s :
  armed g -> synced g -> hasCycle g = Some true ->
  run (execute_begin g w0) tr s -> caller s <> CReturned.
Proof.
  intros Ha Hs Ht Hrun. destruct (hasCycle_true_blocked _ Hs Ht) as [c Hc].
  by eapply blocked_never_returns.
Qed.

(** X8: a node with a move-only result and more than one result consumer
    never runs its task, notifies no child and never completes; its children
    are never submitted; [execute] of the graph never returns. *)
Theorem throw_blocks g (w0 : W) tr s b nd :
  armed g -> mNodes g !! b = Some nd -> can_throw nd ->
  run (execute_begin g w0) tr s ->
  (b ∉ ran tr) /\ fired b tr = [] /\ (b ∉ completed tr) /\
  (forall c, child g b c -> c ∉ submitted tr) /\
  caller s <> CReturned.
Proof.
  intros Ha Hb Hthrow Hrun.
  pose proof (Inv_run _ _ _ _ Ha Hrun) as HI.
  pose proof (Live_run _ _ _ _ Ha Hrun) as HL.
  assert (Hran : b ∉ ran tr).
  { intros Hr. destruct (live_ran_ok _ _ _ HL _ Hr) as (nd' & Hnd' & Hno).
    by simplify_eq. }
  assert (Hfired : fired b tr = []).
  { destruct (fired b tr) eqn:E; [done|]. exfalso. apply Hran.
    apply (inv_fired_ran _ _ _ HI). by rewrite E. }
  assert (Hcompl : b ∉ completed tr).
  { intros Hc. by apply Hran, (live_completed _ _ _ HL). }
  split_and!; [done..| |].
  - intros c Hc Hsub. apply Hran. eapply parents_ran; [done| |exact Hc].
    by eapply inv_submitted_zero.
  - eapply missing_blocks_return; [done| |done]. by eapply lookup_lt_Some.
Qed.

(** X9: the result slot during an execution of a graph whose slots were
    empty, for a node with a copyable result: before the node's task has run
    [getValue] throws, afterwards it returns a value the task returned and
    leaves the node as it is; when [execute] has returned the task has
    run. *)
Theorem execute_results g (w0 : W) tr s n nd0 nd f (moved : V -> V) :
  armed g -> fresh g -> run (execute_begin g w0) tr s ->
  mNodes g !! n = Some nd0 -> mTask nd0 = CopyTask f ->
  mNodes (graph s) !! n = Some nd ->
  (n ∉ ran tr -> getValue moved nd = (Throw logic_error_no_result, nd)) /\
  (n ∈ ran tr -> exists w, getValue moved nd = (Done (snd (f w)), nd)) /\
  (caller s = CReturned -> n ∈ ran tr).
Proof.
  intros Ha Hf Hrun Hn0 Ht Hn.
  pose proof (Inv_run _ _ _ _ Ha Hrun) as HI.
  pose proof (Live_run _ _ _ _ Ha Hrun) as HL.
  destruct (live_results _ _ _ HL _ _ _ Hn0 Hn) as [Hres1 Hres2].
  destruct (static_lookup _ _ _ _ (inv_static _ _ _ HI) Hn) as (nd1 & Hnd1 & Hst).
  assert (nd1 = nd0) as -> by congruence.
  apply static_part_task in Hst as [Hst _]. rewrite Ht in Hst.
  split_and!.
  - intros Hnot. unfold getValue. by rewrite (Hres2 Hnot), (Hf _ _ Hn0).
  - intros Hr. specialize (Hres1 Hr). unfold stored in Hres1.
    rewrite Ht in Hres1. destruct Hres1 as [w Hw]. exists w.
    unfold getValue. by rewrite Hw, Hst.
  - intros Hret. apply (live_completed _ _ _ HL).
    eapply completed_all; [done|by apply (inv_returned _ _ _ HI)|].
    by eapply lookup_lt_Some.
Qed.

(** X10: a graph whose pool has no worker ([TaskGraph(0)]) starts no node,
    and [execute] returns only if the graph has no node. *)
Theorem no_worker_hangs g (w0 : W) tr s :
  armed g -> mThreads (mPool g) = [] -> run (execute_begin g w0) tr s ->
  started tr = [] /\ ran tr = [] /\
  (caller s = CReturned -> mNodes g = []).
Proof.
  intros Ha Hno Hrun.
  pose proof (Inv_run _ _ _ _ Ha Hrun) as HI.
  pose proof (Live_run _ _ _ _ Ha Hrun) as HL.
  assert (Hst : started tr = []).
  { clear HI HL. induction Hrun as [|tr s l ev s' Hrun IH Hstep]; [done|].
    rewrite started_snoc, IH. simpl.
    pose proof (Live_run _ _ _ _ Ha Hrun) as HL.
    assert (Hths : threads s = []).
    { apply nil_length_inv. by rewrite (live_threads _ _ _ HL), Hno. }
    unfold threads in Hths.
    destruct l as [| |w|w|w|w|w]; simpl in Hstep;
      rewrite ?Hths, ?lookup_nil in Hstep; try done;
      destruct (caller s) as [[|? ?]|]; try case_decide; by simplify_eq. }
  assert (Hnone : forall l : list nat, (forall p, p ∈ l -> p ∈ started tr) -> l = []).
  { intros [|p l] Hl; [done|]. exfalso.
    assert (Hp : p ∈ started tr) by (apply Hl; by left).
    rewrite Hst in Hp. by apply elem_of_nil in Hp. }
  split_and!; [done | apply Hnone; by eapply inv_ran_started |].
  intros Hret. apply nil_length_inv.
  rewrite <- (inv_returned _ _ _ HI Hret).
  rewrite (Hnone (completed tr)); [done|].
  intros p Hp. by eapply inv_finished_started, inv_completed_finished.
Qed.

End ExecTheorems2.

(** ** Graphs as the API builds them *)

Section BuildFacts.
Context {W V : Type}.
Implicit Types (g : TaskGraph W V) (ops : list (BuildOp W V)).

Lemma wire_fields this_ xi_parent c (nd : TaskNode W V) :
  mDescendants (wire this_ xi_parent c nd)
  = mDescendants nd ++ (if decide (xi_parent = c) then [this_] else []) /\
  mDescendantArguments (wire this_ xi_parent c nd)
  = mDescendantArguments nd ++ (if decide (xi_parent = c) then [this_] else []) /\
  mDescendantTasks (wire this_ xi_parent c nd) = mDescendantTasks nd /\
  mResult (wire this_ xi_parent c nd) = mResult nd /\
  mParentCount (wire this_ xi_parent c nd)
  = (if decide (this_ = c) then pre_incr (mParentCount nd) else mParentCount nd) /\
  mTask (wire this_ xi_parent c nd) = mTask nd /\
  mName (wire this_ xi_parent c nd) = mName nd /\
  nArgs (wire this_ xi_parent c nd) = nArgs nd.
Proof.
  unfold wire. destruct (decide (xi_parent = c)), (decide (this_ = c)); simpl;
    by rewrite ?app_nil_r.
Qed.

Lemma built_new (xi_count : nat) : built 0 (new_graph (W := W) (V := V) xi_count).
Proof.
  split_and!; [apply armed_new_graph | | | |split; [done|]];
    intros c nd Hc; simpl in Hc; by rewrite lookup_nil in Hc.
Qed.

Lemma built_make m g t arity name :
  built m g -> (Z.of_nat (m + S arity) < 2 ^ 64)%Z ->
  built (m + S arity) (fst (makeTaskNode t arity name g)).
Proof.
  intros (Ha & Hs & Hp & Hf & Hlen & Hpc) Hm.
  assert (Hnew : forall c nd,
            (mNodes g ++ [new_node t arity name]) !! c = Some nd ->
            mNodes g !! c = Some nd \/ nd = new_node t arity name).
  { intros c nd [[_ ?]|[_ <-]]%lookup_snoc_Some; eauto. }
  split_and!.
  - apply armed_makeTaskNode; [done | lia | lia].
  - intros c nd [?| ->]%Hnew; [by eapply Hs | done].
  - intros c nd [?| ->]%Hnew; [by eapply Hp | done].
  - intros c nd [?| ->]%Hnew; [by eapply Hf | done].
  - split; simpl.
    + rewrite length_app. simpl. lia.
    + intros c nd [Hc| ->]%Hnew.
      * specialize (Hpc _ _ Hc). lia.
      * simpl. unfold size_wrap. rewrite Z.mod_small by lia. lia.
Qed.

Lemma built_setParent m g this_ xi_parent g' :
  built m g -> setParent this_ xi_parent g = Some g' ->
  (Z.of_nat (m + 1) < 2 ^ 64)%Z ->
  built (m + 1) g'.
Proof.
  intros (Ha & Hs & Hp & Hf & Hlen & Hpc) Hset Hm.
  pose proof (setParent_Some _ _ _ _ Hset) as (_ & _ & Hlen' & _ & _ & Hlook).
  assert (Hold : forall c nd', mNodes g' !! c = Some nd' ->
            exists nd, mNodes g !! c = Some nd /\ nd' = wire this_ xi_parent c nd).
  { intros c nd' Hc. rewrite Hlook in Hc.
    destruct (mNodes g !! c) as [nd|]; simplify_eq/=. eauto. }
  split_and!.
  - eapply armed_setParent; [done..|]. intros nd Hnd.
    specialize (Hpc _ _ Hnd). lia.
  - intros c nd' (nd & Hnd & ->)%Hold.
    destruct (wire_fields this_ xi_parent c nd) as (-> & -> & _).
    by rewrite (Hs _ _ Hnd).
  - intros c nd' (nd & Hnd & ->)%Hold.
    destruct (wire_fields this_ xi_parent c nd) as (_ & _ & -> & _). by eapply Hp.
  - intros c nd' (nd & Hnd & ->)%Hold.
    destruct (wire_fields this_ xi_parent c nd) as (_ & _ & _ & -> & _). by eapply Hf.
  - split; [lia|]. intros c nd' (nd & Hnd & ->)%Hold.
    destruct (wire_fields this_ xi_parent c nd) as (_ & _ & _ & _ & -> & _).
    specialize (Hpc _ _ Hnd).
    destruct (wired_count _ (armed_wired _ Ha) _ _ Hnd) as [Hcnt _].
    case_decide; [|lia]. unfold pre_incr, size_wrap.
    rewrite Z.mod_small by lia. lia.
Qed.

Lemma within_mono m m' g : m <= m' -> within m g -> within m' g.
Proof.
  intros Hle [Hlen Hpc]. split; [lia|]. intros c nd Hc.
  specialize (Hpc _ _ Hc). lia.
Qed.

Lemma build_graph_built ops : forall g m g',
  built m g -> build_graph ops g = Some g' ->
  (Z.of_nat (m + build_weight ops) < 2 ^ 64)%Z ->
  built (m + build_weight ops) g' /\
  length (mNodes g') = length (mNodes g) + makes ops /\
  mPool g' = mPool g.
Proof.
  induction ops as [|op ops IH]; intros g m g' Hb Hbuild Hm; simpl in *.
  - injection Hbuild as <-. by rewrite !Nat.add_0_r.
  - destruct (build_step g op) as [g1|] eqn:Hstep; [|done].
    destruct op as [t arity name|this_ xi_parent]; simpl in *.
    + injection Hstep as <-.
      destruct (IH _ (m + S arity) _ (built_make _ _ t arity name Hb ltac:(lia)) Hbuild)
        as (Hb' & Hlen & Hpool); [lia|].
      split_and!.
      * by replace (m + S (arity + build_weight ops))
          with (m + S arity + build_weight ops) by lia.
      * rewrite Hlen. simpl. rewrite length_app. simpl. lia.
      * by rewrite Hpool.
    + destruct (IH _ (m + 1) _ (built_setParent _ _ _ _ _ Hb Hstep ltac:(lia)) Hbuild)
        as (Hb' & Hlen & Hpool); [lia|].
      pose proof (setParent_Some _ _ _ _ Hstep) as (_ & _ & Hlen' & Hpool' & _).
      split_and!.
      * by replace (m + S (build_weight ops))
          with (m + 1 + build_weight ops) by lia.
      * rewrite Hlen. lia.
      * by rewrite Hpool.
Qed.

Lemma plain_no_throw g n nd :
  plain g -> mNodes g !! n = Some nd -> ~ can_throw nd.
Proof.
  intros Hp Hn. unfold can_throw. rewrite (Hp _ _ Hn).
  destruct (mTask nd); simpl; lia.
Qed.

Lemma build_graph_ready ops (xi_count : nat) g :
  build_graph ops (new_graph xi_count) = Some g ->
  (Z.of_nat (build_weight ops) < 2 ^ 64)%Z ->
  armed g /\ synced g /\ plain g /\ fresh g /\
  (forall n nd, mNodes g !! n = Some nd -> ~ can_throw nd) /\
  length (mNodes g) = makes ops /\
  mThreads (mPool g) = replicate xi_count Idle.
Proof.
  intros Hbuild Hw.
  destruct (build_graph_built ops _ 0 _ (built_new xi_count) Hbuild)
    as ((Ha & Hs & Hp & Hf & _) & Hlen & Hpool); [done|].
  split_and!; [done..| |done|by rewrite Hpool].
  intros n nd Hn. by eapply plain_no_throw.
Qed.

End BuildFacts.

Section CycleMore.
Context {W V : Type}.
Implicit Types (g : TaskGraph W V).

Lemma descendants_setParent this_ xi_parent g g' a :
  setParent this_ xi_parent g = Some g' ->
  descendants g' a
  = descendants g a ++ (if decide (xi_parent = a) then [this_] else []).
Proof.
  intros (Ht & Hp & Hlen & _ & _ & Hlook)%setParent_Some.
  unfold descendants. rewrite Hlook.
  destruct (mNodes g !! a) as [nd|] eqn:Hnd; simpl.
  - by destruct (wire_fields this_ xi_parent a nd) as (-> & _).
  - apply lookup_ge_None in Hnd. rewrite decide_False by lia. done.
Qed.

Lemma edge_setParent this_ xi_parent g g' a b :
  setParent this_ xi_parent g = Some g' ->
  edge g' a b <-> edge g a b \/ (a = xi_parent /\ b = this_).
Proof.
  intros Hset. unfold edge. rewrite (descendants_setParent _ _ _ _ _ Hset).
  rewrite elem_of_app. case_decide as Hd.
  - rewrite list_elem_of_singleton. naive_solver.
  - rewrite elem_of_nil. naive_solver.
Qed.

Lemma tc_extend {A} (R R' : relation A) p c x y :
  (forall a b, R' a b -> R a b \/ (a = p /\ b = c)) ->
  tc R' x y -> tc R x y \/ (rtc R x p /\ rtc R c y).
Proof.
  intros Hext. induction 1 as [x y Hxy|x y z Hxy _ IH].
  - destruct (Hext _ _ Hxy) as [?|[-> ->]]; [left; by apply tc_once | by right].
  - destruct (Hext _ _ Hxy) as [Hxy'|[-> ->]]; destruct IH as [Hyz|[Hyp Hcz]].
    + left. by eapply tc_l.
    + right. split; [by eapply rtc_l | done].
    + right. split; [done | by apply tc_rtc].
    + by right.
Qed.

Lemma edge_source g a b : edge g a b -> a < length (mNodes g).
Proof.
  unfold edge, descendants. destruct (mNodes g !! a) as [nd|] eqn:E.
  - intros _. by eapply lookup_lt_Some.
  - intros Hb. by apply elem_of_nil in Hb.
Qed.

Lemma hasCycle_true_cycle g :
  hasCycle g = Some true <-> exists c, tc (edge g) c c.
Proof.
  destruct (hasCycle_result g) as (b & Hb & Hspec). rewrite Hb. split.
  - intros [= ->]. destruct Hspec as (r & _ & c & _ & Hc). eauto.
  - intros [c Hc]. destruct b; [done|]. exfalso.
    destruct (tc_first _ _ _ Hc) as [y Hy].
    apply (Hspec c (edge_source _ _ _ Hy) c); done.
Qed.

Lemma hasCycle_false_cycle g :
  hasCycle g = Some false <-> forall c, ~ tc (edge g) c c.
Proof.
  destruct (hasCycle_result g) as (b & Hb & Hspec). rewrite Hb. split.
  - intros [= ->] c Hc. destruct (tc_first _ _ _ Hc) as [y Hy].
    apply (Hspec c (edge_source _ _ _ Hy) c); done.
  - intros Hno. destruct b; [|done]. exfalso.
    destruct Hspec as (r & _ & c & _ & Hc). by apply (Hno c).
Qed.

Lemma map_is_fmap {A B} (f : A -> B) (l : list A) : map f l = f <$> l.
Proof. induction l; simpl; by f_equal. Qed.

Lemma visit_ext (dfs dfs' : nat -> gmap nat bool -> option (bool * gmap nat bool))
    cur todo col :
  (forall c col, dfs c col = dfs' c col) ->
  visit dfs cur todo col = visit dfs' cur todo col.
Proof.
  intros Hext. revert col. induction todo as [|n todo IH]; intros col; simpl; [done|].
  destruct (col !! n) as [[|]|]; [done | apply IH |].
  rewrite Hext. destruct (dfs' n col) as [[[|] col']|]; [done | apply IH | done].
Qed.

Lemma DFS_ext fuel g g' :
  (forall n, descendants g n = descendants g' n) ->
  forall cur col, DFS fuel g cur col = DFS fuel g' cur col.
Proof.
  intros Hd. induction fuel as [|fuel IH]; intros cur col; simpl; [done|].
  rewrite Hd. by apply visit_ext.
Qed.

Lemma hasCycle_ext g g' :
  mDescendants <$> mNodes g = mDescendants <$> mNodes g' ->
  hasCycle g = hasCycle g'.
Proof.
  intros Hmap.
  assert (Hlen : length (mNodes g) = length (mNodes g')).
  { by rewrite <- (length_fmap mDescendants (mNodes g)), Hmap, length_fmap. }
  assert (Hd : forall n, descendants g n = descendants g' n).
  { intros n. unfold descendants.
    pose proof (f_equal (fun l => l !! n) Hmap) as Hn. simpl in Hn.
    rewrite !list_lookup_fmap in Hn.
    destruct (mNodes g !! n), (mNodes g' !! n); by simplify_eq/=. }
  assert (Hu : universe g = universe g').
  { unfold universe. by rewrite Hlen, !map_is_fmap, Hmap. }
  unfold hasCycle. rewrite Hu, Hlen.
  generalize (S (size (universe g'))) as fuel.
  generalize (seq 0 (length (mNodes g'))) as roots.
  intros roots fuel. induction roots as [|r roots IH]; simpl; [done|].
  rewrite (DFS_ext fuel g g' Hd). by rewrite IH.
Qed.

Lemma static_descendants (ns ns0 : list (TaskNode W V)) :
  static_part <$> ns = static_part <$> ns0 ->
  mDescendants <$> ns = mDescendants <$> ns0.
Proof.
  intros Hst.
  pose proof (f_equal (fmap (M := list) mDescendants) Hst) as H.
  by rewrite <- !list_fmap_compose in H.
Qed.

End CycleMore.

Section BuildTheorems.
Context {W V : Type}.
Implicit Types (g : TaskGraph W V) (ops : list (BuildOp W V)).

(** X11: a graph built by [makeTaskNode] and [setParent] calls on a new
    [TaskGraph] (the counters staying below [2^64]) is ready for [execute]:
    every counter is the node's arity plus its registrations, every pending
    count equals the parent count, the list that [hasCycle] walks is the
    list that [execute] notifies, no node has a result consumer, so no
    [execute] of a node can throw, no result is stored, the nodes are those
    made, and the pool is untouched. *)
Theorem built_graph_ready ops (xi_count : nat) g :
  build_graph ops (new_graph xi_count) = Some g ->
  (Z.of_nat (build_weight ops) < 2 ^ 64)%Z ->
  armed g /\ synced g /\ plain g /\ fresh g /\
  (forall n nd, mNodes g !! n = Some nd -> ~ can_throw nd) /\
  length (mNodes g) = makes ops /\
  mThreads (mPool g) = replicate xi_count Idle.
Proof. apply build_graph_ready. Qed.

(** X12: on a graph without a cycle, [setParent] makes [hasCycle] answer
    [true] exactly when the new parent already is, or already waits for, the
    node it becomes a parent of; otherwise the answer stays [false]. *)
Theorem setParent_cycle this_ xi_parent g g' :
  hasCycle g = Some false -> setParent this_ xi_parent g = Some g' ->
  (hasCycle g' = Some true <-> rtc (edge g) this_ xi_parent) /\
  (hasCycle g' = Some false <-> ~ rtc (edge g) this_ xi_parent).
Proof.
  intros Hno Hset.
  assert (Hiff : hasCycle g' = Some true <-> rtc (edge g) this_ xi_parent).
  { rewrite hasCycle_true_cycle. split.
    - intros [x Hx].
      apply (tc_extend (edge g) (edge g') xi_parent this_) in Hx
        as [Hx|[Hxp Hcx]].
      + by apply (proj1 (hasCycle_false_cycle g) Hno) in Hx.
      + by etrans.
      + intros a b. by apply edge_setParent.
    - intros Hrtc. exists this_. eapply tc_rtc_l.
      + eapply rtc_subrel; [|exact Hrtc]. intros a b Hab.
        apply (edge_setParent _ _ _ _ _ _ Hset). by left.
      + apply tc_once. apply (edge_setParent _ _ _ _ _ _ Hset). by right. }
  split; [done|]. rewrite <- Hiff.
  destruct (hasCycle_result g') as (b & -> & _). destruct b; naive_solver.
Qed.

(** X13: [hasCycle] reads the descendant lists only: its answer is the same
    after [reset] and in every state of an execution of the graph. *)
Theorem hasCycle_stable g (w0 : W) tr s :
  armed g -> run (execute_begin g w0) tr s ->
  hasCycle (reset g) = hasCycle g /\
  hasCycle (graph s) = hasCycle g /\
  hasCycle (reset (graph s)) = hasCycle g.
Proof.
  intros Ha Hrun. pose proof (Inv_run _ _ _ _ Ha Hrun) as HI.
  assert (Hreset : forall g1 : TaskGraph W V, hasCycle (reset g1) = hasCycle g1).
  { intros g1. apply hasCycle_ext. simpl. rewrite <- list_fmap_compose.
    by apply list_fmap_ext. }
  split_and!; [done | | rewrite Hreset];
    apply hasCycle_ext, static_descendants, (inv_static _ _ _ HI).
Qed.

End BuildTheorems.

(** ** The queue under interleaved calls *)

Module QueueOpsFacts.
Import QueueOps.
Section Facts.
Context {T : Type}.
Implicit Types (calls : list (Call T)) (q : Queue.queue T).

Lemma apply_spec calls : forall q xo,
  delivered (fst (apply calls q xo)) ++ snd (apply calls q xo) = q ++ pushed calls.
Proof.
  induction calls as [|[x|] calls IH]; intros q xo; simpl.
  - by rewrite app_nil_r.
  - unfold pushed. simpl. rewrite IH. by rewrite <- app_assoc.
  - destruct q as [|front q]; simpl.
    + specialize (IH [] xo).
      destruct (apply calls [] xo) as [out q''] eqn:E. simpl in *. done.
    + specialize (IH q front).
      destruct (apply calls q front) as [out q''] eqn:E. simpl in *.
      unfold delivered in *. simpl. by rewrite IH.
Qed.

Lemma apply_xo calls : forall q xo xo', apply calls q xo = apply calls q xo'.
Proof.
  induction calls as [|[x|] calls IH]; intros q xo xo'; simpl; [done | apply IH |].
  destruct q as [|front q]; simpl; [|done]. by rewrite (IH [] xo xo').
Qed.

Lemma apply_app calls1 calls2 : forall q xo,
  apply (calls1 ++ calls2) q xo
  = (fst (apply calls1 q xo) ++ fst (apply calls2 (snd (apply calls1 q xo)) xo),
     snd (apply calls2 (snd (apply calls1 q xo)) xo)).
Proof.
  induction calls1 as [|[x|] calls1 IH]; intros q xo; simpl.
  - by destruct (apply calls2 q xo).
  - apply IH.
  - destruct q as [|front q]; simpl.
    + rewrite IH. by destruct (apply calls1 [] xo).
    + rewrite IH. destruct (apply calls1 q front) as [o1 q1]. simpl.
      by rewrite (apply_xo calls2 q1 front xo).
Qed.

(** X14: whatever way [push] and [pop] calls of several threads interleave
    on a queue, the elements delivered by the successful pops, in the order
    of the calls, followed by what is left in the queue, are the initial
    contents followed by the pushed elements in the order of the calls:
    nothing is lost, duplicated or reordered.  Each [pop] delivers the
    front of the queue as the calls before it left it, and fails exactly
    when they left it empty. *)
Theorem queue_interleaved calls q (xo : T) :
  delivered (fst (apply calls q xo)) ++ snd (apply calls q xo) = q ++ pushed calls /\
  forall calls1 calls2, calls = calls1 ++ Pop :: calls2 ->
    fst (apply calls q xo) !! length (fst (apply calls1 q xo))
    = Some (head (snd (apply calls1 q xo))).
Proof.
  split; [apply apply_spec|]. intros calls1 calls2 ->.
  rewrite apply_app. simpl.
  rewrite lookup_app_r by done. rewrite Nat.sub_diag.
  destruct (snd (apply calls1 q xo)) as [|front q1]; simpl.
  - by destruct (apply calls2 [] xo).
  - by destruct (apply calls2 q1 front).
Qed.

End Facts.
End QueueOpsFacts.

(** ** Resizing the pool *)

Module ControlFacts.
Import Control.

Lemma grow_spec n : forall p,
  mThreads (grow n p) = mThreads p ++ seq (spawned p) n /\
  mFlags (grow n p) = mFlags p ++ replicate n false /\
  mStop (grow n p) = mStop p /\ mDone (grow n p) = mDone p /\
  signalled (grow n p) = signalled p /\
  spawned (grow n p) = spawned p + n.
Proof.
  induction n as [|n IH]; intros p; simpl.
  - by rewrite !app_nil_r, Nat.add_0_r.
  - destruct (IH (mkPool (mThreads p ++ [spawned p]) (mFlags p ++ [false])
                    (mStop p) (mDone p) (signalled p) (S (spawned p))))
      as (-> & -> & -> & -> & -> & ->). simpl.
    rewrite <- !app_assoc. split_and!; try done; lia.
Qed.

Lemma grow_ok n p :
  ok p -> (Z.of_nat (length (mThreads p) + n) < 2 ^ 64)%Z -> ok (grow n p).
Proof.
  intros [Hf Hs Hnd Hsp] Hn.
  destruct (grow_spec n p) as (Ht & Hfl & _ & _ & _ & Hspn).
  constructor; rewrite ?Ht, ?Hfl, ?Hspn.
  - rewrite !length_app, length_replicate, length_seq. lia.
  - rewrite length_app, length_seq. done.
  - apply NoDup_app. split_and!; [done | | apply NoDup_seq].
    intros t Ht1%Hsp Ht2%elem_of_seq. lia.
  - intros t [Ht1%Hsp|Ht2%elem_of_seq]%elem_of_app; lia.
Qed.

Lemma shrink_spec j : forall fuel n p,
  length (mFlags p) = length (mThreads p) ->
  (Z.of_nat (length (mThreads p)) < 2 ^ 64)%Z ->
  n + j <= length (mThreads p) -> j < fuel ->
  exists p',
    shrink fuel (size_wrap (Z.of_nat (n + j) - 1)) (Z.of_nat n) p
    = (if decide (n = 0) then OutOfRange (2 ^ 64 - 1) p' else Ok p') /\
    mThreads p' = mThreads p /\
    length (mFlags p') = length (mFlags p) /\
    take n (mFlags p') = take n (mFlags p) /\
    (forall k, n <= k < n + j -> mFlags p' !! k = Some true) /\
    (forall k, n + j <= k -> mFlags p' !! k = mFlags p !! k) /\
    signalled p' = take j (drop n (mThreads p)) ++ signalled p /\
    mStop p' = mStop p /\ mDone p' = mDone p /\ spawned p' = spawned p.
Proof.
  induction j as [|j IH]; intros [|fuel] n p Hlen Hsize Hle Hfuel; try lia.
  - exists p. simpl. rewrite Nat.add_0_r. split_and!; try done; [|intros; lia].
    destruct (decide (n = 0)) as [->|Hn].
    + change (size_wrap (Z.of_nat 0 - 1)) with (2 ^ 64 - 1)%Z.
      rewrite decide_True by lia.
      rewrite (lookup_ge_None_2 (mFlags p)) by lia. done.
    + unfold size_wrap. rewrite Z.mod_small by lia.
      rewrite decide_False by lia. done.
  - assert (Hi : size_wrap (Z.of_nat (n + S j) - 1) = Z.of_nat (n + j)).
    { unfold size_wrap. rewrite Z.mod_small by lia. lia. }
    simpl. rewrite Hi, decide_True by lia. rewrite Nat2Z.id.
    destruct (lookup_lt_is_Some_2 (mFlags p) (n + j)) as [b Hb]; [lia|].
    destruct (lookup_lt_is_Some_2 (mThreads p) (n + j)) as [t Ht]; [lia|].
    rewrite Hb, Ht.
    set (p1 := mkPool (mThreads p) (<[n + j := true]> (mFlags p))
                 (mStop p) (mDone p) (t :: signalled p) (spawned p)).
    destruct (IH fuel n p1) as (p' & Hrun & Hth & Hfl & Htake & Hset & Hkeep & Hsig & Hrest);
      [by (simpl; rewrite length_insert) | done | simpl; lia | lia|].
    destruct Hrest as (Hst & Hdn & Hsp).
    exists p'. unfold pre_decr. split_and!; try done.
    + by rewrite Hfl; simpl; rewrite length_insert.
    + rewrite Htake. simpl. apply take_insert_ge. lia.
    + intros k Hk. destruct (decide (k = n + j)) as [->|Hne].
      * rewrite Hkeep by lia. simpl. apply list_lookup_insert_eq. lia.
      * apply Hset. lia.
    + intros k Hk. rewrite Hkeep by lia. simpl.
      apply list_lookup_insert_ne. lia.
    + rewrite Hsig. simpl.
      rewrite (take_S_r _ j t) by (by rewrite lookup_drop).
      by rewrite <- app_assoc.
Qed.

Lemma truncate_ok n p : ok p -> ok (truncate n p).
Proof.
  intros [Hf Hs Hnd Hsp]. constructor; simpl.
  - rewrite !length_take. lia.
  - rewrite length_take. lia.
  - apply (sublist_NoDup _ (mThreads p)); [done | apply sublist_take].
  - intros t Ht. apply Hsp. by eapply subseteq_take.
Qed.

(** X15: [resize] does nothing on a pool that was stopped.  Otherwise, a
    count that is not below the size appends new threads with their flags
    down; a count between zero and the size sets the flag of every thread
    behind the new size, detaches it and cuts both vectors to the new size;
    but a count of zero on a pool that has threads flags and detaches all of
    them and then, the index being a [size_t] that cannot get below zero,
    goes on to index [mFlags] at [2^64 - 1], out of its range. *)
Theorem pool_resize (xi_count : nat) (p : Pool) :
  ok p -> (Z.of_nat xi_count < 2 ^ 64)%Z ->
  (mStop p || mDone p = true -> resize xi_count p = Ok p) /\
  (mStop p || mDone p = false -> length (mThreads p) <= xi_count ->
   exists p', resize xi_count p = Ok p' /\ ok p' /\ size p' = xi_count /\
     mThreads p' = mThreads p ++ seq (spawned p) (xi_count - size p) /\
     mFlags p' = mFlags p ++ replicate (xi_count - size p) false /\
     signalled p' = signalled p) /\
  (mStop p || mDone p = false -> 0 < xi_count < length (mThreads p) ->
   exists p', resize xi_count p = Ok p' /\ ok p' /\ size p' = xi_count /\
     mThreads p' = take xi_count (mThreads p) /\
     mFlags p' = take xi_count (mFlags p) /\
     signalled p' = drop xi_count (mThreads p) ++ signalled p) /\
  (mStop p || mDone p = false -> xi_count = 0 -> 0 < length (mThreads p) ->
   exists p', resize xi_count p = OutOfRange (2 ^ 64 - 1) p' /\
     mThreads p' = mThreads p /\
     (forall k, k < length (mThreads p) -> mFlags p' !! k = Some true) /\
     signalled p' = mThreads p ++ signalled p).
Proof.
  intros Hok Hcount. pose proof Hok as [Hf Hs Hnd Hsp]. split_and!.
  - intros Hstop. unfold resize. by rewrite Hstop.
  - intros Hstop Hle. unfold resize. rewrite Hstop, decide_True by done.
    exists (grow (xi_count - length (mThreads p)) p).
    destruct (grow_spec (xi_count - length (mThreads p)) p)
      as (Ht & Hfl & _ & _ & Hsig & _).
    split_and!; try done.
    + apply grow_ok; [done | lia].
    + unfold size. rewrite Ht, length_app, length_seq. lia.
  - intros Hstop [Hpos Hlt]. unfold resize. rewrite Hstop, decide_False by lia.
    destruct (shrink_spec (length (mThreads p) - xi_count)
                (S (length (mThreads p))) xi_count p)
      as (p' & Hrun & Hth & Hfl & Htake & _ & _ & Hsig & Hst & Hdn & Hspn);
      [done | done | lia | lia|].
    replace (xi_count + (length (mThreads p) - xi_count))
      with (length (mThreads p)) in Hrun by lia.
    rewrite decide_False in Hrun by lia. rewrite Hrun.
    exists (truncate xi_count p'). split_and!; try done.
    + apply truncate_ok. constructor; rewrite ?Hth, ?Hfl, ?Hspn; done.
    + unfold size. simpl. rewrite Hth, length_take. lia.
    + simpl. by rewrite Hth.
    + simpl. rewrite Hsig. f_equal. apply take_ge. rewrite length_drop. lia.
  - intros Hstop -> Hpos. unfold resize. rewrite Hstop, decide_False by lia.
    destruct (shrink_spec (length (mThreads p))
                (S (length (mThreads p))) 0 p)
      as (p' & Hrun & Hth & Hfl & _ & Hset & _ & Hsig & _);
      [done | done | lia | lia|].
    rewrite decide_True in Hrun by done.
    change (0 + length (mThreads p)) with (length (mThreads p)) in Hrun.
    rewrite Hrun. exists p'. split_and!; try done.
    + intros k Hk. apply Hset. lia.
    + rewrite Hsig, drop_0. f_equal. by apply take_ge.
Qed.

End ControlFacts.

(** ** Tests.cpp, Test2 *)

Module Test2Facts.
Import Test2.

Lemma test2_build_ok : build 1 = Some task_graph.
Proof. reflexivity. Qed.

Lemma test2_build2_ok : build 2 = Some task_graph2.
Proof. reflexivity. Qed.

Lemma test2_weight : (Z.of_nat (build_weight program) < 2 ^ 64)%Z.
Proof. vm_compute. reflexivity. Qed.

Lemma test2_graph_armed : armed task_graph.
Proof. by destruct (build_graph_ready _ _ _ test2_build_ok test2_weight). Qed.

Lemma test2_graph_fresh : fresh task_graph.
Proof.
  by destruct (build_graph_ready _ _ _ test2_build_ok test2_weight) as (_ & _ & _ & ? & _).
Qed.

Lemma test2_schedule_forced : forced schedule start.
Proof.
  unfold schedule.
  do 26 Test1Facts.forced_step.
  intros l' ev s' Hstep.
  destruct l' as [| |[|?]|[|?]|[|?]|[|?]|[|?]]; vm_compute in Hstep; discriminate Hstep.
Qed.

Lemma test2_trace_run : exists s, run start trace s /\ caller s = CReturned.
Proof.
  destruct (exec schedule start) as [[tr s]|] eqn:Hex; [|by vm_compute in Hex].
  exists s. pose proof (exec_run _ _ _ _ Hex) as Hrun.
  vm_compute in Hex. injection Hex as <- <-. split; [exact Hrun | reflexivity].
Qed.

(** X16: Test2: [hasCycle] answers [false]; with the single worker every
    execution that returns leaves [num == 1], and [task1->getValue()] is 13
    and leaves the node as it is.  The value of [num] is owed to the single
    worker: on a pool of two threads the same graph has an execution that
    returns with [num == 4]. *)
Theorem test2_output :
  hasCycle task_graph = Some false /\
  (exists tr s, run start tr s /\ caller s = CReturned) /\
  (forall tr s, run start tr s -> caller s = CReturned ->
     world s = 1%Z /\
     exists nd, mNodes (graph s) !! task1 = Some nd /\
       forall moved, getValue moved nd = (Done 13%Z, nd)) /\
  (exists tr s, run start2 tr s /\ caller s = CReturned /\ world s = 4%Z).
Proof.
  split_and!.
  - vm_compute. reflexivity.
  - destruct test2_trace_run as (s & Hrun & Hret). eauto.
  - intros tr s Hrun Hret.
    destruct (forced_run _ _ _ _ test2_schedule_forced Hrun) as (k & Hk & Hex).
    simpl in Hk.
    do 26 (destruct k as [|k];
           [vm_compute in Hex; injection Hex as <- <-; discriminate Hret|]).
    destruct k as [|k]; [|lia].
    vm_compute in Hex. injection Hex as <- <-. split; [reflexivity|].
    eexists. split; [reflexivity|]. intros moved. reflexivity.
  - destruct (exec schedule2 start2) as [[tr s]|] eqn:Hex; [|by vm_compute in Hex].
    exists tr, s. split; [apply (exec_run _ _ _ _ Hex)|].
    vm_compute in Hex. injection Hex as <- <-. by vm_compute.
Qed.

End Test2Facts.

(** ** The theorems at work on the tests' graphs *)

Module Test1More.
Import Test1.

Lemma execute_returned_witness :
  armed task_graph /\
  exists s, run start trace s /\ caller s = CReturned /\
    count task4 (ran trace) = 1 /\ thrown trace = [] /\ stuck s.
Proof.
  split; [apply Test1Facts.task_graph_armed|].
  destruct Test1Witness.trace_run as (s & Hrun & Hret). exists s.
  destruct (execute_returned _ _ _ _ Test1Facts.task_graph_armed Hrun Hret)
    as (Hall & Hthrown & _ & _ & _ & Hstuck).
  split_and!; [done | done | | done | done].
  apply (Hall task4). vm_compute. lia.
Defined.

Lemma execute_once_witness :
  armed task_graph /\
  exists s, run start (take 9 trace) s /\
    NoDup (ran (take 9 trace)) /\ length (completed (take 9 trace)) <= 4.
Proof.
  split; [apply Test1Facts.task_graph_armed|].
  destruct (exec (take 9 schedule) start) as [[tr s]|] eqn:Hex;
    [|by vm_compute in Hex].
  pose proof (exec_run _ _ _ _ Hex) as Hrun.
  vm_compute in Hex. injection Hex as <- <-.
  eexists. split; [exact Hrun|].
  destruct (execute_once _ _ _ _ Test1Facts.task_graph_armed Hrun)
    as (_ & Hran & _ & _ & _ & _ & _ & _ & _ & _ & Hlen).
  split; [exact Hran | exact Hlen].
Defined.

Lemma execute_bounded_witness :
  armed task_graph /\
  exists s, run start trace s /\
    length trace <= 4 * 4 + registrations task_graph + 1 /\
    4 * 4 + registrations task_graph + 1 = 22 /\ length trace = 22.
Proof.
  split; [apply Test1Facts.task_graph_armed|].
  destruct Test1Witness.trace_run as (s & Hrun & Hret). exists s.
  destruct (execute_bounded _ _ _ _ Test1Facts.task_graph_armed Hrun) as [_ Hb].
  split_and!; [done | exact Hb | reflexivity | reflexivity].
Defined.

Lemma hasCycle_stable_witness :
  armed task_graph /\
  exists s, run start trace s /\ hasCycle (reset (graph s)) = Some false.
Proof.
  split; [apply Test1Facts.task_graph_armed|].
  destruct Test1Witness.trace_run as (s & Hrun & Hret). exists s.
  destruct (hasCycle_stable _ _ _ _ Test1Facts.task_graph_armed Hrun) as (_ & _ & ->).
  split; [done | by vm_compute].
Defined.

Lemma setParent_cycle_witness :
  hasCycle task_graph = Some false /\
  exists g', setParent task1 task4 task_graph = Some g' /\
    hasCycle g' = Some true.
Proof.
  assert (Hno : hasCycle task_graph = Some false) by (by vm_compute).
  split; [exact Hno|].
  destruct (setParent task1 task4 task_graph) as [g'|] eqn:Hset;
    [|by vm_compute in Hset].
  exists g'. split; [done|].
  apply (proj1 (setParent_cycle _ _ _ _ Hno Hset)).
  apply rtc_once. unfold edge. vm_compute.
  apply elem_of_cons. right. apply elem_of_cons. by left.
Defined.

End Test1More.

Module Test2More.
Import Test2 Test2Facts.




Lemma execute_results_witness :
  armed task_graph /\ fresh task_graph /\
  exists s nd, run start trace s /\ mNodes (graph s) !! task1 = Some nd /\
    exists w, getValue id nd = (Done (snd ((fun _ : Z => (0, 13)%Z) w)), nd).
Proof.
  split_and!; [apply test2_graph_armed | apply test2_graph_fresh |].
  destruct test2_trace_run as (s & Hrun & Hret).
  pose proof (Inv_run _ _ _ _ test2_graph_armed Hrun) as HI.
  assert (Hlt : task1 < length (mNodes (graph s))).
  { rewrite (static_length _ _ (inv_static _ _ _ HI)). vm_compute. lia. }
  apply lookup_lt_is_Some in Hlt as [nd Hnd]. exists s, nd.
  split_and!; [done | done |].
  destruct (execute_results task_graph 0%Z trace s task1 _ nd
              (fun _ => (0, 13)%Z) id test2_graph_armed test2_graph_fresh Hrun
              eq_refl eq_refl Hnd) as (_ & Hran & Hret').
  apply Hran, Hret', Hret.
Defined.

Lemma no_worker_hangs_witness :
  armed task_graph0 /\ mThreads (mPool task_graph0) = [] /\
  exists s, run start0 [ESubmit 0] s /\ caller s <> CReturned.
Proof.
  assert (Ha : armed task_graph0).
  { by destruct (build_graph_ready program 0 task_graph0 eq_refl test2_weight). }
  split_and!; [done | reflexivity |].
  destruct (exec [LCallerPush] start0) as [[tr s]|] eqn:Hex;
    [|by vm_compute in Hex].
  pose proof (exec_run _ _ _ _ Hex) as Hrun.
  assert (Htr : tr = [ESubmit 0]).
  { vm_compute in Hex. by injection Hex as <- <-. }
  rewrite Htr in Hrun. exists s. split; [done|]. intros Hret.
  destruct (no_worker_hangs _ _ _ _ Ha eq_refl Hrun) as (_ & _ & Hnil).
  by specialize (Hnil Hret).
Defined.

Lemma built_graph_ready_witness :
  build_graph program (new_graph 1) = Some task_graph /\
  armed task_graph /\ length (mNodes task_graph) = 5.
Proof.
  split; [reflexivity|].
  destruct (built_graph_ready program 1 task_graph eq_refl test2_weight)
    as (Ha & _ & _ & _ & _ & Hlen & _).
  split; [exact Ha | exact Hlen].
Defined.

End Test2More.

Module CyclicFacts.
Import Cyclic.

Lemma cyclic_weight : (Z.of_nat (build_weight program) < 2 ^ 64)%Z.
Proof. vm_compute. reflexivity. Qed.

Lemma cyclic_armed : armed task_graph /\ synced task_graph.
Proof.
  by destruct (build_graph_ready program 1 task_graph eq_refl cyclic_weight)
    as (? & ? & _).
Qed.

Lemma cyclic_blocked : blocked task_graph 2.
Proof.
  exists 1. split.
  - eapply tc_l; [|apply tc_once]; unfold child; vm_compute.
    + apply elem_of_cons. by left.
    + apply elem_of_cons. by left.
  - apply rtc_once. unfold child. vm_compute.
    apply elem_of_cons. right. apply elem_of_cons. by left.
Qed.

Lemma cycle_blocks_witness :
  armed task_graph /\ blocked task_graph 2 /\
  run start [] start /\ caller start <> CReturned.
Proof.
  destruct cyclic_armed as [Ha _].
  split_and!; [done | apply cyclic_blocked | constructor |].
  by destruct (cycle_blocks task_graph tt [] start 2 Ha cyclic_blocked
                 (run_nil _)) as (_ & _ & ?).
Defined.

Lemma hasCycle_true_hangs_witness :
  armed task_graph /\ synced task_graph /\ hasCycle task_graph = Some true /\
  caller start <> CReturned.
Proof.
  destruct cyclic_armed as [Ha Hs].
  assert (Hc : hasCycle task_graph = Some true) by (by vm_compute).
  split_and!; [done..|].
  exact (hasCycle_true_hangs task_graph tt [] start Ha Hs Hc (run_nil _)).
Defined.

End CyclicFacts.

Module FanoutFacts.
Import Fanout.

Lemma fanout_armed : armed task_graph.
Proof.
  assert (Hnode : forall c nd, mNodes task_graph !! c = Some nd ->
            c = 0 /\ nd = MoveOnly.node [MoveOnly.consumer; MoveOnly.consumer]).
  { intros [|c] nd Hc; simpl in Hc; [by injection Hc as <-|].
    by rewrite lookup_nil in Hc. }
  assert (Hch : forall p, children task_graph p = []).
  { intros [|p]; [done|]. unfold children. simpl. by destruct p. }
  constructor.
  - constructor.
    + intros c nd [-> ->]%Hnode. split; [|done]. by vm_compute.
    + intros p c Hc. rewrite Hch in Hc. by apply elem_of_nil in Hc.
    + by vm_compute.
  - by intros c nd [-> ->]%Hnode.
  - done.
  - done.
  - intros [|w] x Hx; simpl in Hx; [by injection Hx as <-|].
    by rewrite lookup_nil in Hx.
Qed.

Lemma throw_blocks_witness :
  armed task_graph /\
  can_throw (MoveOnly.node [MoveOnly.consumer; MoveOnly.consumer]) /\
  exists s, run start trace s /\ (0 ∉ completed trace) /\ caller s <> CReturned.
Proof.
  assert (Hthrow : can_throw (MoveOnly.node [MoveOnly.consumer; MoveOnly.consumer])).
  { unfold can_throw. simpl. lia. }
  split_and!; [apply fanout_armed | done |].
  destruct (exec schedule start) as [[tr s]|] eqn:Hex; [|by vm_compute in Hex].
  pose proof (exec_run _ _ _ _ Hex) as Hrun.
  assert (Htr : tr = trace).
  { vm_compute in Hex. by injection Hex as <- <-. }
  rewrite Htr in Hrun. exists s. split; [done|].
  by destruct (throw_blocks task_graph tt trace s 0 _ fanout_armed eq_refl
                 Hthrow Hrun) as (_ & _ & ? & _ & ?).
Defined.

End FanoutFacts.

Module Pool3Facts.
Import Control Pool3.

Lemma pool_ok : ok pool.
Proof.
  constructor.
  - reflexivity.
  - by vm_compute.
  - vm_compute. repeat (constructor; [set_solver|]). constructor.
  - intros t Ht. vm_compute in Ht. vm_compute. set_solver by lia.
Qed.

Lemma pool_resize_witness :
  ok pool /\ size pool = 3 /\
  (exists p', resize 0 pool = OutOfRange (2 ^ 64 - 1) p' /\
     signalled p' = [0; 1; 2]) /\
  (exists p', resize 1 pool = Ok p' /\ mThreads p' = [0] /\
     signalled p' = [1; 2]).
Proof.
  destruct (ControlFacts.pool_resize 0 pool pool_ok ltac:(by vm_compute))
    as (_ & _ & _ & Hzero).
  destruct (ControlFacts.pool_resize 1 pool pool_ok ltac:(by vm_compute))
    as (_ & _ & Hone & _).
  split_and!; [apply pool_ok | reflexivity | |].
  - destruct (Hzero eq_refl eq_refl ltac:(vm_compute; lia))
      as (p' & Hr & _ & _ & Hsig). exists p'. split; [exact Hr | exact Hsig].
  - destruct (Hone eq_refl ltac:(vm_compute; lia))
      as (p' & Hr & _ & _ & Hth & _ & Hsig). exists p'.
    split_and!; [exact Hr | exact Hth | exact Hsig].
Defined.

End Pool3Facts.

(** ** One execution after another, and tasks one after another *)

Section Again.
Context {W V : Type}.
Implicit Types (g : TaskGraph W V) (s : Sys W V) (tr : list Event).

Lemma scan_ready_all (nodes : list (TaskNode W V)) i :
  (forall nd, nd ∈ nodes -> mPendingCount nd = 0%Z) ->
  scan_ready i nodes = seq i (length nodes).
Proof.
  revert i. induction nodes as [|nd nodes IH]; intros i Hall; simpl; [done|].
  unfold getPendingCount. rewrite decide_True by (apply Hall; by left).
  f_equal. apply IH. intros nd' Hnd'. apply Hall. by right.
Qed.

Lemma push_all_run s0 (l : list nat) : forall tr g (w : W),
  run s0 tr (mkSys g (CPush l) w) ->
  exists g', run s0 (tr ++ map ESubmit l) (mkSys g' (CPush []) w) /\
    mNodes g' = mNodes g /\ mCompletedTasks g' = mCompletedTasks g.
Proof.
  induction l as [|n l IH]; intros tr g w Hrun; simpl.
  - exists g. by rewrite app_nil_r.
  - assert (Hstep : step LCallerPush (mkSys g (CPush (n :: l)) w)
                    = Some (ESubmit n,
                            mkSys (set_mPool (pool_push n (mPool g)) g) (CPush l) w))
      by done.
    destruct (IH _ _ _ (run_snoc _ _ _ _ _ _ Hrun Hstep)) as (g' & Hrun' & Hn & Hc).
    exists g'. split_and!; [|done..].
    by rewrite <- app_assoc in Hrun'.
Qed.



(** X17: a second [execute] without a [reset] in between finds every
    pending count at zero and [mCompletedTasks] at the number of nodes: it
    submits all nodes at once, whatever their parents, and can return before
    any task has run.  After [reset] the graph is as ready as it was when
    built. *)
Theorem execute_again g (w0 : W) tr s :
  armed g -> run (execute_begin g w0) tr s -> caller s = CReturned ->
  initialNodes (graph s) = seq 0 (length (mNodes g)) /\
  (exists s2,
     run (execute_begin (graph s) (world s))
       (map ESubmit (seq 0 (length (mNodes g))) ++ [EReturn]) s2 /\
     caller s2 = CReturned) /\
  armed (reset (graph s)).
Proof.
  intros Ha Hrun Hret. pose proof (Inv_run _ _ _ _ Ha Hrun) as HI.
  pose proof (static_length _ _ (inv_static _ _ _ HI)) as Hlen.
  pose proof (inv_returned _ _ _ HI Hret) as Hall.
  assert (Hinit : initialNodes (graph s) = seq 0 (length (mNodes g))).
  { unfold initialNodes. rewrite <- Hlen. apply scan_ready_all.
    intros nd [n Hn]%list_elem_of_lookup.
    assert (Hsub : n ∈ submitted tr).
    { eapply started_submitted, inv_finished_started, inv_completed_finished,
        completed_all; [done..|]. rewrite <- Hlen. by eapply lookup_lt_Some. }
    destruct (inv_submitted_zero _ _ _ HI _ Hsub) as [Hz _].
    unfold pending in Hz. rewrite Hn in Hz. by injection Hz. }
  split_and!; [done | | by eapply rearm].
  destruct (push_all_run (execute_begin (graph s) (world s))
              (initialNodes (graph s)) [] (graph s) (world s) (run_nil _))
    as (g' & Hrun' & Hn & Hc).
  rewrite Hinit in Hrun'. simpl in Hrun'.
  exists (mkSys g' CReturned (world s)). split; [|done].
  apply (run_snoc _ _ _ LCallerReturn _ _ Hrun'). simpl.
  rewrite decide_True; [done|].
  by rewrite Hn, Hc, (inv_completed _ _ _ HI), Hall, Hlen.
Qed.


End Again.

Module AgainFacts.
Import Test1.

Lemma execute_again_witness :
  armed task_graph /\
  exists s, run start trace s /\ caller s = CReturned /\
    initialNodes (graph s) = [task1; task2; task3; task4].
Proof.
  split; [apply Test1Facts.task_graph_armed|].
  destruct Test1Witness.trace_run as (s & Hrun & Hret). exists s.
  destruct (execute_again _ _ _ _ Test1Facts.task_graph_armed Hrun Hret)
    as (Hinit & _ & _).
  split_and!; [done | done | exact Hinit].
Defined.


End AgainFacts.

(** ** The outcome does not depend on the schedule *)

Section Confluence.
Context {W V : Type}.
Implicit Types (g : TaskGraph W V) (s : Sys W V) (tr : list Event).










End Confluence.

Module IndependentFacts.
Import Independent.




End IndependentFacts.
